(** * libeknav: the pseudorange INS quaternion Kalman filter

    A shallow embedding of [src/eknav/pr_ins_qkf.cpp].

    The C++ code computes with two scalar types, [float] and [double], and
    converts between them with [cast<>()].  The embedding is written once,
    over two abstract scalar types [F] and [D] with the operations the code
    uses on them, and is then read at two instances:

    - [Exact]: both scalars are the real numbers and the casts are the
      identity.  This is the arithmetic in which the Kalman equations are
      derived; "to within round-off" means equality here.
    - [IEEE]: [F] is IEEE 754 binary32 and [D] is binary64, both computed
      by the standard library's executable specification [SpecFloat], with
      NaN, infinities and signed zeros.

    Fixed-size Eigen vectors and matrices are index functions; a block of a
    matrix is read with [block] and written with [set_block], as
    [m.block<R, C>(r, c)] is in the source. *)

From Stdlib Require Import Bool Arith ZArith List Lia.
From Stdlib Require Import Reals Lra.
From Stdlib Require Import Floats.SpecFloat.
Import ListNotations.

Set Implicit Arguments.

(** ** Scalars *)

(** The operations of a C++ floating type that the filter uses.  [of_Z] reads
    an integer literal, [ltb] is [operator<], [is_nan] and [is_inf] are
    [std::isnan] and [std::isinf]. *)
Class Num (T : Type) : Type := {
  zero : T;
  one : T;
  add : T -> T -> T;
  sub : T -> T -> T;
  mul : T -> T -> T;
  div : T -> T -> T;
  opp : T -> T;
  sqrt : T -> T;
  abs : T -> T;
  ltb : T -> T -> bool;
  of_Z : Z -> T;
  is_nan : T -> bool;
  is_inf : T -> bool
}.

(** Conversions between the two scalar types: [f2d] is the implicit
    promotion or [cast<double>()], [d2f] is the narrowing conversion or
    [cast<float>()]. *)
Class Casts (F D : Type) : Type := {
  f2d : F -> D;
  d2f : D -> F
}.

Declare Scope num_scope.
Delimit Scope num_scope with num.
Infix "+" := add : num_scope.
Infix "-" := sub : num_scope.
Infix "*" := mul : num_scope.
Infix "/" := div : num_scope.
Notation "- x" := (opp x) : num_scope.

(** ** Fixed-size vectors and matrices *)

Definition Vec (T : Type) : Type := nat -> T.
Definition Mat (T : Type) : Type := nat -> nat -> T.

(** [for (int i = 0; i < n; ++i) body], with the loop-carried variables as
    the accumulator. *)
Definition for_loop {S : Type} (n : nat) (body : nat -> S -> S) (init : S) : S :=
  fold_left (fun s i => body i s) (seq 0 n) init.

(** Index test of [m.block<rows, cols>(r, c)]. *)
Definition in_block (rows cols r c i j : nat) : bool :=
  (r <=? i) && (i <? r + rows) && (c <=? j) && (j <? c + cols).

Section Linalg.
Context {T : Type} {NT : Num T}.
Local Open Scope num_scope.

(** Sum of [f 0 .. f (n-1)], left to right. *)
Fixpoint sum_n (n : nat) (f : nat -> T) : T :=
  match n with
  | O => zero
  | S m => match m with
           | O => f O
           | S _ => sum_n m f + f m
           end
  end.

Definition vec3 (a b c : T) : Vec T :=
  fun i => match i with O => a | S O => b | _ => c end.

Definition vzero : Vec T := fun _ => zero.
Definition vadd (u v : Vec T) : Vec T := fun i => u i + v i.
Definition vsub (u v : Vec T) : Vec T := fun i => u i - v i.
Definition vopp (u : Vec T) : Vec T := fun i => - u i.
Definition vscale (u : Vec T) (s : T) : Vec T := fun i => u i * s.
Definition vscale_l (s : T) (u : Vec T) : Vec T := fun i => s * u i.
Definition vdiv (u : Vec T) (s : T) : Vec T := fun i => u i / s.

Definition dot (n : nat) (u v : Vec T) : T := sum_n n (fun k => u k * v k).
Definition squaredNorm (n : nat) (u : Vec T) : T := dot n u u.
Definition norm (n : nat) (u : Vec T) : T := sqrt (squaredNorm n u).

(** [v.normalized()] is [v / v.norm()]: the Eigen releases the file was
    written against divide without testing the norm, and the gravity model
    of the specification is [position / |position|]. *)
Definition normalized (n : nat) (u : Vec T) : Vec T := vdiv u (norm n u).

(** [u.cross(v)] *)
Definition cross3 (u v : Vec T) : Vec T :=
  vec3 (u 1 * v 2 - u 2 * v 1) (u 2 * v 0 - u 0 * v 2) (u 0 * v 1 - u 1 * v 0).

Definition mzero : Mat T := fun _ _ => zero.
Definition midentity : Mat T := fun i j => if i =? j then one else zero.
Definition asDiagonal (v : Vec T) : Mat T :=
  fun i j => if i =? j then v i else zero.
Definition transpose (A : Mat T) : Mat T := fun i j => A j i.
Definition madd (A B : Mat T) : Mat T := fun i j => A i j + B i j.
Definition msub (A B : Mat T) : Mat T := fun i j => A i j - B i j.
Definition mscale (A : Mat T) (s : T) : Mat T := fun i j => A i j * s.
Definition mscale_l (s : T) (A : Mat T) : Mat T := fun i j => s * A i j.

(** Products; [n] is the inner dimension. *)
Definition mmul (n : nat) (A B : Mat T) : Mat T :=
  fun i j => sum_n n (fun k => A i k * B k j).
Definition mvmul (n : nat) (A : Mat T) (v : Vec T) : Vec T :=
  fun i => sum_n n (fun k => A i k * v k).
Definition vmmul (n : nat) (v : Vec T) (A : Mat T) : Vec T :=
  fun j => sum_n n (fun k => v k * A k j).
(** column vector times row vector *)
Definition outer (u v : Vec T) : Mat T := fun i j => u i * v j.

(** [A.block<_, _>(r, c)], [A.col(c)], [A.row(r)], [v.segment<_>(k)] *)
Definition block (A : Mat T) (r c : nat) : Mat T :=
  fun i j => A (r + i)%nat (c + j)%nat.
Definition col (A : Mat T) (r c : nat) : Vec T := fun i => A (r + i)%nat c.
Definition row (A : Mat T) (r c : nat) : Vec T := fun j => A r (c + j)%nat.
Definition segment (v : Vec T) (k : nat) : Vec T := fun i => v (k + i)%nat.

(** [A.block<rows, cols>(r, c) = B] *)
Definition set_block (rows cols : nat) (A : Mat T) (r c : nat) (B : Mat T)
  : Mat T :=
  fun i j => if in_block rows cols r c i j then B (i - r)%nat (j - c)%nat
             else A i j.

(** [A(r, c) = x] *)
Definition set_entry (A : Mat T) (r c : nat) (x : T) : Mat T :=
  fun i j => if (i =? r) && (j =? c) then x else A i j.

(** [A.block<n, n>(r, r) += v.asDiagonal()]: Eigen adds a diagonal
    expression to the diagonal coefficients only. *)
Definition add_diagonal (n : nat) (A : Mat T) (r : nat) (v : Vec T) : Mat T :=
  fun i j => if (i =? j) && (r <=? i) && (i <? r + n)
             then A i j + v (i - r)%nat else A i j.

(** [hasNaN], [hasInf] of [eknav/assertions.hpp], on a vector and on a
    matrix. *)
Definition vec_any (p : T -> bool) (n : nat) (v : Vec T) : bool :=
  existsb (fun i => p (v i)) (seq 0 n).
Definition mat_any (p : T -> bool) (rows cols : nat) (A : Mat T) : bool :=
  existsb (fun i => existsb (fun j => p (A i j)) (seq 0 cols)) (seq 0 rows).

(** *** Quaternions *)

(** [Eigen::Quaternion]: scalar part [qw], vector part [qx qy qz]. *)
Record Quaternion : Type := mkQuaternion { qw : T; qx : T; qy : T; qz : T }.

Definition qidentity : Quaternion := mkQuaternion one zero zero zero.
Definition qconj (q : Quaternion) : Quaternion :=
  mkQuaternion (qw q) (- qx q) (- qy q) (- qz q).
Definition qvec (q : Quaternion) : Vec T := vec3 (qx q) (qy q) (qz q).

(** [q.coeffs()] is stored as x, y, z, w. *)
Definition coeffs (q : Quaternion) : Vec T :=
  fun i => match i with O => qx q | 1 => qy q | 2 => qz q | _ => qw q end.
Definition qnorm (q : Quaternion) : T := norm 4 (coeffs q).

(** [coeffs() *= s] *)
Definition qscale (q : Quaternion) (s : T) : Quaternion :=
  mkQuaternion (qw q * s) (qx q * s) (qy q * s) (qz q * s).

(** [a * b] *)
Definition qmul (a b : Quaternion) : Quaternion :=
  mkQuaternion
    (qw a * qw b - qx a * qx b - qy a * qy b - qz a * qz b)
    (qw a * qx b + qx a * qw b + qy a * qz b - qz a * qy b)
    (qw a * qy b + qy a * qw b + qz a * qx b - qx a * qz b)
    (qw a * qz b + qz a * qw b + qx a * qy b - qy a * qx b).

(** [q * v], the rotation of a 3-vector *)
Definition qrot (q : Quaternion) (v : Vec T) : Vec T :=
  let uv := cross3 (qvec q) v in
  let uv := vadd uv uv in
  vadd (vadd v (vscale_l (qw q) uv)) (cross3 (qvec q) uv).

(** [q.toRotationMatrix()] *)
Definition toRotationMatrix (q : Quaternion) : Mat T :=
  let two := of_Z 2 in
  let tx := two * qx q in
  let ty := two * qy q in
  let tz := two * qz q in
  let twx := tx * qw q in
  let twy := ty * qw q in
  let twz := tz * qw q in
  let txx := tx * qx q in
  let txy := ty * qx q in
  let txz := tz * qx q in
  let tyy := ty * qy q in
  let tyz := tz * qy q in
  let tzz := tz * qz q in
  fun i j =>
    match i, j with
    | 0, 0 => one - (tyy + tzz) | 0, 1 => txy - twz | 0, _ => txz + twy
    | 1, 0 => txy + twz | 1, 1 => one - (txx + tzz) | 1, _ => tyz - twx
    | _, 0 => txz - twy | _, 1 => tyz + twx | _, _ => one - (txx + tyy)
    end.

(** Neither [std::isnan] nor [std::isinf]. *)
Definition is_finite (x : T) : Prop := is_nan x = false /\ is_inf x = false.
End Linalg.

Arguments Quaternion T : clear implicits.

(** ** What the file takes from elsewhere *)

(** [M_PI] of [<cmath>]. *)
Class MathConstants (D : Type) : Type := { M_PI : D }.

(** The quaternion helpers of [eknav/quaternions.hpp] and Eigen's
    [setFromTwoVectors], which [pr_ins_qkf.cpp] calls and does not define.
    They are parameters of the model: [exp_f] is [exp<float>], [log_f] and
    [log_d] are [log<float>] and [log<double>]. *)
Class Externals (F D : Type) : Type := {
  exp_f : Vec F -> Quaternion F;
  log_f : Quaternion F -> Vec F;
  log_d : Quaternion D -> Vec D;
  incremental_normalized : Quaternion D -> Quaternion D;
  setFromTwoVectors : Vec F -> Vec F -> Quaternion F
}.

(** ** The filter *)

Section Filter.
Context {F D : Type} {NF : Num F} {ND : Num D} {CFD : Casts F D}.
Context {MC : MathConstants D} {EXT : Externals F D}.
Local Open Scope num_scope.

Definition vcast_f2d (v : Vec F) : Vec D := fun i => f2d (v i).
Definition vcast_d2f (v : Vec D) : Vec F := fun i => d2f (v i).
Definition qcast_f2d (q : Quaternion F) : Quaternion D :=
  mkQuaternion (f2d (qw q)) (f2d (qx q)) (f2d (qy q)) (f2d (qz q)).
Definition qcast_d2f (q : Quaternion D) : Quaternion F :=
  mkQuaternion (d2f (qw q)) (d2f (qx q)) (d2f (qy q)) (d2f (qz q)).

(** [std::numeric_limits<float>::epsilon()], 2^-23 *)
Definition float_epsilon : F := one / of_Z 8388608.

(** Modelled from the spec: [cross<float>(v)] of [eknav/quaternions.hpp],
    "the skew-symmetric cross-product matrix" of [v]. *)
Definition cross (v : Vec F) : Mat F :=
  fun i j =>
    match i, j with
    | 0, 1 => - v 2 | 0, 2 => v 1
    | 1, 0 => v 2 | 1, 2 => - v 0
    | 2, 0 => - v 1 | 2, 1 => v 0
    | _, _ => zero
    end.

(** [pseudorange_ins_qkf::state] *)
Record state : Type := mkState {
  position : Vec D;
  velocity : Vec D;
  orientation : Quaternion D;
  gyro_bias : Vec F;
  accel_bias : Vec F;
  clock_bias : D;
  inertial_accel : Vec F;
  body_rate : Vec F
}.

(** [pseudorange_ins_qkf]: the mean, the two covariance blocks and the
    process-noise members. *)
Record filter : Type := mkFilter {
  avg_state : state;
  cov : Mat F;
  pt_cov : Mat F;
  gyro_stability_noise : Vec F;
  gyro_white_noise : Vec F;
  accel_white_noise : Vec F;
  accel_stability_noise : Vec F;
  clock_stability_noise : F;
  accel_gravity_norm : F
}.

Definition set_avg_state (f : filter) (s : state) : filter :=
  mkFilter s (cov f) (pt_cov f) (gyro_stability_noise f) (gyro_white_noise f)
    (accel_white_noise f) (accel_stability_noise f) (clock_stability_noise f)
    (accel_gravity_norm f).
Definition set_cov (f : filter) (c : Mat F) : filter :=
  mkFilter (avg_state f) c (pt_cov f) (gyro_stability_noise f)
    (gyro_white_noise f) (accel_white_noise f) (accel_stability_noise f)
    (clock_stability_noise f) (accel_gravity_norm f).
Definition set_pt_cov (f : filter) (c : Mat F) : filter :=
  mkFilter (avg_state f) (cov f) c (gyro_stability_noise f)
    (gyro_white_noise f) (accel_white_noise f) (accel_stability_noise f)
    (clock_stability_noise f) (accel_gravity_norm f).

Definition set_position (s : state) (p : Vec D) : state :=
  mkState p (velocity s) (orientation s) (gyro_bias s) (accel_bias s)
    (clock_bias s) (inertial_accel s) (body_rate s).
Definition set_velocity (s : state) (v : Vec D) : state :=
  mkState (position s) v (orientation s) (gyro_bias s) (accel_bias s)
    (clock_bias s) (inertial_accel s) (body_rate s).
Definition set_orientation (s : state) (q : Quaternion D) : state :=
  mkState (position s) (velocity s) q (gyro_bias s) (accel_bias s)
    (clock_bias s) (inertial_accel s) (body_rate s).

(** *** Construction and initialisation *)

(** [clear_covariance_block(rowcol, repl)] *)
Definition clear_covariance_block (f : filter) (rowcol : nat) (repl : Mat F)
  : filter :=
  if rowcol <=? 9 then
    let c := set_block 3 12 (cov f) rowcol 0 mzero in
    let c := set_block 12 3 c 0 rowcol mzero in
    let c := set_block 3 3 c rowcol rowcol repl in
    set_cov f c
  else
    let clock_bias_rms : F := of_Z 300 in
    let clock_bias_rms := clock_bias_rms * clock_bias_rms in
    let p := mzero in
    let p := set_block 3 3 p 0 0 repl in
    let p := set_entry p 3 3 clock_bias_rms in
    set_pt_cov f p.

(** The default constructor.  [mem] is the object before the constructor
    body runs: the members the body does not assign ([inertial_accel],
    [body_rate] and the process-noise members) keep what [mem] holds. *)
Definition pseudorange_ins_qkf (mem : filter) : filter :=
  let s := mkState vzero vzero qidentity vzero vzero zero
             (inertial_accel (avg_state mem)) (body_rate (avg_state mem)) in
  let c : Mat F := mzero in
  let p : Mat F := mzero in
  let gyro_bias_rms : F := d2f (of_Z 3 * M_PI / of_Z 180) in
  let gyro_bias_rms := gyro_bias_rms * gyro_bias_rms in
  let accel_bias_rms : F := d2f (of_Z 3 / of_Z 10) in
  let accel_bias_rms := accel_bias_rms * accel_bias_rms in
  let clock_bias_rms : F := of_Z 300 in
  let clock_bias_rms := clock_bias_rms * clock_bias_rms in
  let initial_pos_err : F := d2f (of_Z 100000) in
  let initial_pos_err := initial_pos_err * initial_pos_err in
  let c := set_block 3 3 c 0 0 (mscale midentity gyro_bias_rms) in
  let c := set_block 3 3 c 3 3
             (mscale (mscale (mscale midentity (d2f M_PI)) (d2f M_PI))
                (d2f (one / of_Z 2))) in
  let c := set_block 3 3 c 6 6 (mscale midentity (of_Z 100)) in
  let c := set_block 3 3 c 9 9 (mscale midentity accel_bias_rms) in
  let p := set_block 3 3 p 0 0 (mscale midentity initial_pos_err) in
  let p := set_entry p 3 3 clock_bias_rms in
  mkFilter s c p (gyro_stability_noise mem) (gyro_white_noise mem)
    (accel_white_noise mem) (accel_stability_noise mem)
    (clock_stability_noise mem) (accel_gravity_norm mem).

Definition init_attitude (f : filter) (attitude : Quaternion D)
    (attitude_error : Mat F) : filter :=
  let f := set_avg_state f (set_orientation (avg_state f) attitude) in
  clear_covariance_block f 3 attitude_error.

Definition init_velocity (f : filter) (vel : Vec D) (vel_error : Vec F)
  : filter :=
  let f := set_avg_state f (set_velocity (avg_state f) vel) in
  clear_covariance_block f 6 (asDiagonal vel_error).

Definition init_position (f : filter) (pos : Vec D) (pos_error : Vec F)
  : filter :=
  let f := set_avg_state f (set_position (avg_state f) pos) in
  clear_covariance_block f 12 (asDiagonal pos_error).

(** *** Covariance propagation helpers *)

(** [dst[dst_row, dst_col] += mult*src[src_row, src_col]
     + src[src_col, src_row]*mult.transpose()] *)
Definition ssyr2k (dst : Mat F) (dst_row dst_col : nat) (mult : Mat F)
    (src : Mat F) (src_row src_col : nat) : Mat F :=
  set_block 3 3 dst dst_row dst_col
    (madd (block dst dst_row dst_col)
       (madd (mmul 3 mult (block src src_row src_col))
          (mmul 3 (block src src_col src_row) (transpose mult)))).

(** [dst[dst_row, dst_col] += mult * src[src_row, src_col] * mult'] *)
Definition sgemmm (dst : Mat F) (dst_row dst_col : nat) (mult : Mat F)
    (src : Mat F) (src_row src_col : nat) : Mat F :=
  set_block 3 3 dst dst_row dst_col
    (madd (block dst dst_row dst_col)
       (mmul 3 (mmul 3 mult (block src src_row src_col)) (transpose mult))).

(** the three-argument overload, on a diagonal block *)
Definition sgemmm_diag (dst : Mat F) (dst_diag : nat) (mult : Mat F)
    (src : Mat F) (src_diag : nat) : Mat F :=
  sgemmm dst dst_diag dst_diag mult src src_diag src_diag.

(** [dst[dst_row, dst_col] += src[src_row, src_col] * mult'] *)
Definition sgemm (dst : Mat F) (dst_row dst_col : nat) (mult : Mat F)
    (src : Mat F) (src_row src_col : nat) : Mat F :=
  set_block 3 3 dst dst_row dst_col
    (madd (block dst dst_row dst_col)
       (mmul 3 (block src src_row src_col) (transpose mult))).

(** [dst.block<3, 3>(r, c) += B] *)
Definition add_block (dst : Mat F) (r c : nat) (B : Mat F) : Mat F :=
  set_block 3 3 dst r c (madd (block dst r c) B).

(** The table [block_addr] of the symmetrisation loop. *)
Definition block_addr : list (nat * nat) :=
  [(3, 0); (6, 0); (6, 3); (9, 0); (9, 3); (9, 6)].

(** One turn of the loop:
    [cov.block<3,3>(row, col) = cov.block<3,3>(col, row).transpose()] *)
Definition mirror_block (c : Mat F) (rc : nat * nat) : Mat F :=
  let (row, col) := rc in
  set_block 3 3 c row col (transpose (block c col row)).

Definition symmetrize (c : Mat F) : Mat F :=
  for_loop 6 (fun i c => mirror_block c (nth i block_addr (0, 0))) c.

(** Index test of the six blocks that the loop writes. *)
Definition lower_block (i j : nat) : bool :=
  existsb (fun rc => in_block 3 3 (fst rc) (snd rc) i j) block_addr.

(** The covariance part of [predict_ecef]: [this_cov] is [this->cov],
    [cov0] the local copy taken before the update. *)
Definition propagate_cov (this_cov : Mat F) (dtR dtQ : Mat F) : Mat F :=
  let cov0 := this_cov in
  let c := this_cov in
  let c := sgemm c 0 3 dtR cov0 0 0 in
  let c := sgemm c 0 6 dtQ cov0 0 3 in
  let c := sgemm c 0 6 dtR cov0 0 9 in
  let c := sgemmm_diag c 3 dtR cov0 0 in
  let c := ssyr2k c 3 3 dtR cov0 0 3 in
  let c := add_block c 3 6
             (madd (mmul 3 dtR (block cov0 0 6))
                (mmul 3 (mmul 3 dtR (block cov0 0 3)) (transpose dtQ))) in
  let c := sgemmm c 3 6 dtR cov0 0 9 in
  let c := sgemm c 3 6 dtR cov0 3 9 in
  let c := sgemm c 3 6 dtQ cov0 3 3 in
  let c := add_block c 3 9 (mmul 3 dtR (block cov0 0 9)) in
  let c := ssyr2k c 6 6 dtQ cov0 3 6 in
  let c := ssyr2k c 6 6 dtR cov0 9 6 in
  let tmp := mmul 3 dtR (transpose (mmul 3 dtQ (block cov0 3 9))) in
  let c := add_block c 6 6 (madd tmp (transpose tmp)) in
  let c := sgemmm_diag c 6 dtQ cov0 3 in
  let c := sgemmm_diag c 6 dtR cov0 9 in
  let c := add_block c 6 9
             (madd (mmul 3 dtQ (block cov0 3 9))
                (mmul 3 dtR (block cov0 9 9))) in
  symmetrize c.

(** *** Prediction *)

(** [predict_ecef(gyro_meas, accel_meas, dt)].  The closing
    [assert(invariants_met())] is not part of the state change. *)
Definition predict_ecef (f : filter) (gyro_meas accel_meas : Vec F) (dt : F)
  : filter :=
  let s := avg_state f in
  let attitude_conj := qconj (qcast_d2f (orientation s)) in
  let accel_sensible_ecef :=
    qrot attitude_conj (vsub accel_meas (accel_bias s)) in
  let accel_gravity :=
    vscale (normalized 3 (vcast_d2f (position s))) (accel_gravity_norm f) in
  let inertial_accel' := vsub accel_sensible_ecef accel_gravity in
  let accel_cov := cross (vopp accel_sensible_ecef) in
  let cov0 := cov f in
  let dtR := mscale_l (- dt) (toRotationMatrix attitude_conj) in
  let dtQ := mscale_l (- dt) accel_cov in
  let c := propagate_cov (cov f) dtR dtQ in
  let p := add_block (pt_cov f) 0 0
             (mscale_l (dt * dt) (block cov0 6 6)) in
  let c := add_diagonal 3 c 0 (vscale (gyro_stability_noise f) dt) in
  let c := add_diagonal 3 c 3 (vscale (gyro_white_noise f) dt) in
  let c := add_diagonal 3 c 6 (vscale (accel_white_noise f) dt) in
  let c := add_diagonal 3 c 9 (vscale (accel_stability_noise f) dt) in
  let p := add_diagonal 3 p 0
             (vscale (vscale (vscale (accel_white_noise f)
                                (d2f (one / of_Z 2))) dt) dt) in
  let p := set_entry p 3 3 (p 3 3 + clock_stability_noise f * dt) in
  let accel := vcast_f2d inertial_accel' in
  let body_rate' := vsub gyro_meas (gyro_bias s) in
  let orientation' :=
    qmul (qcast_f2d (exp_f (vscale body_rate' dt))) (orientation s) in
  let position' :=
    vadd (vadd (position s) (vscale (velocity s) (f2d dt)))
      (vscale (vscale (vscale_l (one / of_Z 2) accel) (f2d dt)) (f2d dt)) in
  let velocity' := vadd (velocity s) (vscale accel (f2d dt)) in
  let s' := mkState position' velocity' orientation' (gyro_bias s)
              (accel_bias s) (clock_bias s) inertial_accel' body_rate' in
  mkFilter s' c p (gyro_stability_noise f) (gyro_white_noise f)
    (accel_white_noise f) (accel_stability_noise f) (clock_stability_noise f)
    (accel_gravity_norm f).

(** *** Applying an error vector to the mean *)

(** [state::apply_kalman_vec_update(const Matrix<float, 12, 1>&)] *)
Definition apply_kalman_vec_update12 (s : state) (update : Vec F) : state :=
  let gyro_bias' := vadd (gyro_bias s) (segment update 0) in
  let posterior_update := qcast_f2d (exp_f (segment update 3)) in
  let orientation' :=
    incremental_normalized (qmul (orientation s) posterior_update) in
  let velocity' := vadd (velocity s) (vcast_f2d (segment update 6)) in
  let accel_bias' := vadd (accel_bias s) (segment update 9) in
  mkState (position s) velocity' orientation' gyro_bias' accel_bias'
    (clock_bias s) (inertial_accel s) (body_rate s).

(** [state::apply_kalman_vec_update(const Matrix<float, 4, 1>&)] *)
Definition apply_kalman_vec_update4 (s : state) (update : Vec F) : state :=
  let position' := vadd (position s) (vcast_f2d (segment update 0)) in
  let clock_bias' := clock_bias s + f2d (update 3) in
  mkState position' (velocity s) (orientation s) (gyro_bias s)
    (accel_bias s) clock_bias' (inertial_accel s) (body_rate s).

(** *** Observations *)

(** [obs_vector(ref, obs, error)] *)
Definition obs_vector (f : filter) (ref obs : Vec F) (error : F) : filter :=
  let s := avg_state f in
  let obs_ref := qrot (qcast_d2f (qconj (orientation s))) obs in
  let v_residual := log_f (setFromTwoVectors ref obs_ref) in
  let eps : F := d2f (sqrt (f2d float_epsilon * of_Z 1000)) in
  let unitX : Vec F := vec3 one zero zero in
  let unitY : Vec F := vec3 zero one zero in
  let h0 :=
    normalized 3
      (cross3 ref
         (if ltb eps (norm 3 (vsub ref (normalized 3 v_residual)))
          then normalized 3 v_residual
          else if ltb (f2d (abs (dot 3 ref unitX))) (of_Z 707 / of_Z 1000)
               then unitX else unitY)) in
  let h1 := vopp (cross3 ref h0) in
  let h_trans_col (i : nat) : Vec F := match i with O => h0 | _ => h1 end in
  let '(update, c) :=
    for_loop 2
      (fun i '(update, c) =>
         let h := h_trans_col i in
         let obs_error := error in
         let obs_cov := dot 3 (vmmul 3 h (block c 3 3)) h in
         let gain :=
           vdiv (mvmul 3 (block c 0 3) h) (obs_error + obs_cov) in
         let update' := vadd update (mvmul 3 (outer gain h) v_residual) in
         let c' := msub c (mmul 3 (outer gain h) (block c 3 0)) in
         (update', c'))
      (vzero, cov f) in
  set_avg_state (set_cov f c) (apply_kalman_vec_update12 s update).

(** [obs_gps_pseudorange(accum, sat_pos, pseudorange, error)]; the result
    carries the filter and the caller's accumulator after the call. *)
Definition obs_gps_pseudorange (f : filter) (accum : Vec F) (sat_pos : Vec D)
    (pseudorange : D) (error : F) : filter * Vec F :=
  let s := avg_state f in
  let directiond :=
    vsub (vadd (position s) (vcast_f2d (segment accum 0))) sat_pos in
  let prediction := norm 3 directiond in
  let directiond := vscale directiond (one / prediction) in
  let prediction := prediction + (clock_bias s + f2d (accum 3)) in
  let direction : Vec F :=
    fun i => if i <? 3 then d2f (directiond i) else one in
  let innovation_cov := dot 4 direction (mvmul 4 (pt_cov f) direction) in
  let residual := prediction - pseudorange in
  let innovation_cov_inverse := one / (innovation_cov + error) in
  let gain :=
    vscale (mvmul 4 (pt_cov f) direction) innovation_cov_inverse in
  let accum' := vadd accum (vscale gain (d2f residual)) in
  let p := msub (pt_cov f) (outer gain (vmmul 4 direction (pt_cov f))) in
  (set_pt_cov f p, accum').

(** [obs_gps_deltarange(accum, sat_vel, deltarange, error)] *)
Definition obs_gps_deltarange (f : filter) (accum : Vec F) (sat_vel : Vec D)
    (deltarange : D) (error : F) : filter * Vec F :=
  let s := avg_state f in
  let directiond :=
    vsub (vadd (velocity s) (vcast_f2d (segment accum 6))) sat_vel in
  let prediction := norm 3 directiond in
  let directiond := vscale directiond (one / prediction) in
  let direction := vcast_d2f directiond in
  let innovation_cov :=
    dot 3 direction (mvmul 3 (block (cov f) 6 6) direction) in
  let residual := prediction - deltarange in
  let innovation_cov_inverse := one / (innovation_cov + error) in
  let gain :=
    vscale (mvmul 3 (block (cov f) 0 6) direction) innovation_cov_inverse in
  let accum' := vadd accum (vscale gain (d2f residual)) in
  let c :=
    msub (cov f) (outer gain (vmmul 3 direction (block (cov f) 6 0))) in
  (set_cov f c, accum').

(** The position leg of [obs_gps_pv_report]: the loop and the update of
    the mean.  The row that multiplies the gain is read from [cov], the
    12x12 matrix, as the source has it. *)
Definition pv_report_position (f : filter) (pos : Vec D) (p_error : Vec F)
  : filter :=
  let s := avg_state f in
  let residual := vsub pos (position s) in
  let '(update, p) :=
    for_loop 3
      (fun i '(update, p) =>
         let innovation_cov_inv : F :=
           d2f (one / f2d (p i i + p_error i)) in
         let gain := vscale (col p 0 i) innovation_cov_inv in
         let update' :=
           vadd update (vscale gain (d2f (residual i - f2d (update i)))) in
         let p' := msub p (outer gain (row (cov f) i 0)) in
         (update', p'))
      (vzero, pt_cov f) in
  set_avg_state (set_pt_cov f p) (apply_kalman_vec_update4 s update).

(** The velocity leg of [obs_gps_pv_report]. *)
Definition pv_report_velocity (f : filter) (vel : Vec D) (v_error : Vec F)
  : filter :=
  let s := avg_state f in
  let residual := vcast_d2f (vsub vel (velocity s)) in
  let '(update, c) :=
    for_loop 3
      (fun i '(update, c) =>
         let innovation_cov_inv : F :=
           d2f (one / f2d (c (6 + i)%nat (6 + i)%nat + v_error i)) in
         let gain := vscale (col c 0 (6 + i)) innovation_cov_inv in
         let update' :=
           vadd update
             (vscale gain (residual i - update (6 + i)%nat)) in
         let c' := msub c (outer gain (row c (6 + i) 0)) in
         (update', c'))
      (vzero, cov f) in
  set_avg_state (set_cov f c) (apply_kalman_vec_update12 s update).

(** [obs_gps_pv_report(pos, vel, p_error, v_error)] *)
Definition obs_gps_pv_report (f : filter) (pos vel : Vec D)
    (p_error v_error : Vec F) : filter :=
  pv_report_velocity (pv_report_position f pos p_error) vel v_error.

(** *** Diagnostics *)

Definition state_has (pf : F -> bool) (pd : D -> bool) (s : state) : bool :=
  vec_any pf 3 (gyro_bias s)
  || vec_any pd 4 (coeffs (orientation s))
  || vec_any pd 3 (position s)
  || vec_any pd 3 (velocity s)
  || vec_any pf 3 (accel_bias s)
  || vec_any pf 3 (inertial_accel s)
  || vec_any pf 3 (body_rate s)
  || pd (clock_bias s).

(** [state::has_nan], [state::has_inf], [state::is_real] *)
Definition has_nan (s : state) : bool := state_has is_nan is_nan s.
Definition has_inf (s : state) : bool := state_has is_inf is_inf s.
Definition state_is_real (s : state) : bool :=
  negb (has_nan s) && negb (has_inf s).

(** [pseudorange_ins_qkf::is_real] *)
Definition is_real (f : filter) : bool :=
  negb (mat_any is_nan 12 12 (cov f)
        || mat_any is_inf 12 12 (cov f)
        || mat_any is_nan 4 4 (pt_cov f)
        || mat_any is_inf 4 4 (pt_cov f))
  && state_is_real (avg_state f).

(** [pseudorange_ins_qkf::invariants_met] *)
Definition invariants_met (f : filter) : bool :=
  is_real f
  && ltb (abs (one - one / qnorm (orientation (avg_state f))))
       (f2d (sqrt float_epsilon)).

(** Writes [w 0 .. w (n-1)] at [v.segment<n>(k)]. *)
Definition set_segment (n : nat) (v : Vec F) (k : nat) (w : Vec F) : Vec F :=
  fun i => if (k <=? i) && (i <? k + n) then w (i - k)%nat else v i.

(** [sigma_point_difference(mean, point)]; [ret] starts as the unassigned
    16-vector [ret0]. *)
Definition sigma_point_difference (ret0 : Vec F) (mean point : state)
  : Vec F :=
  let ret := ret0 in
  let ret := set_segment 3 ret 0 (vsub (gyro_bias point) (gyro_bias mean)) in
  let ret :=
    if ltb (dot 4 (coeffs (orientation mean)) (coeffs (orientation point)))
         zero
    then
      let neg_orientation := orientation point in
      let neg_orientation := qscale neg_orientation (of_Z (-1)) in
      set_segment 3 ret 3
        (vcast_d2f (log_d (qmul (qconj (orientation mean)) neg_orientation)))
    else
      set_segment 3 ret 3
        (vcast_d2f
           (log_d (qmul (qconj (orientation mean)) (orientation point)))) in
  let ret :=
    set_segment 3 ret 6 (vcast_d2f (vsub (velocity point) (velocity mean))) in
  let ret :=
    set_segment 3 ret 9 (vsub (accel_bias point) (accel_bias mean)) in
  let ret :=
    set_segment 3 ret 12
      (vcast_d2f (vsub (position point) (position mean))) in
  set_segment 1 ret 15
    (fun _ => d2f (clock_bias point - clock_bias mean)).

(** *** The position leg as the scalar Kalman equations have it *)

(** The specification's form of the position leg, for comparison with
    [pv_report_position]: the row that multiplies the gain is row [i] of
    [pt_cov].  Everything else is as in the source. *)
Definition pv_report_position_kalman (f : filter) (pos : Vec D)
    (p_error : Vec F) : filter :=
  let s := avg_state f in
  let residual := vsub pos (position s) in
  let '(update, p) :=
    for_loop 3
      (fun i '(update, p) =>
         let innovation_cov_inv : F :=
           d2f (one / f2d (p i i + p_error i)) in
         let gain := vscale (col p 0 i) innovation_cov_inv in
         let update' :=
           vadd update (vscale gain (d2f (residual i - f2d (update i)))) in
         let p' := msub p (outer gain (row p i 0)) in
         (update', p'))
      (vzero, pt_cov f) in
  set_avg_state (set_pt_cov f p) (apply_kalman_vec_update4 s update).

(** Symmetry of an [n] x [n] matrix. *)
Definition symmetric (n : nat) (A : Mat F) : Prop :=
  forall i j, (i < n)%nat -> (j < n)%nat -> A i j = A j i.

(** Index test of the strips that [clear_covariance_block] zeroes: the
    3 x 12 row strip and the 12 x 3 column strip at [rowcol]. *)
Definition in_strip (rowcol i j : nat) : bool :=
  in_block 3 12 rowcol 0 i j || in_block 12 3 0 rowcol i j.
End Filter.

Arguments state F D : clear implicits.
Arguments filter F D : clear implicits.

(** ** The remaining diagnostics and the dense form of the propagation *)

Section Diagnostics.
Context {F D : Type} {NF : Num F} {ND : Num D} {CFD : Casts F D}.
Context {EXT : Externals F D}.
Local Open Scope num_scope.

(** Eigen's [A.lu().solve(b)] for an [n] x [n] matrix, a parameter of the
    model. *)
Variable lu_solve : nat -> Mat F -> Vec F -> Vec F.

(** [gyro_bias_error(gyro_bias)] *)
Definition gyro_bias_error (f : filter F D) (bias : Vec F) : F :=
  norm 3 (vsub (gyro_bias (avg_state f)) bias).

(** [accel_bias_error(accel_bias)] *)
Definition accel_bias_error (f : filter F D) (bias : Vec F) : F :=
  norm 3 (vsub (accel_bias (avg_state f)) bias).

(** [mahalanobis_distance(q)]; [ret0] is the unassigned vector that
    [sigma_point_difference] starts from. *)
Definition mahalanobis_distance (ret0 : Vec F) (f : filter F D)
    (q : state F D) : F :=
  let delta := sigma_point_difference ret0 (avg_state f) q in
  let main_err := segment delta 0 in
  let pos_err := segment delta 12 in
  let inv_delta := lu_solve 12 (cov f) (segment delta 0) in
  let inv_delta_end := lu_solve 4 (pt_cov f) (segment delta 12) in
  sqrt (dot 12 main_err inv_delta + dot 4 pos_err inv_delta_end).

(** The matrix [A] of the branch of [predict_ecef] that the preprocessor
    leaves out, filled block row by block row as the comma initialiser
    does. *)
Definition transition_matrix (dtR dtQ : Mat F) : Mat F :=
  let A : Mat F := mzero in
  let A := set_block 3 3 A 0 0 midentity in
  let A := set_block 3 3 A 3 0 dtR in
  let A := set_block 3 3 A 3 3 midentity in
  let A := set_block 3 3 A 6 3 dtQ in
  let A := set_block 3 3 A 6 6 midentity in
  let A := set_block 3 3 A 6 9 dtR in
  set_block 3 3 A 9 9 midentity.

(** [A * cov * A.transpose()], the covariance that branch assigns; on a
    symmetric [cov] the self-adjoint views of the source are the matrices
    themselves. *)
Definition propagate_dense (c dtR dtQ : Mat F) : Mat F :=
  let A := transition_matrix dtR dtQ in
  mmul 12 (mmul 12 A c) (transpose A).

(** Row [j] of [transition_matrix dtR dtQ] times the vector [v], with the
    products by the zero blocks left out. *)
Definition transition_row (dtR dtQ : Mat F) (v : Vec F) (j : nat) : F :=
  if j <? 3 then v j
  else if j <? 6 then
    v 0%nat * dtR (j - 3)%nat 0%nat + v 1%nat * dtR (j - 3)%nat 1%nat
    + v 2%nat * dtR (j - 3)%nat 2%nat + v j
  else if j <? 9 then
    v 3%nat * dtQ (j - 6)%nat 0%nat + v 4%nat * dtQ (j - 6)%nat 1%nat
    + v 5%nat * dtQ (j - 6)%nat 2%nat + v j
    + v 9%nat * dtR (j - 6)%nat 0%nat + v 10%nat * dtR (j - 6)%nat 1%nat
    + v 11%nat * dtR (j - 6)%nat 2%nat
  else v j.

(** The locals [dtR] and [dtQ] of [predict_ecef]. *)
Definition predict_dtR (f : filter F D) (dt : F) : Mat F :=
  mscale_l (- dt)
    (toRotationMatrix (qconj (qcast_d2f (orientation (avg_state f))))).

Definition predict_dtQ (f : filter F D) (accel_meas : Vec F) (dt : F)
  : Mat F :=
  mscale_l (- dt)
    (cross
       (vopp
          (qrot (qconj (qcast_d2f (orientation (avg_state f))))
             (vsub accel_meas (accel_bias (avg_state f)))))).

(** The vector whose norm [obs_gps_pseudorange] divides by, and the local
    [direction] that it forms from it. *)
Definition pseudorange_line_of_sight (f : filter F D) (accum : Vec F)
    (sat_pos : Vec D) : Vec D :=
  vsub (vadd (position (avg_state f)) (vcast_f2d (segment accum 0))) sat_pos.

Definition pseudorange_direction (f : filter F D) (accum : Vec F)
    (sat_pos : Vec D) : Vec F :=
  let directiond := pseudorange_line_of_sight f accum sat_pos in
  let prediction := norm 3 directiond in
  let directiond := vscale directiond (one / prediction) in
  fun i => if i <? 3 then d2f (directiond i) else one.

(** The same for [obs_gps_deltarange]. *)
Definition deltarange_relative_velocity (f : filter F D) (accum : Vec F)
    (sat_vel : Vec D) : Vec D :=
  vsub (vadd (velocity (avg_state f)) (vcast_f2d (segment accum 6))) sat_vel.

Definition deltarange_direction (f : filter F D) (accum : Vec F)
    (sat_vel : Vec D) : Vec F :=
  let directiond := deltarange_relative_velocity f accum sat_vel in
  let prediction := norm 3 directiond in
  let directiond := vscale directiond (one / prediction) in
  vcast_d2f directiond.

(** The locals of [obs_vector]: [v_residual], the vector that [ref] is
    crossed with, and the two columns of [h_trans]. *)
Definition obs_vector_residual (f : filter F D) (ref obs : Vec F) : Vec F :=
  let obs_ref := qrot (qcast_d2f (qconj (orientation (avg_state f)))) obs in
  log_f (setFromTwoVectors ref obs_ref).

Definition obs_vector_axis (f : filter F D) (ref obs : Vec F) : Vec F :=
  let v_residual := obs_vector_residual f ref obs in
  let eps : F := d2f (sqrt (f2d float_epsilon * of_Z 1000)) in
  let unitX : Vec F := vec3 one zero zero in
  let unitY : Vec F := vec3 zero one zero in
  if ltb eps (norm 3 (vsub ref (normalized 3 v_residual)))
  then normalized 3 v_residual
  else if ltb (f2d (abs (dot 3 ref unitX))) (of_Z 707 / of_Z 1000)
       then unitX else unitY.

Definition obs_vector_basis (f : filter F D) (ref obs : Vec F) (i : nat)
  : Vec F :=
  let h0 := normalized 3 (cross3 ref (obs_vector_axis f ref obs)) in
  let h1 := vopp (cross3 ref h0) in
  match i with O => h0 | _ => h1 end.

(** The loop-carried pair [(update, pt_cov)] of the position leg of
    [obs_gps_pv_report] after its first [n] turns. *)
Definition position_leg_turns (f : filter F D) (pos : Vec D) (p_error : Vec F)
    (n : nat) : Vec F * Mat F :=
  let residual := vsub pos (position (avg_state f)) in
  for_loop n
    (fun i '(update, p) =>
       let innovation_cov_inv : F :=
         d2f (one / f2d (p i i + p_error i)) in
       let gain := vscale (col p 0 i) innovation_cov_inv in
       let update' :=
         vadd update (vscale gain (d2f (residual i - f2d (update i)))) in
       let p' := msub p (outer gain (row (cov f) i 0)) in
       (update', p'))
    (vzero, pt_cov f).

(** The four noise vectors that [predict_ecef] adds to the diagonal of
    [cov], each times [dt], as one 12-vector. *)
Definition process_noise (f : filter F D) : Vec F :=
  fun i => if i <? 3 then gyro_stability_noise f i
           else if i <? 6 then gyro_white_noise f (i - 3)%nat
           else if i <? 9 then accel_white_noise f (i - 6)%nat
           else accel_stability_noise f (i - 9)%nat.
End Diagnostics.

(** ** Exact arithmetic: both scalar types are the reals *)

Module Exact.

#[export] Instance R_Num : Num R := {|
  zero := 0%R;
  one := 1%R;
  add := Rplus;
  sub := Rminus;
  mul := Rmult;
  div := Rdiv;
  opp := Ropp;
  sqrt := R_sqrt.sqrt;
  abs := Rabs;
  ltb := fun x y => if Rlt_dec x y then true else false;
  of_Z := IZR;
  is_nan := fun _ => false;
  is_inf := fun _ => false
|}.

#[export] Instance R_Casts : Casts R R := {|
  f2d := fun x => x;
  d2f := fun x => x
|}.

#[export] Instance R_Constants : MathConstants R := {| M_PI := PI |}.

Local Open Scope R_scope.

(** Modelled from the spec: [exp] of [eknav/quaternions.hpp], "the exp map
    takes a rotation vector to a unit quaternion": the rotation by the
    angle [|v|] about [v]. *)
Definition exp_R (v : Vec R) : Quaternion R :=
  let angle := norm 3 v in
  if Req_dec_T angle 0 then qidentity
  else
    let s := sin (angle / 2) / angle in
    mkQuaternion (cos (angle / 2)) (v 0%nat * s) (v 1%nat * s) (v 2%nat * s).

(** Modelled from the spec: [log] of [eknav/quaternions.hpp], the rotation
    vector of a quaternion, the inverse of [exp_R] on unit quaternions
    with positive scalar part. *)
Definition log_R (q : Quaternion R) : Vec R :=
  let n := norm 3 (qvec q) in
  if Req_dec_T n 0 then vzero
  else vscale (qvec q) (2 * atan (n / qw q) / n).

(** Modelled from the spec: [incremental_normalized] of
    [eknav/quaternions.hpp], "divide by current norm". *)
Definition incremental_normalized_R (q : Quaternion R) : Quaternion R :=
  qscale q (1 / qnorm q).

(** Eigen's [setFromTwoVectors] away from opposite vectors. *)
Definition setFromTwoVectors_R (a b : Vec R) : Quaternion R :=
  let v0 := normalized 3 a in
  let v1 := normalized 3 b in
  let c := dot 3 v1 v0 in
  let axis := cross3 v0 v1 in
  let s := R_sqrt.sqrt ((1 + c) * 2) in
  let invs := 1 / s in
  mkQuaternion (s * / 2) (axis 0%nat * invs) (axis 1%nat * invs)
    (axis 2%nat * invs).

Definition real_externals : Externals R R := {|
  exp_f := exp_R;
  log_f := log_R;
  log_d := log_R;
  incremental_normalized := incremental_normalized_R;
  setFromTwoVectors := setFromTwoVectors_R
|}.

(** An object before construction: no process noise, standard gravity. *)
Definition blank : filter R R :=
  mkFilter (mkState vzero vzero qidentity vzero vzero 0 vzero vzero)
    mzero mzero vzero vzero vzero vzero 0 (981 / 100).

(** A constructed filter placed on the x axis at the Earth's radius. *)
Definition on_equator : filter R R :=
  init_position (pseudorange_ins_qkf blank) (vec3 6370000 0 0)
    (vec3 100 100 100).

(** Two states that differ in the sign of the orientation quaternion
    only: (1,0,0,0) and (-1,0,0,0). *)
Definition upright : state R R := avg_state blank.
Definition upright_negated : state R R :=
  set_orientation upright (mkQuaternion (-1) 0 0 0).

(** A 3 x 3 matrix of zeros. *)
Definition zero3 (X : Mat R) : Prop :=
  forall i j, (i < 3)%nat -> (j < 3)%nat -> X i j = 0.

End Exact.

(** ** IEEE 754 arithmetic: [float] is binary32, [double] is binary64 *)

Module IEEE.

Record binary32 : Type := B32 { b32 : spec_float }.
Record binary64 : Type := B64 { b64 : spec_float }.

Definition sf_is_nan (x : spec_float) : bool :=
  match x with S754_nan => true | _ => false end.
Definition sf_is_inf (x : spec_float) : bool :=
  match x with S754_infinity _ => true | _ => false end.
Definition sf_is_zero (x : spec_float) : bool :=
  match x with S754_zero _ => true | _ => false end.

(** Rounding of a value of one format to the format [prec], [emax]
    (to nearest, ties to even). *)
Definition sf_round (prec emax : Z) (x : spec_float) : spec_float :=
  match x with
  | S754_finite s m e => binary_round prec emax s m e
  | _ => x
  end.

Definition sf_of_Z (prec emax : Z) (n : Z) : spec_float :=
  binary_normalize prec emax n 0 false.

#[export] Instance binary32_Num : Num binary32 := {|
  zero := B32 (S754_zero false);
  one := B32 (sf_of_Z 24 128 1);
  add := fun x y => B32 (SFadd 24 128 (b32 x) (b32 y));
  sub := fun x y => B32 (SFsub 24 128 (b32 x) (b32 y));
  mul := fun x y => B32 (SFmul 24 128 (b32 x) (b32 y));
  div := fun x y => B32 (SFdiv 24 128 (b32 x) (b32 y));
  opp := fun x => B32 (SFopp (b32 x));
  sqrt := fun x => B32 (SFsqrt 24 128 (b32 x));
  abs := fun x => B32 (SFabs (b32 x));
  ltb := fun x y => SFltb (b32 x) (b32 y);
  of_Z := fun n => B32 (sf_of_Z 24 128 n);
  is_nan := fun x => sf_is_nan (b32 x);
  is_inf := fun x => sf_is_inf (b32 x)
|}.

#[export] Instance binary64_Num : Num binary64 := {|
  zero := B64 (S754_zero false);
  one := B64 (sf_of_Z 53 1024 1);
  add := fun x y => B64 (SFadd 53 1024 (b64 x) (b64 y));
  sub := fun x y => B64 (SFsub 53 1024 (b64 x) (b64 y));
  mul := fun x y => B64 (SFmul 53 1024 (b64 x) (b64 y));
  div := fun x y => B64 (SFdiv 53 1024 (b64 x) (b64 y));
  opp := fun x => B64 (SFopp (b64 x));
  sqrt := fun x => B64 (SFsqrt 53 1024 (b64 x));
  abs := fun x => B64 (SFabs (b64 x));
  ltb := fun x y => SFltb (b64 x) (b64 y);
  of_Z := fun n => B64 (sf_of_Z 53 1024 n);
  is_nan := fun x => sf_is_nan (b64 x);
  is_inf := fun x => sf_is_inf (b64 x)
|}.

#[export] Instance binary_Casts : Casts binary32 binary64 := {|
  f2d := fun x => B64 (sf_round 53 1024 (b32 x));
  d2f := fun x => B32 (sf_round 24 128 (b64 x))
|}.

(** The double nearest to pi, 0x400921FB54442D18. *)
#[export] Instance binary64_Constants : MathConstants binary64 :=
  {| M_PI := B64 (S754_finite false 7074237752028440 (-51)) |}.

Local Open Scope num_scope.

(** Stand-ins for the helpers of [eknav/quaternions.hpp], for running the
    filter on concrete inputs: [sin] and [cos] of the C library are not
    part of [SpecFloat], so the exponential and the logarithm are the
    first-order ones, [exp v = (1, v/2) / |(1, v/2)|] and
    [log q = 2 vec(q) / w(q)]. *)
Definition exp_small (v : Vec binary32) : Quaternion binary32 :=
  let q :=
    mkQuaternion one (v 0%nat / of_Z 2) (v 1%nat / of_Z 2) (v 2%nat / of_Z 2)
  in qscale q (one / qnorm q).

Definition log_small {T : Type} {NT : Num T} (q : Quaternion T) : Vec T :=
  vscale (qvec q) (of_Z 2 / qw q).

Definition small_angle_externals : Externals binary32 binary64 := {|
  exp_f := exp_small;
  log_f := log_small;
  log_d := log_small;
  incremental_normalized := fun q => qscale q (one / qnorm q);
  setFromTwoVectors := fun _ _ => qidentity
|}.

(** An object before construction: every unassigned member is zero, the
    gravity magnitude is 9.81. *)
Definition blank : filter binary32 binary64 :=
  mkFilter (mkState vzero vzero qidentity vzero vzero zero vzero vzero)
    mzero mzero vzero vzero vzero vzero zero
    (d2f (of_Z 981 / of_Z 100)).

Section Examples.
Context {EXT : Externals binary32 binary64}.

(** The default-constructed filter. *)
Definition fresh : filter binary32 binary64 := pseudorange_ins_qkf blank.

(** A constructed filter placed on the x axis at the Earth's radius,
    with 100 m^2 of position variance per axis. *)
Definition on_equator : filter binary32 binary64 :=
  init_position fresh (vec3 (of_Z 6370000) zero zero)
    (vec3 (of_Z 100) (of_Z 100) (of_Z 100)).

(** ... after 10 ms at rest. *)
Definition coasted : filter binary32 binary64 :=
  predict_ecef on_equator vzero vzero (d2f (one / of_Z 100)).

(** ... and after a position and velocity report with unit variances. *)
Definition reported : filter binary32 binary64 :=
  obs_gps_pv_report coasted (vec3 (of_Z 6370001) zero zero) vzero
    (vec3 one one one) (vec3 one one one).

(** A position report with unit variances applied to [on_equator], by
    the source's position leg and by the Kalman form. *)
Definition equator_reported : filter binary32 binary64 :=
  pv_report_position on_equator (vec3 (of_Z 6370001) zero zero)
    (vec3 one one one).
Definition equator_reported_kalman : filter binary32 binary64 :=
  pv_report_position_kalman on_equator (vec3 (of_Z 6370001) zero zero)
    (vec3 one one one).

(** An orientation 0.5 % longer than a unit quaternion, installed with
    [init_attitude]. *)
Definition stretched : filter binary32 binary64 :=
  init_attitude fresh
    (mkQuaternion (of_Z 1005 / of_Z 1000) zero zero zero) midentity.

(** The default-constructed filter predicted with the inputs equal to
    its biases and a zero time step. *)
Definition fresh_predicted : filter binary32 binary64 :=
  predict_ecef fresh (gyro_bias (avg_state fresh))
    (accel_bias (avg_state fresh)) zero.

(** A constructed filter placed at x = 10^39 m, a double that no float
    holds, and the same prediction of it. *)
Definition far_out : filter binary32 binary64 :=
  init_position fresh (vec3 (of_Z (10 ^ 39)) zero zero)
    (vec3 (of_Z 100) (of_Z 100) (of_Z 100)).

Definition far_out_predicted : filter binary32 binary64 :=
  predict_ecef far_out (gyro_bias (avg_state far_out))
    (accel_bias (avg_state far_out)) zero.
End Examples.

(** Structural equality and exact symmetry tests on binary32 matrices. *)
Definition sf_same (x y : spec_float) : bool :=
  match x, y with
  | S754_zero a, S754_zero b => Bool.eqb a b
  | S754_infinity a, S754_infinity b => Bool.eqb a b
  | S754_nan, S754_nan => true
  | S754_finite a m e, S754_finite b n k =>
      Bool.eqb a b && Pos.eqb m n && Z.eqb e k
  | _, _ => false
  end.

Definition symmetricb (n : nat) (A : Mat binary32) : bool :=
  forallb (fun i => forallb (fun j => sf_same (b32 (A i j)) (b32 (A j i)))
                      (seq 0 n)) (seq 0 n).

End IEEE.

(** ** Quadratic forms over the reals *)

Module Quadratic.
Import Exact.
Local Open Scope R_scope.

(** [x' P y] for [n]-vectors *)
Definition quad (n : nat) (P : Mat R) (x y : Vec R) : R :=
  sum_n n (fun i => x i * sum_n n (fun j => P i j * y j)).

(** Positive semidefiniteness of the leading [n] x [n] part. *)
Definition psd (n : nat) (P : Mat R) : Prop := forall x, 0 <= quad n P x x.

(** The [m]-vector [d] placed at offset [k] of a longer vector of zeros. *)
Definition embed (k m : nat) (d : Vec R) : Vec R :=
  fun i => if (k <=? i) && (i <? k + m) then d (i - k)%nat else 0.

(** The [k]-th unit vector. *)
Definition unit_vec (k : nat) : Vec R := fun i => if i =? k then 1 else 0.

(** The scalar Kalman covariance update for an observation along [h] with
    measurement variance [r]: [P - P h h' P / (h' P h + r)]. *)
Definition kalman_update (n : nat) (P : Mat R) (h : Vec R) (r : R) : Mat R :=
  fun i j => P i j - mvmul n P h i * vmmul n h P j / (quad n P h h + r).

(** Equality of two matrices on their leading [n] x [n] part. *)
Definition same_on (n : nat) (A B : Mat R) : Prop :=
  forall i j, (i < n)%nat -> (j < n)%nat -> A i j = B i j.

(** What a measurement update may do to a covariance [P0]: the result is
    symmetric and positive semidefinite, and no variance on its diagonal
    is above the one it had in [P0]. *)
Definition improves (n : nat) (P0 P : Mat R) : Prop :=
  symmetric n P /\ psd n P /\ forall i, (i < n)%nat -> P i i <= P0 i i.

End Quadratic.

(** * Properties *)

(** Case analysis on every index comparison of the goal, dropping the
    impossible cases as they appear. *)
Ltac index_split :=
  repeat match goal with
    | |- context [?a <=? ?b] =>
        destruct (Nat.leb_spec a b); try (exfalso; lia)
    | |- context [?a <? ?b] =>
        destruct (Nat.ltb_spec a b); try (exfalso; lia)
    | |- context [?a =? ?b] =>
        destruct (Nat.eqb_spec a b); try (exfalso; lia)
    end.

Ltac index_cases := index_split; simpl; try reflexivity; try lia.

(** Turns a true [in_block] test into its four inequalities. *)
Ltac in_block_inv E :=
  unfold in_block in E;
  let Hi1 := fresh "Hi1" in
  let Hi2 := fresh "Hi2" in
  let Hj1 := fresh "Hj1" in
  let Hj2 := fresh "Hj2" in
  apply andb_true_iff in E; destruct E as [E Hj2];
  apply andb_true_iff in E; destruct E as [E Hj1];
  apply andb_true_iff in E; destruct E as [Hi1 Hi2];
  apply Nat.leb_le in Hi1, Hj1; apply Nat.ltb_lt in Hi2, Hj2.

(** ** Facts that hold in every arithmetic *)

Section FilterFacts.
Context {F D : Type} {NF : Num F} {ND : Num D} {CFD : Casts F D}.
Context {MC : MathConstants D} {EXT : Externals F D}.
Local Open Scope num_scope.

(** *** [clear_covariance_block] and the [init_*] calls *)

Lemma clear_inertial_block (f : filter F D) (rowcol : nat) (repl : Mat F) :
  (rowcol <= 9)%nat ->
  forall i j,
    cov (clear_covariance_block f rowcol repl) i j =
    if in_block 3 3 rowcol rowcol i j
    then repl (i - rowcol)%nat (j - rowcol)%nat
    else if in_strip rowcol i j then zero
    else cov f i j.
Proof.
  intros H i j. unfold clear_covariance_block.
  destruct (Nat.leb_spec rowcol 9); [| lia].
  unfold set_cov, set_block, in_strip, in_block, mzero; simpl.
  index_cases.
Qed.

Lemma clear_inertial_frame (f : filter F D) (rowcol : nat) (repl : Mat F) :
  (rowcol <= 9)%nat ->
  pt_cov (clear_covariance_block f rowcol repl) = pt_cov f /\
  avg_state (clear_covariance_block f rowcol repl) = avg_state f.
Proof.
  intros H. unfold clear_covariance_block.
  destruct (Nat.leb_spec rowcol 9); [| lia]. split; reflexivity.
Qed.

Lemma clear_position_block (f : filter F D) (repl : Mat F) :
  forall i j,
    pt_cov (clear_covariance_block f 12 repl) i j =
    if in_block 3 3 0 0 i j then repl i j
    else if (i =? 3) && (j =? 3) then of_Z 300 * of_Z 300
    else zero.
Proof.
  intros i j. unfold clear_covariance_block; simpl.
  unfold set_entry, set_block, in_block, mzero.
  index_cases; rewrite ?Nat.sub_0_r; reflexivity.
Qed.

(** C6. [clear_covariance_block] at an inertial offset zeroes the row and
    column strips of [cov], writes the replacement on the diagonal block
    and touches nothing else; at the position sentinel 12 it resets
    [pt_cov] to the replacement and the clock variance 300^2 and leaves
    [cov] alone.  Hence each [init_*] stores the given mean, makes the
    chosen block equal to the supplied error and zeroes its
    cross-covariances. *)
Theorem clear_covariance_block_init (f : filter F D) (repl : Mat F)
    (attitude : Quaternion D) (attitude_error : Mat F)
    (vel pos : Vec D) (vel_error pos_error : Vec F) :
  Forall
    (fun rowcol =>
       let f' := clear_covariance_block f rowcol repl in
       (forall i j,
           cov f' i j =
           if in_block 3 3 rowcol rowcol i j
           then repl (i - rowcol)%nat (j - rowcol)%nat
           else if in_strip rowcol i j then zero else cov f i j)
       /\ pt_cov f' = pt_cov f /\ avg_state f' = avg_state f)
    [0; 3; 6; 9]%nat
  /\ (let f' := clear_covariance_block f 12 repl in
      (forall i j,
          pt_cov f' i j =
          if in_block 3 3 0 0 i j then repl i j
          else if (i =? 3) && (j =? 3) then of_Z 300 * of_Z 300
          else zero)
      /\ cov f' = cov f /\ avg_state f' = avg_state f)
  /\ (let f' := init_attitude f attitude attitude_error in
      orientation (avg_state f') = attitude
      /\ (forall i j, (i < 3)%nat -> (j < 3)%nat ->
                      cov f' (3 + i)%nat (3 + j)%nat = attitude_error i j)
      /\ (forall i j, (i < 3)%nat -> (j < 12)%nat -> ~ (3 <= j < 6)%nat ->
                      cov f' (3 + i)%nat j = zero
                      /\ cov f' j (3 + i)%nat = zero))
  /\ (let f' := init_velocity f vel vel_error in
      velocity (avg_state f') = vel
      /\ (forall i j, (i < 3)%nat -> (j < 3)%nat ->
                      cov f' (6 + i)%nat (6 + j)%nat =
                      if i =? j then vel_error i else zero)
      /\ (forall i j, (i < 3)%nat -> (j < 12)%nat -> ~ (6 <= j < 9)%nat ->
                      cov f' (6 + i)%nat j = zero
                      /\ cov f' j (6 + i)%nat = zero))
  /\ (let f' := init_position f pos pos_error in
      position (avg_state f') = pos
      /\ (forall i j, (i < 3)%nat -> (j < 3)%nat ->
                      pt_cov f' i j = if i =? j then pos_error i else zero)
      /\ (forall i, (i < 3)%nat ->
                    pt_cov f' i 3%nat = zero /\ pt_cov f' 3%nat i = zero)
      /\ pt_cov f' 3%nat 3%nat = of_Z 300 * of_Z 300).
Proof.
  split.
  { repeat constructor; cbv zeta;
      try (intros i j; apply clear_inertial_block; lia);
      apply clear_inertial_frame; lia. }
  split.
  { cbv zeta. split; [apply clear_position_block | split; reflexivity]. }
  split; [| split].
  - cbv zeta. unfold init_attitude. split; [reflexivity |].
    split; intros i j Hi Hj; [| intros Hn; split];
      rewrite clear_inertial_block by lia;
      unfold in_strip, in_block; index_cases;
      f_equal; lia.
  - cbv zeta. unfold init_velocity. split; [reflexivity |].
    split; intros i j Hi Hj; [| intros Hn; split];
      rewrite clear_inertial_block by lia;
      unfold in_strip, in_block, asDiagonal; index_cases;
      f_equal; lia.
  - cbv zeta. unfold init_position. split; [reflexivity |].
    split; [| split]; try intros i j Hi Hj; try intros i Hi; try split;
      rewrite clear_position_block;
      unfold in_block, asDiagonal; index_cases.
Qed.

(** *** The scalar GNSS updates *)

(** C7. [obs_gps_pseudorange] changes the accumulator and [pt_cov] only,
    [obs_gps_deltarange] the accumulator and [cov] only: the mean, the
    other covariance and every other member come back as they were, so
    neither applies its correction to the mean. *)
Theorem scalar_updates_frame (f : filter F D) (accum : Vec F)
    (sat : Vec D) (range : D) (error : F) :
  (let f' := fst (obs_gps_pseudorange f accum sat range error) in
   avg_state f' = avg_state f /\ cov f' = cov f
   /\ f' = set_pt_cov f (pt_cov f'))
  /\ (let f' := fst (obs_gps_deltarange f accum sat range error) in
      avg_state f' = avg_state f /\ pt_cov f' = pt_cov f
      /\ f' = set_cov f (cov f')).
Proof.
  split; cbv zeta; unfold obs_gps_pseudorange, obs_gps_deltarange; simpl;
    repeat split.
Qed.

(** *** The invariant check *)

Lemma existsb_seq_false (p : nat -> bool) (n : nat) :
  existsb p (seq 0 n) = false <-> forall i, (i < n)%nat -> p i = false.
Proof.
  split.
  - intros H i Hi. destruct (p i) eqn:E; [| reflexivity].
    assert (T : existsb p (seq 0 n) = true).
    { apply existsb_exists. exists i. split; [apply in_seq; lia | exact E]. }
    congruence.
  - intros H. destruct (existsb p (seq 0 n)) eqn:E; [| reflexivity].
    apply existsb_exists in E. destruct E as (i & Hi & Hp).
    apply in_seq in Hi. rewrite H in Hp by lia. discriminate.
Qed.

Lemma vec_any_false {T : Type} (p : T -> bool) (n : nat) (v : Vec T) :
  vec_any p n v = false <-> forall i, (i < n)%nat -> p (v i) = false.
Proof. unfold vec_any. apply existsb_seq_false. Qed.

Lemma mat_any_false {T : Type} (p : T -> bool) (n m : nat) (A : Mat T) :
  mat_any p n m A = false <->
  forall i j, (i < n)%nat -> (j < m)%nat -> p (A i j) = false.
Proof.
  unfold mat_any. rewrite existsb_seq_false. split.
  - intros H i j Hi Hj. specialize (H i Hi).
    rewrite existsb_seq_false in H. auto.
  - intros H i Hi. apply existsb_seq_false. auto.
Qed.

(** A vector, a matrix free of NaN and of infinities. *)
Lemma vec_finite {T : Type} {NT : Num T} (n : nat) (v : Vec T) :
  vec_any is_nan n v = false /\ vec_any is_inf n v = false <->
  forall i, (i < n)%nat -> is_finite (v i).
Proof.
  rewrite !vec_any_false. unfold is_finite. split.
  - intros [A B] i Hi. auto.
  - intros H. split; intros i Hi; apply H; assumption.
Qed.

Lemma mat_finite {T : Type} {NT : Num T} (n m : nat) (A : Mat T) :
  mat_any is_nan n m A = false /\ mat_any is_inf n m A = false <->
  forall i j, (i < n)%nat -> (j < m)%nat -> is_finite (A i j).
Proof.
  rewrite !mat_any_false. unfold is_finite. split.
  - intros [H1 H2] i j Hi Hj. auto.
  - intros H. split; intros i j Hi Hj; apply H; assumption.
Qed.

Lemma state_is_real_iff (s : state F D) :
  state_is_real s = true <->
  (forall i, (i < 3)%nat ->
     is_finite (gyro_bias s i) /\ is_finite (accel_bias s i)
     /\ is_finite (inertial_accel s i) /\ is_finite (body_rate s i)
     /\ is_finite (position s i) /\ is_finite (velocity s i))
  /\ (forall i, (i < 4)%nat -> is_finite (coeffs (orientation s) i))
  /\ is_finite (clock_bias s).
Proof.
  unfold state_is_real, has_nan, has_inf, state_has.
  rewrite andb_true_iff, !negb_true_iff, !orb_false_iff.
  pose proof (vec_finite 3 (gyro_bias s)) as G.
  pose proof (vec_finite 3 (accel_bias s)) as A.
  pose proof (vec_finite 3 (inertial_accel s)) as I.
  pose proof (vec_finite 3 (body_rate s)) as B.
  pose proof (vec_finite 3 (position s)) as P.
  pose proof (vec_finite 3 (velocity s)) as V.
  pose proof (vec_finite 4 (coeffs (orientation s))) as O.
  unfold is_finite at 7.
  split.
  - intros ((((((((g1 & o1) & p1) & v1) & a1) & i1) & b1) & c1)
            & (((((((g2 & o2) & p2) & v2) & a2) & i2) & b2) & c2)).
    split; [| split; [| split; assumption]].
    + intros i Hi.
      repeat split;
        first [ apply (proj1 G (conj g1 g2)) | apply (proj1 A (conj a1 a2))
              | apply (proj1 I (conj i1 i2)) | apply (proj1 B (conj b1 b2))
              | apply (proj1 P (conj p1 p2)) | apply (proj1 V (conj v1 v2)) ];
        assumption.
    + apply (proj1 O (conj o1 o2)).
  - intros (H3 & H4 & Hc1 & Hc2).
    destruct (proj2 G (fun i Hi => proj1 (H3 i Hi))) as [g1 g2].
    destruct (proj2 A (fun i Hi => proj1 (proj2 (H3 i Hi)))) as [a1 a2].
    destruct (proj2 I (fun i Hi => proj1 (proj2 (proj2 (H3 i Hi)))))
      as [i1 i2].
    destruct (proj2 B (fun i Hi => proj1 (proj2 (proj2 (proj2 (H3 i Hi))))))
      as [b1 b2].
    destruct (proj2 P
                (fun i Hi => proj1 (proj2 (proj2 (proj2 (proj2 (H3 i Hi)))))))
      as [p1 p2].
    destruct (proj2 V
                (fun i Hi => proj2 (proj2 (proj2 (proj2 (proj2 (H3 i Hi)))))))
      as [v1 v2].
    destruct (proj2 O H4) as [o1 o2].
    repeat split; assumption.
Qed.

Lemma is_real_iff (f : filter F D) :
  is_real f = true <->
  (forall i j, (i < 12)%nat -> (j < 12)%nat -> is_finite (cov f i j))
  /\ (forall i j, (i < 4)%nat -> (j < 4)%nat -> is_finite (pt_cov f i j))
  /\ state_is_real (avg_state f) = true.
Proof.
  unfold is_real.
  rewrite andb_true_iff, negb_true_iff, !orb_false_iff.
  rewrite <- (mat_finite 12 12 (cov f)), <- (mat_finite 4 4 (pt_cov f)).
  tauto.
Qed.

(** C3 (as amended). [invariants_met] holds exactly when no entry of
    [cov], of [pt_cov] or of the mean (the two cached vectors included) is
    NaN or infinite and [|1 - 1/norm(orientation)|] is strictly below the
    square root of the single-precision machine epsilon. *)
Theorem invariants_met_iff (f : filter F D) :
  let s := avg_state f in
  invariants_met f = true <->
  (forall i j, (i < 12)%nat -> (j < 12)%nat -> is_finite (cov f i j))
  /\ (forall i j, (i < 4)%nat -> (j < 4)%nat -> is_finite (pt_cov f i j))
  /\ (forall i, (i < 3)%nat ->
        is_finite (gyro_bias s i) /\ is_finite (accel_bias s i)
        /\ is_finite (inertial_accel s i) /\ is_finite (body_rate s i)
        /\ is_finite (position s i) /\ is_finite (velocity s i))
  /\ (forall i, (i < 4)%nat -> is_finite (coeffs (orientation s) i))
  /\ is_finite (clock_bias s)
  /\ ltb (abs (one - one / qnorm (orientation s))) (f2d (sqrt float_epsilon))
     = true.
Proof.
  cbv zeta. unfold invariants_met.
  rewrite andb_true_iff, is_real_iff, state_is_real_iff. tauto.
Qed.

(** *** Prediction *)

(** The mean after [predict_ecef], field by field, with the casts the
    source performs. *)
Lemma predict_ecef_mean (f : filter F D) (gyro_meas accel_meas : Vec F)
    (dt : F) :
  let s := avg_state f in
  let s' := avg_state (predict_ecef f gyro_meas accel_meas dt) in
  let omega := vsub gyro_meas (gyro_bias s) in
  let a :=
    vsub (qrot (qconj (qcast_d2f (orientation s)))
            (vsub accel_meas (accel_bias s)))
      (vscale (normalized 3 (vcast_d2f (position s)))
         (accel_gravity_norm f)) in
  body_rate s' = omega
  /\ inertial_accel s' = a
  /\ orientation s' =
     qmul (qcast_f2d (exp_f (vscale omega dt))) (orientation s)
  /\ position s' =
     vadd (vadd (position s) (vscale (velocity s) (f2d dt)))
       (vscale (vscale (vscale_l (one / of_Z 2) (vcast_f2d a)) (f2d dt))
          (f2d dt))
  /\ velocity s' = vadd (velocity s) (vscale (vcast_f2d a) (f2d dt))
  /\ gyro_bias s' = gyro_bias s
  /\ accel_bias s' = accel_bias s
  /\ clock_bias s' = clock_bias s.
Proof. repeat split. Qed.

Lemma mirror_block_spec (c : Mat F) (row col i j : nat) :
  mirror_block c (row, col) i j =
  if in_block 3 3 row col i j then c j i else c i j.
Proof.
  unfold mirror_block, set_block, transpose, block.
  destruct (in_block 3 3 row col i j) eqn:E; [| reflexivity].
  in_block_inv E. f_equal; lia.
Qed.

(** The symmetrisation loop copies the transposed upper blocks over the
    six lower blocks and leaves every other entry alone. *)
Lemma symmetrize_spec (c : Mat F) (i j : nat) :
  symmetrize c i j = if lower_block i j then c j i else c i j.
Proof.
  unfold symmetrize, for_loop, lower_block, block_addr;
    cbn [seq fold_left nth existsb fst snd].
  rewrite !mirror_block_spec. unfold in_block.
  index_split; cbn [andb orb]; reflexivity.
Qed.

Lemma lower_block_irrefl (i j : nat) :
  lower_block i j = true -> i <> j /\ lower_block j i = false.
Proof.
  unfold lower_block, block_addr, in_block; cbn [existsb fst snd].
  index_split; cbn [andb orb]; intros; try discriminate; split;
    try reflexivity; lia.
Qed.

(** After [predict_ecef] each of the six lower blocks is exactly the
    transpose of its mirror block, whatever the state was. *)
Lemma predict_ecef_mirrored (f : filter F D) (gyro_meas accel_meas : Vec F)
    (dt : F) (i j : nat) :
  lower_block i j = true ->
  cov (predict_ecef f gyro_meas accel_meas dt) i j =
  cov (predict_ecef f gyro_meas accel_meas dt) j i.
Proof.
  intros H. destruct (lower_block_irrefl _ _ H) as [Hne Hji].
  unfold predict_ecef; cbn [cov]. unfold propagate_cov; cbv zeta.
  unfold add_diagonal.
  destruct (Nat.eqb_spec i j); [contradiction |].
  destruct (Nat.eqb_spec j i); [congruence |].
  cbn [andb]. rewrite !symmetrize_spec, H, Hji. reflexivity.
Qed.
End FilterFacts.

(** ** Facts of exact arithmetic *)

Module ExactFacts.
Import Exact.
Local Open Scope R_scope.

(** Unfolds the scalar interface to the operations of [R]. *)
Ltac to_R :=
  cbv beta iota delta
    [zero one add sub mul div opp abs of_Z is_nan is_inf f2d d2f M_PI
     R_Num R_Casts R_Constants] in *.

(** *** The default constructor *)

Lemma constructor_cov (mem : filter R R) (i j : nat) :
  cov (pseudorange_ins_qkf mem) i j =
  if negb (i =? j) then 0
  else if i <? 3 then (3 * PI / 180) * (3 * PI / 180)
  else if i <? 6 then PI * PI / 2
  else if i <? 9 then 100
  else if i <? 12 then (3 / 10) * (3 / 10)
  else 0.
Proof.
  unfold pseudorange_ins_qkf; cbn [cov].
  unfold set_block, in_block, mscale, midentity, mzero. to_R.
  index_split; cbn [negb andb]; lra.
Qed.

Lemma constructor_pt_cov (mem : filter R R) (i j : nat) :
  pt_cov (pseudorange_ins_qkf mem) i j =
  if negb (i =? j) then 0
  else if i <? 3 then 100000 * 100000
  else if i =? 3 then 300 * 300
  else 0.
Proof.
  unfold pseudorange_ins_qkf; cbn [pt_cov].
  unfold set_entry, set_block, in_block, mscale, midentity, mzero. to_R.
  index_split; cbn [negb andb]; lra.
Qed.

(** C10. The default constructor: mean at the origin with identity
    attitude, zero velocity, biases and clock bias; [cov] diagonal with
    (3 pi / 180)^2 on the gyro-bias block, pi^2 / 2 on the attitude block,
    100 on the velocity block and 0.3^2 on the accelerometer-bias block;
    [pt_cov] diagonal with (100e3)^2 on the position block and 300^2 for
    the clock; every off-diagonal entry of both matrices zero. *)
Theorem constructor_defaults (mem : filter R R) :
  let f := pseudorange_ins_qkf mem in
  let s := avg_state f in
  (forall i, position s i = 0)
  /\ orientation s = mkQuaternion 1 0 0 0
  /\ (forall i, velocity s i = 0)
  /\ (forall i, gyro_bias s i = 0)
  /\ (forall i, accel_bias s i = 0)
  /\ clock_bias s = 0
  /\ (forall i j,
         cov f i j =
         if negb (i =? j) then 0
         else if i <? 3 then (3 * PI / 180) * (3 * PI / 180)
         else if i <? 6 then PI * PI / 2
         else if i <? 9 then 100
         else if i <? 12 then (3 / 10) * (3 / 10)
         else 0)
  /\ (forall i j,
         pt_cov f i j =
         if negb (i =? j) then 0
         else if i <? 3 then 100000 * 100000
         else if i =? 3 then 300 * 300
         else 0).
Proof.
  cbv zeta. repeat split; try reflexivity; intros i j.
  - apply constructor_cov.
  - apply constructor_pt_cov.
Qed.

Lemma on_equator_symmetric : symmetric 12 (cov on_equator).
Proof.
  intros i j _ _. unfold on_equator, init_position.
  change (cov (clear_covariance_block ?f 12 ?r)) with (cov f).
  cbn [cov set_avg_state]. rewrite !constructor_cov.
  rewrite (Nat.eqb_sym j i).
  destruct (Nat.eqb_spec i j); [subst |]; reflexivity.
Qed.

Lemma on_equator_position : norm 3 (position (avg_state on_equator)) <> 0.
Proof.
  change (norm 3 (position (avg_state on_equator)))
    with (R_sqrt.sqrt (6370000 * 6370000 + 0 * 0 + 0 * 0)).
  apply Rgt_not_eq, sqrt_lt_R0. lra.
Qed.

(** *** The mean after a prediction *)

Lemma qcast_f2d_id (q : Quaternion R) : qcast_f2d q = q.
Proof. destruct q; reflexivity. Qed.

(** Rotating by the conjugate is multiplying by the transposed rotation
    matrix; no unit-norm assumption is needed. *)
Lemma qrot_conj_transpose (q : Quaternion R) (v : Vec R) (i : nat) :
  (i < 3)%nat ->
  qrot (qconj q) v i = mvmul 3 (transpose (toRotationMatrix q)) v i.
Proof.
  intros Hi. destruct q as [w x y z].
  destruct i as [| [| [| i]]]; [| | | lia];
    unfold qrot, qconj, mvmul, transpose, toRotationMatrix, cross3, qvec,
      vadd, vscale_l, vec3, sum_n; cbn [qw qx qy qz]; to_R; ring.
Qed.

Section Prediction.
Context {EXT : Externals R R}.

(** C4. The mean after [predict_ecef], on a state with nonzero position:
    body rate [omega = gyro_meas - gyro_bias]; inertial acceleration
    [a = R_bi^T (accel_meas - accel_bias)
         - position / |position| * accel_gravity_norm];
    orientation [exp (omega dt) * orientation]; position
    [position + velocity dt + a dt^2 / 2] from the old position and
    velocity; velocity [velocity + a dt]. *)
Theorem predict_ecef_mean_update (f : filter R R)
    (gyro_meas accel_meas : Vec R) (dt : R) :
  let s := avg_state f in
  let s' := avg_state (predict_ecef f gyro_meas accel_meas dt) in
  let omega := vsub gyro_meas (gyro_bias s) in
  let R_bi := toRotationMatrix (orientation s) in
  let a := fun i =>
    mvmul 3 (transpose R_bi) (vsub accel_meas (accel_bias s)) i
    - position s i / norm 3 (position s) * accel_gravity_norm f in
  norm 3 (position s) <> 0 ->
  (forall i, body_rate s' i = gyro_meas i - gyro_bias s i)
  /\ (forall i, (i < 3)%nat -> inertial_accel s' i = a i)
  /\ orientation s' = qmul (exp_f (vscale omega dt)) (orientation s)
  /\ (forall i, (i < 3)%nat ->
         position s' i =
         position s i + velocity s i * dt + / 2 * a i * dt * dt)
  /\ (forall i, (i < 3)%nat ->
         velocity s' i = velocity s i + a i * dt).
Proof.
  intros s s' omega R_bi a Hpos.
  destruct (predict_ecef_mean f gyro_meas accel_meas dt)
    as (Hrate & Hacc & Hori & Hp & Hv & _).
  fold s s' in Hrate, Hacc, Hori, Hp, Hv. cbv zeta in *.
  assert (Ha : forall i, (i < 3)%nat -> inertial_accel s' i = a i).
  { intros i Hi. rewrite Hacc. unfold a, R_bi, vsub at 1.
    rewrite <- qrot_conj_transpose by assumption.
    destruct (orientation s); reflexivity. }
  split; [intros i; rewrite Hrate; reflexivity |].
  split; [exact Ha |].
  split; [rewrite Hori, qcast_f2d_id; reflexivity |].
  rewrite <- Hacc in Hp, Hv.
  split; intros i Hi.
  - rewrite Hp. unfold vadd, vscale, vscale_l, vcast_f2d.
    rewrite (Ha i Hi). to_R. lra.
  - rewrite Hv. unfold vadd, vscale, vcast_f2d.
    rewrite (Ha i Hi). reflexivity.
Qed.
End Prediction.

Lemma predict_ecef_mean_update_witness :
  norm 3 (position (avg_state on_equator)) <> 0
  /\ forall i,
       body_rate
         (avg_state
            (predict_ecef (EXT := real_externals) on_equator vzero vzero
               (1 / 100))) i
       = vzero i - gyro_bias (avg_state on_equator) i.
Proof.
  split; [exact on_equator_position |].
  exact (proj1 (@predict_ecef_mean_update real_externals on_equator vzero
                  vzero (1 / 100) on_equator_position)).
Defined.

(** *** Prediction with a zero time step *)

Lemma mmul_zero_l (A B : Mat R) : zero3 A -> zero3 (mmul 3 A B).
Proof.
  intros H i j Hi Hj. unfold mmul, sum_n. to_R.
  rewrite !H by lia. ring.
Qed.

Lemma mmul_zero_r (A B : Mat R) : zero3 B -> zero3 (mmul 3 A B).
Proof.
  intros H i j Hi Hj. unfold mmul, sum_n. to_R.
  rewrite !H by lia. ring.
Qed.

Lemma transpose_zero (A : Mat R) : zero3 A -> zero3 (transpose A).
Proof. intros H i j Hi Hj. unfold transpose. auto. Qed.

Lemma madd_zero (A B : Mat R) : zero3 A -> zero3 B -> zero3 (madd A B).
Proof.
  intros HA HB i j Hi Hj. unfold madd. to_R. rewrite HA, HB by lia. ring.
Qed.

Lemma mscale_l_zero (A : Mat R) : zero3 (mscale_l (- 0) A).
Proof. intros i j _ _. unfold mscale_l. to_R. ring. Qed.

Create HintDb zero3.
#[local] Hint Resolve mmul_zero_l mmul_zero_r transpose_zero madd_zero
  mscale_l_zero : zero3.

Lemma add_block_zero (dst : Mat R) (r c : nat) (X : Mat R) (i j : nat) :
  zero3 X -> add_block dst r c X i j = dst i j.
Proof.
  intros H. unfold add_block, set_block, madd, block.
  destruct (in_block 3 3 r c i j) eqn:E; [| reflexivity].
  in_block_inv E. rewrite H by lia. to_R.
  replace (r + (i - r))%nat with i by lia.
  replace (c + (j - c))%nat with j by lia. ring.
Qed.

Lemma sgemm_zero dst r c mult src sr sc (i j : nat) :
  zero3 mult -> sgemm dst r c mult src sr sc i j = dst i j.
Proof. intros H. apply add_block_zero. auto with zero3. Qed.

Lemma sgemmm_zero dst r c mult src sr sc (i j : nat) :
  zero3 mult -> sgemmm dst r c mult src sr sc i j = dst i j.
Proof. intros H. apply add_block_zero. auto with zero3. Qed.

Lemma ssyr2k_zero dst r c mult src sr sc (i j : nat) :
  zero3 mult -> ssyr2k dst r c mult src sr sc i j = dst i j.
Proof. intros H. apply add_block_zero. auto with zero3. Qed.

(** With zero multipliers the propagation only symmetrises. *)
Lemma propagate_cov_zero (c dtR dtQ : Mat R) (i j : nat) :
  zero3 dtR -> zero3 dtQ ->
  propagate_cov c dtR dtQ i j = symmetrize c i j.
Proof.
  intros HR HQ. unfold propagate_cov; cbv zeta.
  rewrite !symmetrize_spec. unfold sgemmm_diag.
  destruct (lower_block i j);
    repeat first
      [ rewrite sgemm_zero by assumption
      | rewrite sgemmm_zero by assumption
      | rewrite ssyr2k_zero by assumption
      | rewrite add_block_zero by auto 6 with zero3 ];
    reflexivity.
Qed.

Lemma symmetrize_symmetric (c : Mat R) (i j : nat) :
  symmetric 12 c -> (i < 12)%nat -> (j < 12)%nat -> symmetrize c i j = c i j.
Proof.
  intros H Hi Hj. rewrite symmetrize_spec.
  destruct (lower_block i j); [apply H; assumption | reflexivity].
Qed.

Section ZeroStep.
Context {EXT : Externals R R}.

(** Where the gravity direction [position / |position|] is defined the
    zero step does what is intended: in exact arithmetic, on a state with
    nonzero position and symmetric [cov], and with an [exp] that maps the
    zero rotation vector to the identity quaternion, [predict_ecef] with
    the gyro input equal to [gyro_bias], the accelerometer input equal to
    [accel_bias] and [dt = 0] leaves position, velocity, orientation, the
    two biases, the clock bias, [cov] and [pt_cov] unchanged. *)
Lemma predict_ecef_zero_step (f : filter R R) :
  let s := avg_state f in
  let f' := predict_ecef f (gyro_bias s) (accel_bias s) 0 in
  let s' := avg_state f' in
  (forall v, (forall i, (i < 3)%nat -> v i = 0) -> exp_f v = qidentity) ->
  norm 3 (position s) <> 0 ->
  symmetric 12 (cov f) ->
  (forall i, position s' i = position s i)
  /\ (forall i, velocity s' i = velocity s i)
  /\ orientation s' = orientation s
  /\ gyro_bias s' = gyro_bias s
  /\ accel_bias s' = accel_bias s
  /\ clock_bias s' = clock_bias s
  /\ (forall i j, (i < 12)%nat -> (j < 12)%nat -> cov f' i j = cov f i j)
  /\ (forall i j, (i < 4)%nat -> (j < 4)%nat ->
                  pt_cov f' i j = pt_cov f i j).
Proof.
  intros s f' s' Hexp Hpos Hsym.
  destruct (predict_ecef_mean f (gyro_bias s) (accel_bias s) 0)
    as (_ & _ & Hori & Hp & Hv & Hg & Ha & Hc).
  fold s f' s' in Hori, Hp, Hv, Hg, Ha, Hc. cbv zeta in *.
  split; [| split; [| split; [| split; [| split; [| split; [| split]]]]]];
    try assumption.
  - intros i. rewrite Hp. unfold vadd, vscale, vscale_l, vcast_f2d.
    to_R. ring.
  - intros i. rewrite Hv. unfold vadd, vscale, vcast_f2d. to_R. ring.
  - rewrite Hori, Hexp.
    + destruct (orientation s) as [w x y z].
      unfold qmul, qcast_f2d, qidentity; cbn [qw qx qy qz]. to_R.
      f_equal; ring.
    + intros i _. unfold vscale, vsub. to_R. ring.
  - intros i j Hi Hj. unfold f', predict_ecef; cbn [cov].
    unfold add_diagonal, vscale.
    assert (E : forall k l, (k < 12)%nat -> (l < 12)%nat ->
              propagate_cov (cov f)
                (mscale_l (- 0)
                   (toRotationMatrix (qconj (qcast_d2f (orientation s)))))
                (mscale_l (- 0)
                   (cross
                      (vopp
                         (qrot (qconj (qcast_d2f (orientation s)))
                            (vsub (accel_bias s) (accel_bias s))))))
                k l = cov f k l).
    { intros k l Hk Hl.
      rewrite propagate_cov_zero by auto with zero3.
      apply symmetrize_symmetric; assumption. }
    fold s.
    repeat match goal with
      | |- context [if ?b then _ else _] => destruct b
      end;
      to_R; rewrite E by assumption; ring.
  - intros i j Hi Hj. unfold f', predict_ecef; cbn [pt_cov].
    unfold set_entry, add_diagonal, add_block, set_block, madd, mscale_l,
      vscale, block.
    repeat match goal with
      | |- context [if ?b then _ else _] => destruct b eqn:?
      end;
      to_R; try ring.
    all: unfold in_block in *;
      repeat match goal with
        | H : _ && _ = true |- _ => apply andb_true_iff in H; destruct H
        | H : (_ <=? _) = true |- _ => apply Nat.leb_le in H
        | H : (_ <? _) = true |- _ => apply Nat.ltb_lt in H
        | H : (_ =? _) = true |- _ => apply Nat.eqb_eq in H
        end.
    all: try (exfalso; lia).
    all: try (replace (0 + (i - 0))%nat with i by lia;
              replace (0 + (j - 0))%nat with j by lia; ring).
    all: subst; ring.
Qed.
End ZeroStep.

Lemma exp_R_zero (v : Vec R) :
  (forall i, (i < 3)%nat -> v i = 0) -> exp_R v = qidentity.
Proof.
  intros H. unfold exp_R.
  destruct (Req_dec_T (norm 3 v) 0) as [_ | Hn]; [reflexivity |].
  exfalso; apply Hn. unfold norm, squaredNorm, dot, sum_n. to_R.
  rewrite !H by lia.
  replace (0 * 0 + 0 * 0 + 0 * 0) with 0 by ring. apply sqrt_0.
Qed.

Lemma predict_ecef_zero_step_witness :
  (forall v, (forall i, (i < 3)%nat -> v i = 0) -> exp_R v = qidentity)
  /\ norm 3 (position (avg_state on_equator)) <> 0
  /\ symmetric 12 (cov on_equator)
  /\ forall i j, (i < 12)%nat -> (j < 12)%nat ->
       cov (predict_ecef (EXT := real_externals) on_equator
              (gyro_bias (avg_state on_equator))
              (accel_bias (avg_state on_equator)) 0) i j
       = cov on_equator i j.
Proof.
  split; [exact exp_R_zero |].
  split; [exact on_equator_position |].
  split; [exact on_equator_symmetric |].
  exact (proj1 (proj2 (proj2 (proj2 (proj2 (proj2 (proj2
           (@predict_ecef_zero_step real_externals on_equator exp_R_zero
              on_equator_position on_equator_symmetric)))))))).
Defined.

(** *** The difference of two states *)

Lemma set_segment_read n (v w : Vec R) k i :
  (i < n)%nat -> set_segment n v k w (k + i)%nat = w i.
Proof.
  intros Hi. unfold set_segment.
  destruct (Nat.leb_spec k (k + i)); [| lia].
  destruct (Nat.ltb_spec (k + i) (k + n)); [| lia].
  cbn [andb]. f_equal. lia.
Qed.

Lemma set_segment_other n (v w : Vec R) k i :
  (i < k \/ k + n <= i)%nat -> set_segment n v k w i = v i.
Proof.
  intros Hi. unfold set_segment.
  destruct (Nat.leb_spec k i); destruct (Nat.ltb_spec i (k + n));
    cbn [andb]; try reflexivity; lia.
Qed.

Section Difference.
Context {EXT : Externals R R}.

(** C8. The attitude component of [sigma_point_difference mean point]
    is [log (conj(mean) * q)], with [q] the point's quaternion when the
    dot product of the two coefficient vectors is not negative and its
    negation otherwise.  For the quaternions (1,0,0,0) and (-1,0,0,0)
    the component is the zero vector, given that [log] sends the
    identity quaternion to zero. *)
Theorem sigma_point_difference_attitude (ret0 : Vec R)
    (mean point : state R R) :
  (forall i, (i < 3)%nat -> log_d qidentity i = 0) ->
  (forall i, (i < 3)%nat ->
     sigma_point_difference ret0 mean point (3 + i)%nat =
     log_d
       (qmul (qconj (orientation mean))
          (if Rlt_dec
                (dot 4 (coeffs (orientation mean))
                   (coeffs (orientation point))) 0
           then qscale (orientation point) (-1)
           else orientation point)) i)
  /\ (orientation mean = mkQuaternion 1 0 0 0 ->
      orientation point = mkQuaternion (-1) 0 0 0 ->
      forall i, (i < 3)%nat ->
        sigma_point_difference ret0 mean point (3 + i)%nat = 0).
Proof.
  intros Hlog.
  assert (Hgen : forall i, (i < 3)%nat ->
     sigma_point_difference ret0 mean point (3 + i)%nat =
     log_d
       (qmul (qconj (orientation mean))
          (if Rlt_dec
                (dot 4 (coeffs (orientation mean))
                   (coeffs (orientation point))) 0
           then qscale (orientation point) (-1)
           else orientation point)) i).
  { intros i Hi. unfold sigma_point_difference.
    rewrite !set_segment_other by lia.
    cbv beta iota delta [ltb R_Num].
    destruct (Rlt_dec _ _);
      rewrite set_segment_read by assumption; reflexivity. }
  split; [exact Hgen |].
  intros Hm Hp i Hi. rewrite (Hgen i Hi). clear Hgen. rewrite Hm, Hp.
  unfold dot, coeffs, sum_n; cbn [qw qx qy qz]. to_R.
  destruct (Rlt_dec _ _) as [_ | Hge]; [| exfalso; apply Hge; lra].
  unfold qmul, qconj, qscale; cbn [qw qx qy qz]. to_R.
  replace (mkQuaternion _ _ _ _) with (@qidentity R _);
    [apply Hlog; assumption |].
  unfold qidentity. to_R. f_equal; ring.
Qed.
End Difference.

Lemma log_R_identity (i : nat) : (i < 3)%nat -> log_R qidentity i = 0.
Proof.
  intros _. unfold log_R.
  destruct (Req_dec_T _ 0) as [_ | Hn]; [reflexivity |].
  exfalso; apply Hn.
  unfold norm, squaredNorm, dot, sum_n, qvec, vec3, qidentity;
    cbn [qx qy qz]. to_R.
  replace (0 * 0 + 0 * 0 + 0 * 0) with 0 by ring. apply sqrt_0.
Qed.

Lemma sigma_point_difference_attitude_witness :
  (forall i, (i < 3)%nat -> log_R qidentity i = 0)
  /\ forall i, (i < 3)%nat ->
       sigma_point_difference (EXT := real_externals) vzero upright
         upright_negated (3 + i)%nat = 0.
Proof.
  split; [exact log_R_identity |].
  exact (proj2 (@sigma_point_difference_attitude real_externals vzero
                  upright upright_negated log_R_identity)
           eq_refl eq_refl).
Defined.
(** *** Symmetry is kept by the updates that read their own matrix *)

(** A property of the loop-carried state that every turn keeps holds after
    the loop. *)
Lemma for_loop_invariant {S : Type} (P : S -> Prop) (n : nat)
    (body : nat -> S -> S) (init : S) :
  P init ->
  (forall i s, (i < n)%nat -> P s -> P (body i s)) ->
  P (for_loop n body init).
Proof.
  unfold for_loop. intros H0 Hstep.
  assert (G : forall l s, (forall i, In i l -> (i < n)%nat) -> P s ->
                          P (fold_left (fun s i => body i s) l s)).
  { induction l as [| i l IH]; intros s Hl Hs; [exact Hs |].
    cbn [fold_left]. apply IH.
    - intros k Hk. apply Hl. now right.
    - apply Hstep; [apply Hl; now left | exact Hs]. }
  apply G; [| exact H0].
  intros i Hi. apply in_seq in Hi. lia.
Qed.

(** One scalar update [c -= (c.col(k) * s) * c.row(k)] keeps [c]
    symmetric. *)
Lemma rank_one_symmetric (n k : nat) (c : Mat R) (s : R) :
  (k < n)%nat -> symmetric n c ->
  symmetric n (msub c (outer (vscale (col c 0 k) s) (row c k 0))).
Proof.
  intros Hk H i j Hi Hj. unfold msub, outer, vscale, col, row. to_R.
  cbn [Nat.add]. rewrite (H j i), (H j k), (H k i) by assumption. ring.
Qed.

Section Symmetry.
Context {EXT : Externals R R}.

Lemma pv_report_velocity_symmetric (f : filter R R) (vel : Vec R)
    (v_error : Vec R) :
  symmetric 12 (cov f) ->
  symmetric 12 (cov (pv_report_velocity f vel v_error)).
Proof.
  intros H. unfold pv_report_velocity.
  match goal with
  | |- context [for_loop 3 ?b ?i] =>
      assert (G : symmetric 12 (snd (for_loop 3 b i)))
  end.
  { apply for_loop_invariant with (P := fun s => symmetric 12 (snd s)).
    - exact H.
    - intros i [u c] Hi Hc. cbn [snd] in *.
      apply rank_one_symmetric; [lia | exact Hc]. }
  destruct (for_loop 3 _ _) as [u c]. exact G.
Qed.

Lemma pv_report_position_kalman_symmetric (f : filter R R) (pos : Vec R)
    (p_error : Vec R) :
  symmetric 4 (pt_cov f) ->
  symmetric 4 (pt_cov (pv_report_position_kalman f pos p_error)).
Proof.
  intros H. unfold pv_report_position_kalman.
  match goal with
  | |- context [for_loop 3 ?b ?i] =>
      assert (G : symmetric 4 (snd (for_loop 3 b i)))
  end.
  { apply for_loop_invariant with (P := fun s => symmetric 4 (snd s)).
    - exact H.
    - intros i [u c] Hi Hc. cbn [snd] in *.
      apply rank_one_symmetric; [lia | exact Hc]. }
  destruct (for_loop 3 _ _) as [u c]. exact G.
Qed.

Lemma obs_gps_pseudorange_symmetric (f : filter R R) (accum : Vec R)
    (sat_pos : Vec R) (pseudorange error : R) :
  symmetric 4 (pt_cov f) ->
  symmetric 4 (pt_cov (fst (obs_gps_pseudorange f accum sat_pos pseudorange
                              error))).
Proof.
  intros H i j Hi Hj. unfold obs_gps_pseudorange; cbn [fst pt_cov set_pt_cov].
  unfold msub, outer, vscale, mvmul, vmmul, sum_n. to_R.
  rewrite (H j i), (H j 0%nat), (H j 1%nat), (H j 2%nat), (H j 3%nat),
    (H i 0%nat), (H i 1%nat), (H i 2%nat), (H i 3%nat) by lia.
  ring.
Qed.

Lemma obs_gps_deltarange_symmetric (f : filter R R) (accum : Vec R)
    (sat_vel : Vec R) (deltarange error : R) :
  symmetric 12 (cov f) ->
  symmetric 12 (cov (fst (obs_gps_deltarange f accum sat_vel deltarange
                            error))).
Proof.
  intros H i j Hi Hj. unfold obs_gps_deltarange; cbn [fst cov set_cov].
  unfold msub, outer, vscale, mvmul, vmmul, sum_n, block. to_R.
  cbn [Nat.add].
  rewrite (H j i), (H j 6%nat), (H j 7%nat), (H j 8%nat),
    (H i 6%nat), (H i 7%nat), (H i 8%nat) by lia.
  ring.
Qed.

Lemma obs_vector_symmetric (f : filter R R) (ref obs : Vec R) (error : R) :
  symmetric 12 (cov f) ->
  symmetric 12 (cov (obs_vector f ref obs error)).
Proof.
  intros H. unfold obs_vector.
  match goal with
  | |- context [for_loop 2 ?b ?i] =>
      assert (G : symmetric 12 (snd (for_loop 2 b i)))
  end.
  { apply for_loop_invariant with (P := fun s => symmetric 12 (snd s)).
    - exact H.
    - intros k [u c] Hk Hc. cbn [snd] in *.
      intros i j Hi Hj.
      unfold msub, mmul, outer, vdiv, mvmul, vmmul, dot, sum_n, block.
      to_R. cbn [Nat.add].
      rewrite (Hc j i), (Hc j 3%nat), (Hc j 4%nat), (Hc j 5%nat),
        (Hc i 3%nat), (Hc i 4%nat), (Hc i 5%nat) by lia.
      unfold Rdiv. ring. }
  destruct (for_loop 2 _ _) as [u c]. exact G.
Qed.

Lemma init_symmetric (f : filter R R) (attitude : Quaternion R)
    (attitude_error : Mat R) (vel pos vel_error pos_error : Vec R) :
  symmetric 12 (cov f) -> symmetric 4 (pt_cov f) ->
  (symmetric 3 attitude_error ->
   symmetric 12 (cov (init_attitude f attitude attitude_error))
   /\ symmetric 4 (pt_cov (init_attitude f attitude attitude_error)))
  /\ (symmetric 12 (cov (init_velocity f vel vel_error))
      /\ symmetric 4 (pt_cov (init_velocity f vel vel_error)))
  /\ (symmetric 12 (cov (init_position f pos pos_error))
      /\ symmetric 4 (pt_cov (init_position f pos pos_error))).
Proof.
  intros Hc Hp. split; [intros He |]; repeat split; try assumption;
    intros i j Hi Hj.
  - unfold init_attitude. rewrite !clear_inertial_block by lia.
    cbn [cov set_avg_state]. unfold in_strip, in_block.
    index_split; cbn [andb orb]; try reflexivity;
      solve [apply He; lia | apply Hc; lia].
  - unfold init_velocity. rewrite !clear_inertial_block by lia.
    cbn [cov set_avg_state]. unfold in_strip, in_block, asDiagonal.
    index_split; cbn [andb orb]; try reflexivity;
      solve [f_equal; lia | apply Hc; lia].
  - unfold init_position. rewrite !clear_position_block.
    unfold in_block, asDiagonal.
    index_split; cbn [andb orb]; try reflexivity; f_equal; lia.
Qed.

(** Rewrites every entry of [c] below the diagonal, at literal indices, into
    its mirror above. *)
Ltac upper_entries H c :=
  repeat match goal with
    | |- context [c ?a ?b] =>
        let t := eval cbv in (Nat.ltb b a) in
        match t with
        | true => rewrite (H a b) by lia
        end
    end.

Lemma add_diagonal_symmetric (n m r : nat) (c : Mat R) (v : Vec R) :
  symmetric n c -> symmetric n (add_diagonal m c r v).
Proof.
  intros H i j Hi Hj. unfold add_diagonal.
  destruct (Nat.eqb_spec i j) as [-> | Hne].
  - rewrite Nat.eqb_refl. reflexivity.
  - destruct (Nat.eqb_spec j i); [congruence |]. cbn [andb]. auto.
Qed.

(** The diagonal blocks that the propagation leaves are symmetric. *)
Lemma propagate_cov_symmetric (c dtR dtQ : Mat R) :
  symmetric 12 c -> symmetric 12 (propagate_cov c dtR dtQ).
Proof.
  intros H i j Hi Hj. unfold propagate_cov; cbv zeta.
  rewrite !symmetrize_spec.
  destruct (lower_block i j) eqn:Eij.
  { destruct (lower_block_irrefl _ _ Eij) as [_ ->]. reflexivity. }
  destruct (lower_block j i) eqn:Eji; [reflexivity |].
  assert (Ei : In i (seq 0 12)) by (apply in_seq; lia).
  assert (Ej : In j (seq 0 12)) by (apply in_seq; lia).
  clear Hi Hj. cbn [seq In] in Ei, Ej.
  repeat match goal with
    | E : _ \/ _ |- _ => destruct E as [E | E]
    | E : False |- _ => contradiction
    end;
    subst i j; try discriminate Eij; try discriminate Eji; clear Eij Eji;
    cbv [sgemm sgemmm sgemmm_diag ssyr2k add_block set_block in_block block
         madd mmul transpose sum_n Nat.leb Nat.ltb Nat.add Nat.sub andb];
    to_R; upper_entries H c; ring.
Qed.

Lemma set_entry_symmetric (n r : nat) (c : Mat R) (x : R) :
  symmetric n c -> symmetric n (set_entry c r r x).
Proof.
  intros H i j Hi Hj. unfold set_entry.
  destruct (Nat.eqb_spec i r); destruct (Nat.eqb_spec j r); cbn [andb];
    auto.
Qed.

Lemma add_block_symmetric (n r : nat) (c X : Mat R) :
  symmetric n c -> symmetric 3 X -> symmetric n (add_block c r r X).
Proof.
  intros Hc HX i j Hi Hj. unfold add_block, set_block, madd, block.
  destruct (in_block 3 3 r r i j) eqn:E1.
  - in_block_inv E1.
    assert (E2 : in_block 3 3 r r j i = true).
    { unfold in_block.
      destruct (Nat.leb_spec r j); [| lia].
      destruct (Nat.ltb_spec j (r + 3)); [| lia].
      destruct (Nat.leb_spec r i); [| lia].
      destruct (Nat.ltb_spec i (r + 3)); [| lia]. reflexivity. }
    rewrite E2. to_R.
    replace (r + (i - r))%nat with i by lia.
    replace (r + (j - r))%nat with j by lia.
    rewrite (Hc j i), (HX (j - r)%nat (i - r)%nat) by lia. reflexivity.
  - assert (E2 : in_block 3 3 r r j i = false).
    { unfold in_block in *. revert E1.
      index_split; cbn [andb]; intros; try discriminate; reflexivity. }
    rewrite E2. apply Hc; assumption.
Qed.

Lemma predict_ecef_symmetric (f : filter R R) (gyro_meas accel_meas : Vec R)
    (dt : R) :
  symmetric 12 (cov f) -> symmetric 4 (pt_cov f) ->
  symmetric 12 (cov (predict_ecef f gyro_meas accel_meas dt))
  /\ symmetric 4 (pt_cov (predict_ecef f gyro_meas accel_meas dt)).
Proof.
  intros Hc Hp. unfold predict_ecef; cbn [cov pt_cov]. split.
  - repeat apply add_diagonal_symmetric. apply propagate_cov_symmetric, Hc.
  - apply set_entry_symmetric.
    apply add_diagonal_symmetric, add_block_symmetric; [exact Hp |].
    intros a b Ha Hb. unfold mscale_l, block. to_R.
    rewrite (Hc (6 + a)%nat (6 + b)%nat) by lia. reflexivity.
Qed.
End Symmetry.
(** *** The invariant check and the position leg over the reals *)

Lemma is_real_exact (f : filter R R) : is_real f = true.
Proof. reflexivity. Qed.

(** Over the reals nothing is NaN or infinite, and the check is the
    inequality alone. *)
Lemma invariants_met_exact (f : filter R R) :
  invariants_met f = true <->
  Rabs (1 - 1 / qnorm (orientation (avg_state f))) < R_sqrt.sqrt (1 / 8388608).
Proof.
  unfold invariants_met. rewrite is_real_exact. cbn [andb].
  unfold float_epsilon. to_R.
  cbv beta iota delta [ltb sqrt R_Num].
  destruct (Rlt_dec _ _); split; intros; try assumption; try reflexivity;
    try discriminate; contradiction.
Qed.

(** The x variance after a position report with unit variances on
    [on_equator]: the source's leg subtracts the gain times the gyro-bias
    variance, the Kalman form leaves 100/101. *)
Lemma position_leg_exact (pos : Vec R) :
  pt_cov (pv_report_position on_equator pos (vec3 1 1 1)) 0%nat 0%nat
  = 100 - 100 / 101 * ((3 * PI / 180) * (3 * PI / 180))
  /\ pt_cov (pv_report_position_kalman on_equator pos (vec3 1 1 1)) 0%nat 0%nat
     = 100 / 101.
Proof.
  split.
  - cbv - [Rplus Rminus Rmult Rdiv Rinv Ropp PI IZR]. field.
  - cbv - [Rplus Rminus Rmult Rdiv Rinv Ropp PI IZR]. field.
Qed.
End ExactFacts.

(** ** Facts of IEEE 754 arithmetic *)

Module IEEEFacts.
Import IEEE.
Local Open Scope num_scope.

Lemma SFadd_nan_r prec emax x : SFadd prec emax x S754_nan = S754_nan.
Proof. destruct x; reflexivity. Qed.

Lemma SFsub_nan_r prec emax x : SFsub prec emax x S754_nan = S754_nan.
Proof. destruct x; reflexivity. Qed.

Lemma SFmul_nan_r prec emax x : SFmul prec emax x S754_nan = S754_nan.
Proof. destruct x; reflexivity. Qed.

Lemma sf_zero_inv x : sf_is_zero x = true -> exists s, x = S754_zero s.
Proof. destruct x; try discriminate. eauto. Qed.

(** On a vector of zeros, of either sign, [normalized] divides zero by
    zero. *)
Lemma normalized_zero_nan (v : Vec binary32) :
  (forall i, (i < 3)%nat -> sf_is_zero (b32 (v i)) = true) ->
  forall i, (i < 3)%nat -> normalized 3 v i = B32 S754_nan.
Proof.
  intros Hz i Hi.
  destruct (sf_zero_inv _ (Hz 0%nat ltac:(lia))) as [s0 H0].
  destruct (sf_zero_inv _ (Hz 1%nat ltac:(lia))) as [s1 H1].
  destruct (sf_zero_inv _ (Hz 2%nat ltac:(lia))) as [s2 H2].
  destruct (sf_zero_inv _ (Hz i Hi)) as [s Hs].
  unfold normalized, vdiv, norm, squaredNorm, dot; simpl.
  rewrite H0, H1, H2, Hs.
  destruct s0, s1, s2, s; reflexivity.
Qed.

(** The same when the quotient is taken by multiplying with the reciprocal
    of the norm: one over zero is infinite, and zero times infinity is
    NaN. *)
Lemma normalized_by_reciprocal_zero_nan (v : Vec binary32) :
  (forall i, (i < 3)%nat -> sf_is_zero (b32 (v i)) = true) ->
  forall i, (i < 3)%nat -> vscale v (one / norm 3 v) i = B32 S754_nan.
Proof.
  intros Hz i Hi.
  destruct (sf_zero_inv _ (Hz 0%nat ltac:(lia))) as [s0 H0].
  destruct (sf_zero_inv _ (Hz 1%nat ltac:(lia))) as [s1 H1].
  destruct (sf_zero_inv _ (Hz 2%nat ltac:(lia))) as [s2 H2].
  destruct (sf_zero_inv _ (Hz i Hi)) as [s Hs].
  unfold vscale, norm, squaredNorm, dot; simpl.
  rewrite H0, H1, H2, Hs.
  destruct s0, s1, s2, s; reflexivity.
Qed.

Section Prediction.
Context {EXT : Externals binary32 binary64}.

(** C9. On a state whose position is the zero vector, [predict_ecef]
    normalises the zero position, which divides zero by zero: the
    gravity direction and the inertial acceleration are NaN in every
    component, so are the new position and velocity, and the finiteness
    invariant fails. *)
Theorem predict_ecef_zero_position (f : filter binary32 binary64)
    (gyro_meas accel_meas : Vec binary32) (dt : binary32) :
  (forall i, (i < 3)%nat ->
             sf_is_zero (b64 (position (avg_state f) i)) = true) ->
  let f' := predict_ecef f gyro_meas accel_meas dt in
  (forall i, (i < 3)%nat ->
             normalized 3 (vcast_d2f (position (avg_state f))) i
             = B32 S754_nan)
  /\ (forall i, (i < 3)%nat ->
                inertial_accel (avg_state f') i = B32 S754_nan)
  /\ (forall i, (i < 3)%nat -> position (avg_state f') i = B64 S754_nan)
  /\ (forall i, (i < 3)%nat -> velocity (avg_state f') i = B64 S754_nan)
  /\ is_real f' = false
  /\ invariants_met f' = false.
Proof.
  intros Hz f'.
  assert (Hn : forall i, (i < 3)%nat ->
             normalized 3 (vcast_d2f (position (avg_state f))) i
             = B32 S754_nan).
  { apply normalized_zero_nan. intros i Hi. unfold vcast_d2f; simpl.
    destruct (sf_zero_inv _ (Hz i Hi)) as [s Hs]. rewrite Hs. reflexivity. }
  destruct (predict_ecef_mean f gyro_meas accel_meas dt)
    as (_ & Hacc & _ & Hpos & Hvel & _).
  fold f' in Hacc, Hpos, Hvel. cbv zeta in Hacc, Hpos, Hvel.
  assert (Ha : forall i, (i < 3)%nat ->
             inertial_accel (avg_state f') i = B32 S754_nan).
  { intros i Hi. rewrite Hacc. unfold vsub, vscale.
    rewrite (Hn i Hi). cbn [sub mul binary32_Num b32].
    cbv beta iota delta [SFmul]. now rewrite SFsub_nan_r. }
  assert (Hc : forall i, (i < 3)%nat ->
             vcast_f2d (inertial_accel (avg_state f')) i = B64 S754_nan).
  { intros i Hi. unfold vcast_f2d. rewrite (Ha i Hi). reflexivity. }
  rewrite <- Hacc in Hpos, Hvel.
  assert (Hp : forall i, (i < 3)%nat ->
             position (avg_state f') i = B64 S754_nan).
  { intros i Hi. rewrite Hpos. unfold vadd, vscale, vscale_l.
    rewrite (Hc i Hi). cbn [add mul binary64_Num b64].
    rewrite SFmul_nan_r. cbv beta iota delta [SFmul].
    now rewrite SFadd_nan_r. }
  assert (Hv : forall i, (i < 3)%nat ->
             velocity (avg_state f') i = B64 S754_nan).
  { intros i Hi. rewrite Hvel. unfold vadd, vscale.
    rewrite (Hc i Hi). cbn [add mul binary64_Num b64].
    cbv beta iota delta [SFmul]. now rewrite SFadd_nan_r. }
  assert (Hr : is_real f' = false).
  { unfold is_real, state_is_real, has_nan, state_has.
    assert (Hany : vec_any is_nan 3 (position (avg_state f')) = true).
    { unfold vec_any. cbn [seq existsb].
      rewrite (Hp 0%nat) by lia. reflexivity. }
    rewrite Hany. rewrite ?orb_true_r, ?orb_true_l. simpl.
    apply andb_false_r. }
  repeat split; try assumption.
  unfold invariants_met. rewrite Hr. reflexivity.
Qed.

(** C2, on a run of the public operations. The filter is constructed,
    placed with [init_position], predicted over 10 ms and given one
    position and velocity report.  Before the report [cov] and [pt_cov]
    are symmetric bit for bit; after it [pt_cov(0,3)] is about 2.7e-5
    and [pt_cov(3,0)] is zero, further apart than ten times the
    machine epsilon. *)
Theorem pv_report_breaks_pt_cov_symmetry :
  symmetricb 12 (cov coasted) = true
  /\ symmetricb 4 (pt_cov coasted) = true
  /\ pt_cov reported 0%nat 3%nat = B32 (S754_finite false 14922656 (-39))
  /\ pt_cov reported 3%nat 0%nat = B32 (S754_zero false)
  /\ ltb (of_Z 10 * float_epsilon)
       (abs (pt_cov reported 0%nat 3%nat - pt_cov reported 3%nat 0%nat))
     = true.
Proof. repeat split; vm_compute; reflexivity. Qed.
End Prediction.

Lemma predict_ecef_zero_position_witness :
  (forall i, (i < 3)%nat ->
             sf_is_zero (b64 (position (avg_state fresh) i)) = true)
  /\ invariants_met
       (predict_ecef (EXT := small_angle_externals) fresh vzero vzero
          (d2f (one / of_Z 100))) = false.
Proof.
  assert (Hz : forall i, (i < 3)%nat ->
               sf_is_zero (b64 (position (avg_state fresh) i)) = true)
    by (intros i _; reflexivity).
  split; [exact Hz |].
  exact (proj2 (proj2 (proj2 (proj2 (proj2
           (@predict_ecef_zero_position small_angle_externals fresh vzero
              vzero (d2f (one / of_Z 100)) Hz)))))).
Defined.

(** C1, on a run of the public operations. The filter is constructed and
    placed with [init_position] at 100 m^2 of variance per axis; a
    position report with unit variances follows.  The first turn of the
    source's loop subtracts the gain times [cov(0,0)], the gyro-bias
    variance, and leaves the x variance at about 99.997; with row 0 of
    [pt_cov] in that place the variance drops to about 0.990. *)
Theorem position_leg_reads_inertial_cov :
  let gain :=
    pt_cov on_equator 0%nat 0%nat
    * d2f (one / f2d (pt_cov on_equator 0%nat 0%nat + one)) in
  pt_cov on_equator 0%nat 0%nat = of_Z 100
  /\ pt_cov equator_reported 0%nat 0%nat
     = pt_cov on_equator 0%nat 0%nat - gain * cov on_equator 0%nat 0%nat
  /\ pt_cov equator_reported_kalman 0%nat 0%nat
     = pt_cov on_equator 0%nat 0%nat - gain * pt_cov on_equator 0%nat 0%nat
  /\ pt_cov equator_reported 0%nat 0%nat
     = B32 (S754_finite false 13106844 (-17))
  /\ pt_cov equator_reported_kalman 0%nat 0%nat
     = B32 (S754_finite false 16611072 (-24))
  /\ ltb (of_Z 99) (pt_cov equator_reported 0%nat 0%nat) = true
  /\ ltb (pt_cov equator_reported_kalman 0%nat 0%nat) one = true.
Proof. cbv zeta. repeat split; vm_compute; reflexivity. Qed.

(** C3, a state that the claimed threshold accepts and the check rejects:
    every entry is finite and the norm of the orientation is 1.005, within
    sqrt(1000 eps) = 0.0109 of one, yet [invariants_met] is false. *)
Lemma invariants_met_threshold_counterexample :
  is_real stretched = true
  /\ SFleb
       (b64 (abs (qnorm (orientation (avg_state stretched)) - one)))
       (b64 (sqrt (of_Z 1000 * f2d float_epsilon))) = true
  /\ invariants_met stretched = false.
Proof. repeat split; vm_compute; reflexivity. Qed.

(** C5. The zero step on two states that pass the invariant check.  On
    the default-constructed filter, with the inputs equal to the biases
    and [dt = 0], the position and the velocity turn from zero into NaN
    and the check that closes [predict_ecef] fails.  The same happens on a
    filter placed at x = 10^39 m: the position narrowed to [float] is
    infinite, its squared norm is positive, so that a [normalized] that
    tests the squared norm divides all the same, infinity by infinity. *)
Theorem predict_ecef_zero_step_breaks_check :
  (invariants_met fresh = true
   /\ position (avg_state fresh) 0%nat = B64 (S754_zero false)
   /\ position (avg_state (fresh_predicted (EXT := small_angle_externals)))
        0%nat = B64 S754_nan
   /\ velocity (avg_state (fresh_predicted (EXT := small_angle_externals)))
        0%nat = B64 S754_nan
   /\ invariants_met (fresh_predicted (EXT := small_angle_externals)) = false)
  /\ (invariants_met far_out = true
      /\ ltb zero (squaredNorm 3 (vcast_d2f (position (avg_state far_out))))
         = true
      /\ position (avg_state (far_out_predicted (EXT := small_angle_externals)))
           0%nat = B64 S754_nan
      /\ invariants_met (far_out_predicted (EXT := small_angle_externals))
         = false).
Proof. repeat split; vm_compute; reflexivity. Qed.

(** The constructor in binary32: the diagonal of [cov] and of [pt_cov], and
    every other entry a positive zero. *)
Lemma constructor_defaults_binary32 :
  map (fun i => cov fresh i i) (seq 0 12)
  = map B32
      [S754_finite false 11774897 (-32); S754_finite false 11774897 (-32);
       S754_finite false 11774897 (-32); S754_finite false 10349031 (-21);
       S754_finite false 10349031 (-21); S754_finite false 10349031 (-21);
       S754_finite false 13107200 (-17); S754_finite false 13107200 (-17);
       S754_finite false 13107200 (-17); S754_finite false 12079596 (-27);
       S754_finite false 12079596 (-27); S754_finite false 12079596 (-27)]
  /\ map (fun i => pt_cov fresh i i) (seq 0 4)
     = map B32
         [S754_finite false 9765625 10; S754_finite false 9765625 10;
          S754_finite false 9765625 10; S754_finite false 11520000 (-7)]
  /\ forallb
       (fun i =>
          forallb
            (fun j => (i =? j) || sf_same (b32 (cov fresh i j)) (S754_zero false))
            (seq 0 12)) (seq 0 12) = true
  /\ forallb
       (fun i =>
          forallb
            (fun j =>
               (i =? j) || sf_same (b32 (pt_cov fresh i j)) (S754_zero false))
            (seq 0 4)) (seq 0 4) = true.
Proof. repeat split; vm_compute; reflexivity. Qed.

(** In binary64 the quaternion handed to [log] for the orientations
    (1,0,0,0) and (-1,0,0,0) is the identity, bit for bit. *)
Lemma hemisphere_binary64 :
  let q1 : Quaternion binary64 := mkQuaternion one zero zero zero in
  let q2 : Quaternion binary64 := mkQuaternion (of_Z (-1)) zero zero zero in
  ltb (dot 4 (coeffs q1) (coeffs q2)) zero = true
  /\ qmul (qconj q1) (qscale q2 (of_Z (-1))) = qidentity.
Proof. split; vm_compute; reflexivity. Qed.
End IEEEFacts.

(** ** What a prediction and the [init_*] calls leave alone *)

Section FrameFacts.
Context {F D : Type} {NF : Num F} {ND : Num D} {CFD : Casts F D}.
Context {MC : MathConstants D} {EXT : Externals F D}.
Local Open Scope num_scope.

(** Two indices in different 3 x 3 blocks: one of the two mirror entries
    lies in a block that the symmetrisation loop writes. *)
Lemma lower_block_cross (i j : nat) :
  (i < 12)%nat -> (j < 12)%nat -> (i / 3 <> j / 3)%nat ->
  lower_block i j = true \/ lower_block j i = true.
Proof.
  intros Hi Hj.
  assert (Ei : In i (seq 0 12)) by (apply in_seq; lia).
  assert (Ej : In j (seq 0 12)) by (apply in_seq; lia).
  clear Hi Hj. cbn [seq In] in Ei, Ej.
  repeat match goal with
    | E : _ \/ _ |- _ => destruct E as [E | E]
    | E : False |- _ => contradiction
    end;
    subst i j; cbn; intros H;
    first [ left; reflexivity | right; reflexivity
          | exfalso; apply H; reflexivity ].
Qed.

(** X3. After [predict_ecef] two entries of [cov] that mirror each other
    across the diagonal and lie in different 3 x 3 blocks are equal
    exactly, in every arithmetic and whatever [cov] was before: the loop
    over [block_addr] copies them. *)
Theorem predict_ecef_cross_blocks (f : filter F D)
    (gyro_meas accel_meas : Vec F) (dt : F) (i j : nat) :
  (i < 12)%nat -> (j < 12)%nat -> (i / 3 <> j / 3)%nat ->
  cov (predict_ecef f gyro_meas accel_meas dt) i j =
  cov (predict_ecef f gyro_meas accel_meas dt) j i.
Proof.
  intros Hi Hj Hb.
  destruct (lower_block_cross Hi Hj Hb) as [H | H].
  - apply predict_ecef_mirrored, H.
  - symmetry. apply predict_ecef_mirrored, H.
Qed.

(** X4. What [predict_ecef] leaves of the covariances, in every
    arithmetic: the gyro-bias and the accelerometer-bias block gain their
    stability noise times [dt] on the diagonal and nothing else; the block
    that couples the two biases keeps its upper copy, which also replaces
    the lower one; the covariances of the position with the clock stay,
    and the clock variance gains [clock_stability_noise * dt]. *)
Theorem predict_ecef_bias_blocks (f : filter F D)
    (gyro_meas accel_meas : Vec F) (dt : F) (i j : nat) :
  (i < 3)%nat -> (j < 3)%nat ->
  let f' := predict_ecef f gyro_meas accel_meas dt in
  cov f' i j
  = (if i =? j then cov f i j + gyro_stability_noise f i * dt else cov f i j)
  /\ cov f' (9 + i)%nat (9 + j)%nat
     = (if i =? j
        then cov f (9 + i)%nat (9 + j)%nat + accel_stability_noise f i * dt
        else cov f (9 + i)%nat (9 + j)%nat)
  /\ cov f' i (9 + j)%nat = cov f i (9 + j)%nat
  /\ cov f' (9 + j)%nat i = cov f i (9 + j)%nat
  /\ pt_cov f' i 3%nat = pt_cov f i 3%nat
  /\ pt_cov f' 3%nat i = pt_cov f 3%nat i
  /\ pt_cov f' 3%nat 3%nat
     = pt_cov f 3%nat 3%nat + clock_stability_noise f * dt.
Proof.
  intros Hi Hj f'. unfold f', predict_ecef; cbn [cov pt_cov].
  unfold propagate_cov; cbv zeta.
  destruct i as [| [| [| i]]]; [| | | lia];
    (destruct j as [| [| [| j]]]; [| | | lia]);
    repeat split;
    unfold add_diagonal, set_entry; rewrite ?symmetrize_spec;
    cbv [lower_block block_addr existsb fst snd orb vscale
         sgemm sgemmm sgemmm_diag ssyr2k add_block set_block in_block
         Nat.eqb Nat.leb Nat.ltb Nat.add Nat.sub andb];
    reflexivity.
Qed.

(** X9. The three [init_*] calls can be made in any order: attitude and
    velocity initialisation, which zero each other's cross-covariances,
    give the same mean and the same entries of [cov] either way round, and
    position initialisation commutes with both. *)
Theorem init_calls_commute (f : filter F D) (attitude : Quaternion D)
    (attitude_error : Mat F) (vel pos : Vec D) (vel_error pos_error : Vec F) :
  (let a := init_velocity (init_attitude f attitude attitude_error) vel
              vel_error in
   let b := init_attitude (init_velocity f vel vel_error) attitude
              attitude_error in
   avg_state a = avg_state b /\ pt_cov a = pt_cov b
   /\ forall i j, cov a i j = cov b i j)
  /\ init_position (init_attitude f attitude attitude_error) pos pos_error
     = init_attitude (init_position f pos pos_error) attitude attitude_error
  /\ init_position (init_velocity f vel vel_error) pos pos_error
     = init_velocity (init_position f pos pos_error) vel vel_error.
Proof.
  split; [| split; reflexivity].
  cbv zeta. split; [reflexivity | split; [reflexivity |]].
  intros i j. unfold init_velocity, init_attitude.
  rewrite !clear_inertial_block by lia. cbn [cov set_avg_state].
  rewrite !clear_inertial_block by lia.
  unfold in_strip, in_block. index_split; cbn [andb orb]; reflexivity.
Qed.

(** X10. [sigma_point_difference] assigns each of the sixteen components
    of its result: nothing of the unassigned vector [ret] that it starts
    from is returned. *)
Theorem sigma_point_difference_assigns (r0 r1 : Vec F)
    (mean point : state F D) (i : nat) :
  (i < 16)%nat ->
  sigma_point_difference r0 mean point i
  = sigma_point_difference r1 mean point i.
Proof.
  intros Hi. unfold sigma_point_difference.
  destruct (ltb _ zero); unfold set_segment;
    index_split; cbn [andb]; reflexivity.
Qed.
End FrameFacts.

Module FrameExamples.
Import Exact.
Local Open Scope R_scope.

Lemma predict_ecef_cross_blocks_witness :
  (0 < 12)%nat /\ (3 < 12)%nat /\ (0 / 3 <> 3 / 3)%nat
  /\ cov (predict_ecef (EXT := real_externals) on_equator vzero vzero
            (1 / 100)) 0%nat 3%nat
     = cov (predict_ecef (EXT := real_externals) on_equator vzero vzero
              (1 / 100)) 3%nat 0%nat.
Proof.
  assert (H0 : (0 < 12)%nat) by lia.
  assert (H3 : (3 < 12)%nat) by lia.
  assert (Hb : (0 / 3 <> 3 / 3)%nat) by (simpl; lia).
  split; [exact H0 |]. split; [exact H3 |]. split; [exact Hb |].
  exact (@predict_ecef_cross_blocks R R _ _ _ real_externals on_equator vzero
           vzero (1 / 100) 0%nat 3%nat H0 H3 Hb).
Defined.

Lemma predict_ecef_bias_blocks_witness :
  (0 < 3)%nat /\ (1 < 3)%nat
  /\ cov (predict_ecef (EXT := real_externals) on_equator vzero vzero
            (1 / 100)) 0%nat 10%nat
     = cov on_equator 0%nat 10%nat.
Proof.
  assert (H0 : (0 < 3)%nat) by lia.
  assert (H1 : (1 < 3)%nat) by lia.
  split; [exact H0 |]. split; [exact H1 |].
  exact (proj1 (proj2 (proj2
           (@predict_ecef_bias_blocks R R _ _ _ real_externals on_equator
              vzero vzero (1 / 100) 0%nat 1%nat H0 H1)))).
Defined.

Lemma sigma_point_difference_assigns_witness :
  (15 < 16)%nat
  /\ sigma_point_difference (EXT := real_externals) vzero upright
       upright_negated 15%nat
     = sigma_point_difference (EXT := real_externals) (fun _ => 1) upright
         upright_negated 15%nat.
Proof.
  assert (H : (15 < 16)%nat) by lia.
  split; [exact H |].
  exact (@sigma_point_difference_assigns R R _ _ _ real_externals vzero
           (fun _ => 1) upright upright_negated 15%nat H).
Defined.
End FrameExamples.

(** ** The covariances as quadratic forms, in exact arithmetic *)

Module CovarianceFacts.
Import Exact ExactFacts Quadratic.
Local Open Scope R_scope.

(** *** Finite sums *)

Lemma sum_n_S (n : nat) (f : nat -> R) :
  sum_n (S n) f = sum_n n f + f n.
Proof. destruct n; cbn [sum_n]; to_R; [ring | reflexivity]. Qed.

Lemma sum_n_ext (n : nat) (f g : nat -> R) :
  (forall k, (k < n)%nat -> f k = g k) -> sum_n n f = sum_n n g.
Proof.
  induction n as [| n IH]; intros H; [reflexivity |].
  rewrite !sum_n_S, IH, (H n) by auto with arith. reflexivity.
Qed.

Lemma sum_n_plus (n : nat) (f g : nat -> R) :
  sum_n n (fun k => f k + g k) = sum_n n f + sum_n n g.
Proof.
  induction n as [| n IH]; [cbn [sum_n]; to_R; ring |].
  rewrite !sum_n_S, IH. ring.
Qed.

Lemma sum_n_scal (n : nat) (s : R) (f : nat -> R) :
  sum_n n (fun k => s * f k) = s * sum_n n f.
Proof.
  induction n as [| n IH]; [cbn [sum_n]; to_R; ring |].
  rewrite !sum_n_S, IH. ring.
Qed.

Lemma sum_n_scal_r (n : nat) (s : R) (f : nat -> R) :
  sum_n n (fun k => f k * s) = sum_n n f * s.
Proof.
  induction n as [| n IH]; [cbn [sum_n]; to_R; ring |].
  rewrite !sum_n_S, IH. ring.
Qed.

Lemma sum_n_swap (n m : nat) (f : nat -> nat -> R) :
  sum_n n (fun i => sum_n m (fun j => f i j))
  = sum_n m (fun j => sum_n n (fun i => f i j)).
Proof.
  induction n as [| n IH].
  - cbn [sum_n]. induction m as [| m IHm]; [reflexivity |].
    rewrite sum_n_S, <- IHm. cbn [sum_n]. to_R. ring.
  - rewrite sum_n_S, IH, <- sum_n_plus. apply sum_n_ext.
    intros j _. rewrite sum_n_S. reflexivity.
Qed.

Lemma sum_n_nonneg (n : nat) (f : nat -> R) :
  (forall k, (k < n)%nat -> 0 <= f k) -> 0 <= sum_n n f.
Proof.
  induction n as [| n IH]; intros H; [cbn [sum_n]; to_R; lra |].
  rewrite sum_n_S. apply Rplus_le_le_0_compat; auto.
Qed.

Lemma sum_n_unit (k m : nat) (f : nat -> R) :
  (k < m)%nat -> sum_n m (fun i => unit_vec k i * f i) = f k.
Proof.
  induction m as [| m IH]; intros Hm; [lia |].
  rewrite sum_n_S. unfold unit_vec at 2.
  destruct (Nat.eqb_spec m k) as [-> | Hne].
  - assert (Z : sum_n k (fun i => unit_vec k i * f i) = 0).
    { rewrite (@sum_n_ext k _ (fun _ => 0 * 0)).
      - rewrite sum_n_scal. ring.
      - intros i Hi. unfold unit_vec.
        destruct (Nat.eqb_spec i k); [lia | ring]. }
    rewrite Z. ring.
  - rewrite IH by lia. ring.
Qed.

Lemma sum_n_unit_r (k m : nat) (f : nat -> R) :
  (k < m)%nat -> sum_n m (fun i => f i * unit_vec k i) = f k.
Proof.
  intros H. rewrite <- (sum_n_unit f H). apply sum_n_ext. intros i _. ring.
Qed.

(** *** Quadratic forms *)

Lemma quad_ext (n : nat) (A B : Mat R) (x y : Vec R) :
  same_on n A B -> quad n A x y = quad n B x y.
Proof.
  intros H. unfold quad. apply sum_n_ext. intros i Hi. f_equal.
  apply sum_n_ext. intros j Hj. rewrite H by assumption. reflexivity.
Qed.

Lemma psd_ext (n : nat) (A B : Mat R) : same_on n A B -> psd n A -> psd n B.
Proof. intros H HA x. rewrite <- (quad_ext x x H). apply HA. Qed.

Lemma quad_sym (n : nat) (P : Mat R) (x y : Vec R) :
  symmetric n P -> quad n P x y = quad n P y x.
Proof.
  intros H. unfold quad.
  rewrite (@sum_n_ext n (fun i => x i * sum_n n (fun j => P i j * y j))
             (fun i => sum_n n (fun j => y j * (P j i * x i)))).
  - rewrite sum_n_swap. apply sum_n_ext. intros j _.
    rewrite sum_n_scal. reflexivity.
  - intros i Hi. rewrite <- sum_n_scal. apply sum_n_ext. intros j Hj.
    rewrite (H i j) by assumption. ring.
Qed.

Lemma quad_plus_r (n : nat) (P : Mat R) (x y z : Vec R) (t : R) :
  quad n P x (fun k => y k + t * z k) = quad n P x y + t * quad n P x z.
Proof.
  unfold quad. rewrite <- sum_n_scal, <- sum_n_plus. apply sum_n_ext.
  intros i _.
  assert (E : sum_n n (fun j => P i j * (y j + t * z j))
              = sum_n n (fun j => P i j * y j)
                + t * sum_n n (fun j => P i j * z j)).
  { rewrite <- sum_n_scal, <- sum_n_plus. apply sum_n_ext. intros j _. ring. }
  rewrite E. ring.
Qed.

Lemma quad_plus_l (n : nat) (P : Mat R) (x y z : Vec R) (t : R) :
  quad n P (fun k => x k + t * y k) z = quad n P x z + t * quad n P y z.
Proof.
  unfold quad. rewrite <- sum_n_scal, <- sum_n_plus. apply sum_n_ext.
  intros i _. ring.
Qed.

(** The variance of a coordinate is the quadratic form at a unit vector. *)
Lemma quad_unit (n : nat) (P : Mat R) (k : nat) :
  (k < n)%nat -> quad n P (unit_vec k) (unit_vec k) = P k k.
Proof.
  intros Hk. unfold quad. rewrite sum_n_unit by assumption.
  rewrite (@sum_n_ext n _ (fun j => unit_vec k j * P k j)).
  - apply sum_n_unit; assumption.
  - intros j _. ring.
Qed.

Lemma psd_diagonal (n : nat) (P : Mat R) (k : nat) :
  psd n P -> (k < n)%nat -> 0 <= P k k.
Proof.
  intros Hp Hk. rewrite <- (quad_unit P Hk). apply Hp.
Qed.

(** [x' (A P) y = (A' x)' P y] and [x' (B A') y = x' B (A' y)]. *)
Lemma quad_mmul_l (n : nat) (A P : Mat R) (x y : Vec R) :
  quad n (mmul n A P) x y = quad n P (vmmul n x A) y.
Proof.
  unfold quad, mmul, vmmul. to_R.
  set (S := fun l => sum_n n (fun k => P l k * y k)).
  assert (I : forall i,
             sum_n n (fun j => sum_n n (fun k => A i k * P k j) * y j)
             = sum_n n (fun l => A i l * S l)).
  { intros i.
    transitivity (sum_n n (fun j => sum_n n (fun l => A i l * (P l j * y j)))).
    - apply sum_n_ext. intros j _. rewrite <- sum_n_scal_r.
      apply sum_n_ext. intros l _. ring.
    - rewrite sum_n_swap. apply sum_n_ext. intros l _. unfold S.
      rewrite sum_n_scal. reflexivity. }
  transitivity (sum_n n (fun i => sum_n n (fun l => x i * A i l * S l))).
  - apply sum_n_ext. intros i _. rewrite I, <- sum_n_scal.
    apply sum_n_ext. intros l _. ring.
  - rewrite sum_n_swap. apply sum_n_ext. intros l _.
    change (sum_n n (fun k => P l k * y k)) with (S l).
    rewrite <- sum_n_scal_r. reflexivity.
Qed.

Lemma quad_mmul_r (n : nat) (A B : Mat R) (x y : Vec R) :
  quad n (mmul n B (transpose A)) x y = quad n B x (vmmul n y A).
Proof.
  unfold quad, mmul, vmmul, transpose. to_R.
  apply sum_n_ext. intros i _. f_equal.
  rewrite (@sum_n_ext n (fun j => sum_n n (fun k => B i k * A j k) * y j)
             (fun j => sum_n n (fun k => B i k * (y j * A j k)))).
  - rewrite sum_n_swap. apply sum_n_ext. intros k _.
    rewrite sum_n_scal. reflexivity.
  - intros j _. rewrite <- sum_n_scal_r. apply sum_n_ext. intros k _. ring.
Qed.

(** Cauchy-Schwarz for a positive semidefinite symmetric form. *)
Lemma quad_cauchy_schwarz (n : nat) (P : Mat R) (x h : Vec R) :
  symmetric n P -> psd n P ->
  quad n P x h * quad n P x h <= quad n P x x * quad n P h h.
Proof.
  intros Hs Hp.
  set (a := quad n P x x). set (b := quad n P x h). set (q := quad n P h h).
  assert (Hq : 0 <= q) by apply Hp.
  assert (Ha : 0 <= a) by apply Hp.
  assert (Ht : forall t, 0 <= a + 2 * t * b + t * t * q).
  { intros t. pose proof (Hp (fun k => x k + t * h k)) as H.
    rewrite quad_plus_l, !quad_plus_r in H.
    rewrite (quad_sym h x Hs) in H. fold a b q in H. lra. }
  destruct (Req_dec_T q 0) as [Hq0 | Hq0].
  - rewrite Hq0 in *.
    destruct (Req_dec_T b 0) as [Hb0 | Hb0]; [rewrite Hb0; lra |].
    exfalso. specialize (Ht (- (a + 1) / (2 * b))).
    assert (E : 2 * (- (a + 1) / (2 * b)) * b = - (a + 1))
      by (field; exact Hb0).
    lra.
  - assert (Hqp : 0 < q) by lra.
    specialize (Ht (- b / q)).
    assert (E : a + 2 * (- b / q) * b + - b / q * (- b / q) * q
                = (a * q - b * b) / q) by (field; exact Hq0).
    rewrite E in Ht.
    assert (0 <= (a * q - b * b) / q * q) by (apply Rmult_le_pos; lra).
    replace ((a * q - b * b) / q * q) with (a * q - b * b) in *
      by (field; exact Hq0).
    lra.
Qed.

(** [A P A'] is positive semidefinite when [P] is. *)
Lemma psd_congruence (n : nat) (A P : Mat R) :
  psd n P -> psd n (mmul n (mmul n A P) (transpose A)).
Proof. intros H x. rewrite quad_mmul_r, quad_mmul_l. apply H. Qed.

(** Adding nonnegative numbers on the diagonal keeps a matrix positive
    semidefinite. *)
Lemma psd_add_diagonal (n : nat) (P : Mat R) (w : Vec R) :
  psd n P -> (forall i, (i < n)%nat -> 0 <= w i) ->
  psd n (fun i j => P i j + if i =? j then w i else 0).
Proof.
  intros Hp Hw x.
  assert (E : quad n (fun i j => P i j + if i =? j then w i else 0) x x
              = quad n P x x + sum_n n (fun i => w i * (x i * x i))).
  { unfold quad. rewrite <- sum_n_plus. apply sum_n_ext. intros i Hi.
    rewrite (@sum_n_ext n _
               (fun j => P i j * x j + unit_vec i j * (w i * x j))).
    - rewrite sum_n_plus, sum_n_unit by assumption. ring.
    - intros j _. unfold unit_vec. rewrite (Nat.eqb_sym j i).
      destruct (i =? j); ring. }
  rewrite E. apply Rplus_le_le_0_compat; [apply Hp |].
  apply sum_n_nonneg. intros i Hi.
  apply Rmult_le_pos; [auto | nra].
Qed.

(** A diagonal matrix with a nonnegative diagonal is positive
    semidefinite. *)
Lemma psd_diagonal_matrix (n : nat) (P : Mat R) (d : Vec R) :
  (forall i j, (i < n)%nat -> (j < n)%nat ->
     P i j = if i =? j then d i else 0) ->
  (forall i, (i < n)%nat -> 0 <= d i) -> psd n P.
Proof.
  intros HP Hd.
  apply psd_ext with (A := fun i j => 0 + if i =? j then d i else 0).
  - intros i j Hi Hj. rewrite HP by assumption. ring.
  - apply psd_add_diagonal with (P := fun _ _ => 0); [| exact Hd].
    intros x. unfold quad. apply sum_n_nonneg. intros i _.
    rewrite (@sum_n_ext n _ (fun _ => 0 * 0)) by (intros; ring).
    rewrite sum_n_scal. lra.
Qed.

(** *** The scalar Kalman update *)

Lemma vmmul_symmetric (n : nat) (P : Mat R) (h : Vec R) (j : nat) :
  symmetric n P -> (j < n)%nat -> vmmul n h P j = mvmul n P h j.
Proof.
  intros H Hj. unfold vmmul, mvmul. apply sum_n_ext. intros k Hk. to_R.
  rewrite (H k j) by assumption. ring.
Qed.

Lemma kalman_update_symmetric (n : nat) (P : Mat R) (h : Vec R) (r : R) :
  symmetric n P -> symmetric n (kalman_update n P h r).
Proof.
  intros H i j Hi Hj. unfold kalman_update.
  rewrite !vmmul_symmetric, (H i j) by assumption. unfold Rdiv. ring.
Qed.

Lemma kalman_update_quad (n : nat) (P : Mat R) (h : Vec R) (r : R)
    (x : Vec R) :
  quad n (kalman_update n P h r) x x
  = quad n P x x - quad n P x h * quad n P h x / (quad n P h h + r).
Proof.
  unfold kalman_update.
  set (s := quad n P h h + r).
  unfold quad at 1.
  rewrite (@sum_n_ext n _
             (fun i => x i * sum_n n (fun j => P i j * x j)
                       + - (quad n P h x / s) * (x i * mvmul n P h i))).
  - rewrite sum_n_plus, sum_n_scal. unfold quad, mvmul. to_R.
    unfold Rdiv. ring.
  - intros i Hi.
    rewrite (@sum_n_ext n _
               (fun j => P i j * x j
                         + - (mvmul n P h i / s) * (vmmul n h P j * x j))).
    + rewrite sum_n_plus, sum_n_scal.
      assert (E : sum_n n (fun j => vmmul n h P j * x j) = quad n P h x).
      { unfold vmmul, quad. to_R.
        rewrite (@sum_n_ext n _
                   (fun j => sum_n n (fun k => h k * (P k j * x j)))).
        - rewrite sum_n_swap. apply sum_n_ext. intros k _.
          rewrite sum_n_scal. reflexivity.
        - intros j _. rewrite <- sum_n_scal_r.
          apply sum_n_ext. intros k _. ring. }
      rewrite E. unfold Rdiv. ring.
    + intros j _. unfold Rdiv. ring.
Qed.

Lemma kalman_update_psd (n : nat) (P : Mat R) (h : Vec R) (r : R) :
  symmetric n P -> psd n P -> 0 < quad n P h h + r -> 0 <= r ->
  psd n (kalman_update n P h r).
Proof.
  intros Hs Hp Hpos Hr x. rewrite kalman_update_quad.
  rewrite (quad_sym h x Hs).
  pose proof (quad_cauchy_schwarz x h Hs Hp) as CS.
  pose proof (Hp x) as Ha. pose proof (Hp h) as Hq.
  set (a := quad n P x x) in *. set (b := quad n P x h) in *.
  set (q := quad n P h h) in *.
  assert (E : a - b * b / (q + r) = (a * (q + r) - b * b) / (q + r))
    by (field; lra).
  rewrite E. apply Rmult_le_pos; [nra | left; apply Rinv_0_lt_compat; lra].
Qed.

Lemma kalman_update_diagonal (n : nat) (P : Mat R) (h : Vec R) (r : R)
    (i : nat) :
  symmetric n P -> 0 < quad n P h h + r -> (i < n)%nat ->
  kalman_update n P h r i i <= P i i.
Proof.
  intros Hs Hpos Hi. unfold kalman_update.
  rewrite vmmul_symmetric by assumption.
  assert (0 <= mvmul n P h i * mvmul n P h i / (quad n P h h + r)).
  { apply Rmult_le_pos; [nra | left; apply Rinv_0_lt_compat; lra]. }
  lra.
Qed.

Lemma mvmul_ext (n : nat) (A B : Mat R) (h : Vec R) (i : nat) :
  same_on n A B -> (i < n)%nat -> mvmul n A h i = mvmul n B h i.
Proof.
  intros H Hi. unfold mvmul. apply sum_n_ext. intros k Hk.
  rewrite H by assumption. reflexivity.
Qed.

Lemma vmmul_ext (n : nat) (A B : Mat R) (h : Vec R) (j : nat) :
  same_on n A B -> (j < n)%nat -> vmmul n h A j = vmmul n h B j.
Proof.
  intros H Hj. unfold vmmul. apply sum_n_ext. intros k Hk.
  rewrite H by assumption. reflexivity.
Qed.

(** The update reads its matrix on the leading [n] x [n] part only. *)
Lemma kalman_update_ext (n : nat) (A B : Mat R) (h : Vec R) (r : R) :
  same_on n A B ->
  same_on n (kalman_update n A h r) (kalman_update n B h r).
Proof.
  intros H i j Hi Hj. unfold kalman_update.
  rewrite (quad_ext h h H), (mvmul_ext h H Hi), (vmmul_ext h H Hj),
    (H i j Hi Hj).
  reflexivity.
Qed.

(** After a scalar update of coordinate [k] with measurement variance [r]
    the variance of that coordinate is at most [r]. *)
Lemma kalman_update_unit_bound (n : nat) (P : Mat R) (k : nat) (r : R) :
  psd n P -> 0 < r -> (k < n)%nat ->
  kalman_update n P (unit_vec k) r k k <= r.
Proof.
  intros Hp Hr Hk. unfold kalman_update.
  rewrite quad_unit by assumption.
  unfold mvmul, vmmul. to_R.
  rewrite sum_n_unit_r, sum_n_unit by assumption.
  pose proof (psd_diagonal Hp Hk) as H0.
  assert (E : P k k - P k k * P k k / (P k k + r) = P k k * r / (P k k + r))
    by (field; lra).
  rewrite E.
  apply Rmult_le_reg_r with (P k k + r); [lra |].
  replace (P k k * r / (P k k + r) * (P k k + r)) with (P k k * r)
    by (field; lra).
  nra.
Qed.

(** A loop invariant that counts the turns. *)
Lemma for_loop_counted {S : Type} (P : nat -> S -> Prop) (n : nat)
    (body : nat -> S -> S) (init : S) :
  P 0%nat init ->
  (forall i s, (i < n)%nat -> P i s -> P (Datatypes.S i) (body i s)) ->
  P n (for_loop n body init).
Proof.
  unfold for_loop. intros H0 Hstep.
  assert (G : forall m a s, (a + m <= n)%nat -> P a s ->
                P (a + m)%nat (fold_left (fun s i => body i s) (seq a m) s)).
  { induction m as [| m IH]; intros a s Hle Hs.
    - rewrite Nat.add_0_r. exact Hs.
    - cbn [seq fold_left].
      replace (a + Datatypes.S m)%nat with (Datatypes.S a + m)%nat by lia.
      apply IH; [lia |]. apply Hstep; [lia | exact Hs]. }
  exact (G n 0%nat init (Nat.le_refl n) H0).
Qed.

(** One update with a positive measurement variance, by the textbook
    formula or by any matrix that agrees with it, keeps what [improves]
    asks for. *)
Lemma improves_step (n : nat) (P0 P P' : Mat R) (h : Vec R) (r : R) :
  improves n P0 P -> 0 < r -> same_on n P' (kalman_update n P h r) ->
  improves n P0 P'.
Proof.
  intros (Hs & Hp & Hd) Hr He.
  assert (Hq : 0 < quad n P h h + r) by (pose proof (Hp h); lra).
  split; [| split].
  - intros i j Hi Hj. rewrite !He by assumption.
    apply kalman_update_symmetric; assumption.
  - apply psd_ext with (A := kalman_update n P h r).
    + intros i j Hi Hj. symmetry. apply He; assumption.
    + apply kalman_update_psd; try assumption. lra.
  - intros i Hi. rewrite He by assumption.
    apply Rle_trans with (P i i); [| auto].
    apply kalman_update_diagonal; assumption.
Qed.

Lemma improves_refl (n : nat) (P : Mat R) :
  symmetric n P -> psd n P -> improves n P P.
Proof. intros Hs Hp. repeat split; try assumption. intros; apply Rle_refl. Qed.

(** Unfolds sums and embedded vectors at literal sizes. *)
Ltac unfold_sums :=
  cbv [kalman_update quad mvmul vmmul dot msub mmul outer vscale vdiv block
       col row embed unit_vec sum_n Nat.leb Nat.ltb Nat.eqb Nat.add Nat.sub
       andb];
  to_R; unfold Rdiv.

(** The quadratic form at a 3-vector placed in the attitude or in the
    velocity rows is the form of that diagonal block. *)
Lemma quad_embed (c : Mat R) (d : Vec R) (k : nat) :
  k = 3%nat \/ k = 6%nat ->
  quad 12 c (embed k 3 d) (embed k 3 d)
  = dot 3 d (mvmul 3 (block c k k) d).
Proof. intros [-> | ->]; unfold_sums; ring. Qed.

(** *** The measurement updates of the source *)

Section Updates.
Context {EXT : Externals R R}.

(** [obs_gps_pseudorange] is the textbook update of [pt_cov] along its
    local 4-vector [direction]. *)
Lemma obs_gps_pseudorange_kalman (f : filter R R) (accum sat_pos : Vec R)
    (pseudorange error : R) :
  same_on 4
    (pt_cov (fst (obs_gps_pseudorange f accum sat_pos pseudorange error)))
    (kalman_update 4 (pt_cov f) (pseudorange_direction f accum sat_pos)
       error).
Proof.
  set (d := pseudorange_direction f accum sat_pos).
  change (pt_cov (fst (obs_gps_pseudorange f accum sat_pos pseudorange error)))
    with (msub (pt_cov f)
            (outer
               (vscale (mvmul 4 (pt_cov f) d)
                  (one / (dot 4 d (mvmul 4 (pt_cov f) d) + error))%num)
               (vmmul 4 d (pt_cov f)))).
  clearbody d. intros i j Hi Hj.
  unfold kalman_update, msub, outer, vscale, quad, dot, mvmul.
  to_R. unfold Rdiv. ring.
Qed.

(** X5. In exact arithmetic, for a nonzero line of sight and a positive
    measurement variance, [obs_gps_pseudorange] replaces [pt_cov] by the
    scalar Kalman update [P - P h h' P / (h' P h + r)] along the
    direction [h] that it forms (the unit line of sight, and one for the
    clock); a symmetric positive-semidefinite [pt_cov] stays so, and no
    variance on the diagonal grows. *)
Theorem obs_gps_pseudorange_psd (f : filter R R) (accum sat_pos : Vec R)
    (pseudorange error : R) :
  norm 3 (pseudorange_line_of_sight f accum sat_pos) <> 0 ->
  symmetric 4 (pt_cov f) -> psd 4 (pt_cov f) -> 0 < error ->
  let P' := pt_cov (fst (obs_gps_pseudorange f accum sat_pos pseudorange
                           error)) in
  same_on 4 P'
    (kalman_update 4 (pt_cov f) (pseudorange_direction f accum sat_pos) error)
  /\ symmetric 4 P' /\ psd 4 P'
  /\ forall i, (i < 4)%nat -> P' i i <= pt_cov f i i.
Proof.
  intros _ Hs Hp Hr P'.
  pose proof (obs_gps_pseudorange_kalman f accum sat_pos pseudorange error)
    as He.
  split; [exact He |].
  exact (improves_step (improves_refl Hs Hp) Hr He).
Qed.

(** [obs_gps_deltarange] is the textbook update of [cov] along its local
    [direction] placed in the velocity rows. *)
Lemma obs_gps_deltarange_kalman (f : filter R R) (accum sat_vel : Vec R)
    (deltarange error : R) :
  same_on 12
    (cov (fst (obs_gps_deltarange f accum sat_vel deltarange error)))
    (kalman_update 12 (cov f)
       (embed 6 3 (deltarange_direction f accum sat_vel)) error).
Proof.
  set (d := deltarange_direction f accum sat_vel).
  change (cov (fst (obs_gps_deltarange f accum sat_vel deltarange error)))
    with (msub (cov f)
            (outer
               (vscale (mvmul 3 (block (cov f) 0 6) d)
                  (one / (dot 3 d (mvmul 3 (block (cov f) 6 6) d) + error))%num)
               (vmmul 3 d (block (cov f) 6 0)))).
  clearbody d. intros i j Hi Hj. unfold kalman_update.
  rewrite quad_embed by (right; reflexivity).
  generalize (dot 3 d (mvmul 3 (block (cov f) 6 6) d)). intros q.
  unfold_sums. ring.
Qed.

(** X6. In exact arithmetic, for a nonzero relative velocity and a
    positive measurement variance, [obs_gps_deltarange] replaces [cov] by
    the scalar Kalman update along the unit relative velocity placed in
    rows 6 to 8; a symmetric positive-semidefinite [cov] stays so, and no
    variance on the diagonal grows. *)
Theorem obs_gps_deltarange_psd (f : filter R R) (accum sat_vel : Vec R)
    (deltarange error : R) :
  norm 3 (deltarange_relative_velocity f accum sat_vel) <> 0 ->
  symmetric 12 (cov f) -> psd 12 (cov f) -> 0 < error ->
  let P' := cov (fst (obs_gps_deltarange f accum sat_vel deltarange error)) in
  same_on 12 P'
    (kalman_update 12 (cov f)
       (embed 6 3 (deltarange_direction f accum sat_vel)) error)
  /\ symmetric 12 P' /\ psd 12 P'
  /\ forall i, (i < 12)%nat -> P' i i <= cov f i i.
Proof.
  intros _ Hs Hp Hr P'.
  pose proof (obs_gps_deltarange_kalman f accum sat_vel deltarange error)
    as He.
  split; [exact He |].
  exact (improves_step (improves_refl Hs Hp) Hr He).
Qed.

(** The velocity leg of the report: three textbook updates along the unit
    vectors 6, 7 and 8. *)
Lemma pv_report_velocity_improves (f : filter R R) (vel v_error : Vec R) :
  symmetric 12 (cov f) -> psd 12 (cov f) ->
  (forall i, (i < 3)%nat -> 0 < v_error i) ->
  improves 12 (cov f) (cov (pv_report_velocity f vel v_error)).
Proof.
  intros Hs Hp Hr. unfold pv_report_velocity.
  match goal with
  | |- context [for_loop 3 ?b ?i] =>
      assert (G : improves 12 (cov f) (snd (for_loop 3 b i)))
  end.
  { apply for_loop_invariant with (P := fun s => improves 12 (cov f) (snd s)).
    - apply improves_refl; assumption.
    - intros i [u c] Hi Hc. cbn [snd] in *.
      apply improves_step
        with (P := c) (h := unit_vec (6 + i)) (r := v_error i);
        [exact Hc | apply Hr; exact Hi |].
      intros a b Ha Hb. unfold kalman_update.
      rewrite quad_unit by lia.
      destruct i as [| [| [| i]]]; [| | | lia]; unfold_sums; ring. }
  destruct (for_loop 3 _ _) as [u c]. exact G.
Qed.

Lemma pv_report_position_cov (f : filter R R) (pos p_error : Vec R) :
  cov (pv_report_position f pos p_error) = cov f.
Proof.
  unfold pv_report_position. destruct (for_loop 3 _ _) as [u p]. reflexivity.
Qed.

(** X7. In exact arithmetic [obs_gps_pv_report] with positive velocity
    variances keeps the inertial covariance [cov] symmetric and positive
    semidefinite and lets no variance on its diagonal grow: the position
    leg does not write [cov], and the velocity leg is three scalar Kalman
    updates. *)
Theorem obs_gps_pv_report_cov_psd (f : filter R R)
    (pos vel p_error v_error : Vec R) :
  symmetric 12 (cov f) -> psd 12 (cov f) ->
  (forall i, (i < 3)%nat -> 0 < v_error i) ->
  let P' := cov (obs_gps_pv_report f pos vel p_error v_error) in
  symmetric 12 P' /\ psd 12 P'
  /\ forall i, (i < 12)%nat -> P' i i <= cov f i i.
Proof.
  intros Hs Hp Hr. cbv zeta. unfold obs_gps_pv_report.
  set (f1 := pv_report_position f pos p_error).
  assert (E : cov f1 = cov f) by apply pv_report_position_cov.
  rewrite <- E in Hs, Hp.
  destruct (@pv_report_velocity_improves f1 vel v_error Hs Hp Hr)
    as (A & B & C).
  rewrite E in C. split; [exact A | split; [exact B | exact C]].
Qed.

(** X18. In exact arithmetic, after [obs_gps_pv_report] with positive
    velocity variances on a symmetric positive-semidefinite [cov], the
    variance of each velocity component is at most the variance that the
    report gave for it. *)
Theorem obs_gps_pv_report_velocity_bound (f : filter R R)
    (pos vel p_error v_error : Vec R) (k : nat) :
  symmetric 12 (cov f) -> psd 12 (cov f) ->
  (forall i, (i < 3)%nat -> 0 < v_error i) -> (k < 3)%nat ->
  cov (obs_gps_pv_report f pos vel p_error v_error) (6 + k)%nat (6 + k)%nat
  <= v_error k.
Proof.
  intros Hs Hp Hr Hk. unfold obs_gps_pv_report.
  set (f1 := pv_report_position f pos p_error).
  assert (E : cov f1 = cov f) by apply pv_report_position_cov.
  rewrite <- E in Hs, Hp. clearbody f1. clear E.
  unfold pv_report_velocity.
  match goal with
  | |- context [for_loop 3 ?b ?i] =>
      assert (G : symmetric 12 (snd (for_loop 3 b i))
                  /\ psd 12 (snd (for_loop 3 b i))
                  /\ forall m, (m < 3)%nat ->
                       snd (for_loop 3 b i) (6 + m)%nat (6 + m)%nat
                       <= v_error m)
  end.
  { apply for_loop_counted
      with (P := fun n s =>
                   symmetric 12 (snd s) /\ psd 12 (snd s)
                   /\ forall m, (m < n)%nat ->
                        snd s (6 + m)%nat (6 + m)%nat <= v_error m).
    - split; [exact Hs | split; [exact Hp | intros m Hm; lia]].
    - intros i [u c] Hi (Hcs & Hcp & Hcb). cbn [snd] in *.
      match goal with
      | |- symmetric 12 ?c' /\ _ =>
          assert (He : same_on 12 c'
                         (kalman_update 12 c (unit_vec (6 + i)) (v_error i)))
      end.
      { intros a b Ha Hb. unfold kalman_update.
        rewrite quad_unit by lia.
        destruct i as [| [| [| i]]]; [| | | lia]; unfold_sums; ring. }
      destruct (improves_step (improves_refl Hcs Hcp) (Hr i Hi) He)
        as (Hs' & Hp' & Hd').
      split; [exact Hs' | split; [exact Hp' |]].
      intros m Hm.
      destruct (Nat.eq_dec m i) as [-> | Hne].
      + rewrite He by lia.
        apply kalman_update_unit_bound; [exact Hcp | apply Hr; exact Hi | lia].
      + apply Rle_trans with (c (6 + m)%nat (6 + m)%nat);
          [apply Hd'; lia | apply Hcb; lia]. }
  destruct (for_loop 3 _ _) as [u c]. cbn [snd] in G.
  cbn [cov set_cov set_avg_state]. apply G. exact Hk.
Qed.

(** One turn of the loop of [obs_vector] is the textbook update along the
    column placed in the attitude rows. *)
Lemma obs_vector_turn (c : Mat R) (h : Vec R) (error : R) :
  same_on 12
    (msub c
       (mmul 3
          (outer
             (vdiv (mvmul 3 (block c 0 3) h)
                (error + dot 3 (vmmul 3 h (block c 3 3)) h)%num) h)
          (block c 3 0)))
    (kalman_update 12 c (embed 3 3 h) error).
Proof.
  intros a b Ha Hb. unfold kalman_update.
  rewrite quad_embed by (left; reflexivity).
  replace (dot 3 h (mvmul 3 (block c 3 3) h) + error)
    with (error + dot 3 (vmmul 3 h (block c 3 3)) h)%num
    by (unfold_sums; ring).
  generalize (error + dot 3 (vmmul 3 h (block c 3 3)) h)%num.
  intros q. unfold_sums. ring.
Qed.

Lemma obs_vector_kalman (f : filter R R) (ref obs : Vec R) (error : R) :
  same_on 12 (cov (obs_vector f ref obs error))
    (kalman_update 12
       (kalman_update 12 (cov f) (embed 3 3 (obs_vector_basis f ref obs 0))
          error)
       (embed 3 3 (obs_vector_basis f ref obs 1)) error).
Proof.
  set (h := obs_vector_basis f ref obs).
  set (turn := fun (c : Mat R) (hh : Vec R) =>
         msub c
           (mmul 3
              (outer
                 (vdiv (mvmul 3 (block c 0 3) hh)
                    (error + dot 3 (vmmul 3 hh (block c 3 3)) hh)%num) hh)
              (block c 3 0))).
  change (cov (obs_vector f ref obs error))
    with (turn (turn (cov f) (h 0%nat)) (h 1%nat)).
  clearbody h.
  intros a b Ha Hb.
  transitivity
    (kalman_update 12 (turn (cov f) (h 0%nat)) (embed 3 3 (h 1%nat)) error
       a b).
  - exact (obs_vector_turn (turn (cov f) (h 0%nat)) (h 1%nat) error Ha Hb).
  - apply kalman_update_ext; [| assumption | assumption].
    apply obs_vector_turn.
Qed.

(** X8. In exact arithmetic, when neither the residual rotation vector
    nor the cross product that gives the first column of [h_trans] is
    zero (the two vectors that [obs_vector] normalises) and the
    measurement variance is positive, [obs_vector] replaces [cov] by two
    successive scalar Kalman updates, along the first and then the second
    column of [h_trans] placed in the attitude rows 3 to 5; a symmetric
    positive-semidefinite [cov] stays so, and no variance on the diagonal
    grows. *)
Theorem obs_vector_psd (f : filter R R) (ref obs : Vec R) (error : R) :
  norm 3 (obs_vector_residual f ref obs) <> 0 ->
  norm 3 (cross3 ref (obs_vector_axis f ref obs)) <> 0 ->
  symmetric 12 (cov f) -> psd 12 (cov f) -> 0 < error ->
  let h := obs_vector_basis f ref obs in
  let P' := cov (obs_vector f ref obs error) in
  same_on 12 P'
    (kalman_update 12
       (kalman_update 12 (cov f) (embed 3 3 (h 0%nat)) error)
       (embed 3 3 (h 1%nat)) error)
  /\ symmetric 12 P' /\ psd 12 P'
  /\ forall i, (i < 12)%nat -> P' i i <= cov f i i.
Proof.
  intros _ _ Hs Hp Hr h P'.
  pose proof (obs_vector_kalman f ref obs error) as He.
  split; [exact He |].
  assert (H1 : improves 12 (cov f)
                 (kalman_update 12 (cov f) (embed 3 3 (h 0%nat)) error)).
  { apply improves_step
      with (P := cov f) (h := embed 3 3 (h 0%nat)) (r := error);
      [apply improves_refl; assumption | exact Hr |].
    intros a b _ _. reflexivity. }
  exact (improves_step H1 Hr He).
Qed.
End Updates.

(** *** The covariance after a prediction *)

(** Rewrites every entry of [c] below the diagonal, at literal indices, into
    its mirror above. *)
Ltac mirror_entries H c :=
  repeat match goal with
    | |- context [c ?a ?b] =>
        let t := eval cbv in (Nat.ltb b a) in
        match t with
        | true => rewrite (H a b) by lia
        end
    end.

(** Case analysis on an index below twelve. *)
Ltac enumerate12 i Hi :=
  let E := fresh "E" in
  assert (E : In i (seq 0 12)) by (apply in_seq; lia);
  clear Hi; cbn [seq In] in E;
  repeat match goal with
    | E : _ \/ _ |- _ => destruct E as [E | E]
    | E : False |- _ => contradiction
    end;
  subst i.

Lemma transition_row_spec (dtR dtQ : Mat R) (v : Vec R) (j : nat) :
  (j < 12)%nat ->
  sum_n 12 (fun k => v k * transition_matrix dtR dtQ j k)
  = transition_row dtR dtQ v j.
Proof.
  intros Hj. enumerate12 j Hj;
    cbv [transition_row transition_matrix midentity mzero set_block in_block
         sum_n Nat.eqb Nat.leb Nat.ltb Nat.add Nat.sub andb];
    to_R; ring.
Qed.

Lemma mmul_transition (c dtR dtQ : Mat R) (i k : nat) :
  (i < 12)%nat ->
  mmul 12 (transition_matrix dtR dtQ) c i k
  = transition_row dtR dtQ (fun l => c l k) i.
Proof.
  intros Hi. enumerate12 i Hi;
    cbv [mmul transition_row transition_matrix midentity mzero set_block
         in_block sum_n Nat.eqb Nat.leb Nat.ltb Nat.add Nat.sub andb];
    to_R; ring.
Qed.

(** The dense product with the zero blocks of [A] left out. *)
Lemma propagate_dense_rows (c dtR dtQ : Mat R) (i j : nat) :
  (i < 12)%nat -> (j < 12)%nat ->
  propagate_dense c dtR dtQ i j
  = transition_row dtR dtQ
      (fun k => transition_row dtR dtQ (fun l => c l k) i) j.
Proof.
  intros Hi Hj.
  transitivity
    (transition_row dtR dtQ
       (fun k => mmul 12 (transition_matrix dtR dtQ) c i k) j).
  - exact (transition_row_spec dtR dtQ
             (fun k => mmul 12 (transition_matrix dtR dtQ) c i k) Hj).
  - unfold transition_row. rewrite !mmul_transition by assumption.
    reflexivity.
Qed.

(** The block-sparse propagation computes the dense product [A * cov * A']
    on every symmetric covariance. *)
Lemma propagate_cov_dense (c dtR dtQ : Mat R) :
  symmetric 12 c ->
  same_on 12 (propagate_cov c dtR dtQ) (propagate_dense c dtR dtQ).
Proof.
  intros H i j Hi Hj. rewrite propagate_dense_rows by assumption.
  unfold propagate_cov; cbv zeta.
  rewrite symmetrize_spec.
  enumerate12 i Hi; enumerate12 j Hj;
    cbv [lower_block block_addr existsb fst snd transition_row orb
         sgemm sgemmm sgemmm_diag ssyr2k add_block set_block in_block block
         madd mmul transpose sum_n Nat.leb Nat.ltb Nat.add Nat.sub andb];
    to_R; mirror_entries H c; ring.
Qed.

Section Predict.
Context {EXT : Externals R R}.

(** The covariance after [predict_ecef] is the propagated one plus the
    process noise times [dt] on the diagonal. *)
Lemma predict_ecef_cov_noise (f : filter R R) (gyro_meas accel_meas : Vec R)
    (dt : R) (i j : nat) :
  (i < 12)%nat -> (j < 12)%nat ->
  cov (predict_ecef f gyro_meas accel_meas dt) i j
  = propagate_cov (cov f) (predict_dtR f dt) (predict_dtQ f accel_meas dt)
      i j
    + (if i =? j then process_noise f i * dt else 0).
Proof.
  intros Hi Hj. unfold predict_ecef; cbn [cov].
  change (mscale_l (- dt)%num
            (toRotationMatrix (qconj (qcast_d2f (orientation (avg_state f))))))
    with (predict_dtR f dt).
  change (mscale_l (- dt)%num
            (cross
               (vopp
                  (qrot (qconj (qcast_d2f (orientation (avg_state f))))
                     (vsub accel_meas (accel_bias (avg_state f)))))))
    with (predict_dtQ f accel_meas dt).
  unfold add_diagonal, vscale, process_noise.
  generalize (propagate_cov (cov f) (predict_dtR f dt)
                (predict_dtQ f accel_meas dt)).
  intros c. to_R.
  index_split; cbn [andb]; try ring;
    repeat match goal with
      | |- context [?g (?a - ?b)%nat] =>
          progress replace (a - b)%nat with a by lia
      end; try ring.
  all: subst; try ring.
Qed.

(** X1. In exact arithmetic and on a symmetric [cov], the sequence of
    block operations in [predict_ecef] (the [sgemm], [sgemmm] and [ssyr2k]
    calls and the symmetrisation loop) computes [A * cov * A'] for the
    transition matrix [A] of the branch that the preprocessor leaves out,
    plus the process noise times [dt] on the diagonal. *)
Theorem predict_ecef_cov_dense (f : filter R R) (gyro_meas accel_meas : Vec R)
    (dt : R) (i j : nat) :
  symmetric 12 (cov f) -> (i < 12)%nat -> (j < 12)%nat ->
  cov (predict_ecef f gyro_meas accel_meas dt) i j
  = mmul 12
      (mmul 12
         (transition_matrix (predict_dtR f dt) (predict_dtQ f accel_meas dt))
         (cov f))
      (transpose
         (transition_matrix (predict_dtR f dt) (predict_dtQ f accel_meas dt)))
      i j
    + (if i =? j then process_noise f i * dt else 0).
Proof.
  intros Hs Hi Hj.
  rewrite predict_ecef_cov_noise by assumption.
  rewrite (propagate_cov_dense (predict_dtR f dt)
             (predict_dtQ f accel_meas dt) Hs Hi Hj).
  reflexivity.
Qed.

(** X2. In exact arithmetic [predict_ecef] keeps both covariances positive
    semidefinite when [cov] is symmetric and neither the time step nor a
    process-noise member is negative. *)
Theorem predict_ecef_psd (f : filter R R) (gyro_meas accel_meas : Vec R)
    (dt : R) :
  symmetric 12 (cov f) -> psd 12 (cov f) -> psd 4 (pt_cov f) ->
  0 <= dt ->
  (forall i, (i < 3)%nat ->
     0 <= gyro_stability_noise f i /\ 0 <= gyro_white_noise f i
     /\ 0 <= accel_white_noise f i /\ 0 <= accel_stability_noise f i) ->
  0 <= clock_stability_noise f ->
  psd 12 (cov (predict_ecef f gyro_meas accel_meas dt))
  /\ psd 4 (pt_cov (predict_ecef f gyro_meas accel_meas dt)).
Proof.
  intros Hs Hp Hpt Hdt Hn Hc. split.
  - apply psd_ext
      with (A := fun i j =>
                   propagate_dense (cov f) (predict_dtR f dt)
                     (predict_dtQ f accel_meas dt) i j
                   + if i =? j then process_noise f i * dt else 0).
    + intros i j Hi Hj.
      rewrite predict_ecef_cov_noise by assumption.
      rewrite (propagate_cov_dense (predict_dtR f dt)
                 (predict_dtQ f accel_meas dt) Hs Hi Hj).
      reflexivity.
    + apply psd_add_diagonal with (w := fun i => process_noise f i * dt).
      * apply psd_congruence, Hp.
      * intros i Hi. unfold process_noise.
        index_split; apply Rmult_le_pos; try assumption; apply Hn; lia.
  - intros x. unfold predict_ecef; cbn [pt_cov].
    pose proof (Hpt x) as H1.
    pose proof (Hp (embed 6 3 x)) as H2.
    rewrite quad_embed in H2 by (right; reflexivity).
    destruct (Hn 0%nat ltac:(lia)) as (_ & _ & Ha0 & _).
    destruct (Hn 1%nat ltac:(lia)) as (_ & _ & Ha1 & _).
    destruct (Hn 2%nat ltac:(lia)) as (_ & _ & Ha2 & _).
    match goal with
    | |- 0 <= ?q =>
        replace q with
          (quad 4 (pt_cov f) x x
           + dt * dt * dot 3 x (mvmul 3 (block (cov f) 6 6) x)
           + (accel_white_noise f 0%nat * (x 0%nat * x 0%nat)
              + accel_white_noise f 1%nat * (x 1%nat * x 1%nat)
              + accel_white_noise f 2%nat * (x 2%nat * x 2%nat))
             * (/ 2 * (dt * dt))
           + clock_stability_noise f * dt * (x 3%nat * x 3%nat))
    end.
    + assert (T1 : 0 <= dt * dt * dot 3 x (mvmul 3 (block (cov f) 6 6) x))
        by (apply Rmult_le_pos; [nra | exact H2]).
      assert (T2 : 0 <= (accel_white_noise f 0%nat * (x 0%nat * x 0%nat)
                         + accel_white_noise f 1%nat * (x 1%nat * x 1%nat)
                         + accel_white_noise f 2%nat * (x 2%nat * x 2%nat))
                        * (/ 2 * (dt * dt))).
      { apply Rmult_le_pos; [| nra].
        apply Rplus_le_le_0_compat; [apply Rplus_le_le_0_compat |];
          (apply Rmult_le_pos; [assumption | nra]). }
      assert (T3 : 0 <= clock_stability_noise f * dt * (x 3%nat * x 3%nat))
        by (apply Rmult_le_pos; [apply Rmult_le_pos; assumption | nra]).
      lra.
    + cbv [quad set_entry add_diagonal add_block set_block in_block block madd
           mscale_l vscale dot mvmul sum_n Nat.leb Nat.ltb Nat.eqb Nat.add
           Nat.sub andb].
      to_R. unfold Rdiv. ring.
Qed.
End Predict.

(** *** The filter placed on the equator *)

Lemma on_equator_psd : psd 12 (cov on_equator).
Proof.
  apply psd_diagonal_matrix with (d := fun i => cov on_equator i i).
  - intros i j Hi Hj.
    destruct (Nat.eqb_spec i j) as [-> | Hne]; [reflexivity |].
    unfold on_equator, init_position.
    change (cov (clear_covariance_block ?f 12 ?r)) with (cov f).
    cbn [cov set_avg_state]. rewrite constructor_cov.
    destruct (Nat.eqb_spec i j); [contradiction | reflexivity].
  - intros i Hi. unfold on_equator, init_position.
    change (cov (clear_covariance_block ?f 12 ?r)) with (cov f).
    cbn [cov set_avg_state]. rewrite constructor_cov, Nat.eqb_refl.
    cbn [negb]. pose proof PI_RGT_0.
    index_split; nra.
Qed.

Lemma on_equator_pt_cov (i j : nat) :
  (i < 4)%nat -> (j < 4)%nat ->
  pt_cov on_equator i j
  = if i =? j then (if i <? 3 then 100 else 300 * 300) else 0.
Proof.
  intros Hi Hj. unfold on_equator, init_position.
  rewrite clear_position_block. unfold in_block, asDiagonal, vec3. to_R.
  index_split; cbn [andb]; try reflexivity; try lia.
  all: destruct i as [| [| [| i]]]; try reflexivity; lia.
Qed.

Lemma on_equator_pt_symmetric : symmetric 4 (pt_cov on_equator).
Proof.
  intros i j Hi Hj. rewrite !on_equator_pt_cov by assumption.
  rewrite (Nat.eqb_sym j i).
  destruct (Nat.eqb_spec i j); [subst |]; reflexivity.
Qed.

Lemma on_equator_pt_psd : psd 4 (pt_cov on_equator).
Proof.
  apply psd_diagonal_matrix
    with (d := fun i => if (i <? 3)%nat then 100 else 300 * 300).
  - exact on_equator_pt_cov.
  - intros i _. destruct (i <? 3)%nat; lra.
Qed.

Lemma on_equator_noise (i : nat) :
  0 <= gyro_stability_noise on_equator i
  /\ 0 <= gyro_white_noise on_equator i
  /\ 0 <= accel_white_noise on_equator i
  /\ 0 <= accel_stability_noise on_equator i.
Proof. change (0 <= 0 /\ 0 <= 0 /\ 0 <= 0 /\ 0 <= 0). lra. Qed.

Lemma predict_ecef_cov_dense_witness :
  symmetric 12 (cov on_equator) /\ (3 < 12)%nat /\ (6 < 12)%nat
  /\ cov (predict_ecef (EXT := real_externals) on_equator vzero vzero
            (1 / 100)) 3%nat 6%nat
     = mmul 12
         (mmul 12
            (transition_matrix (predict_dtR on_equator (1 / 100))
               (predict_dtQ on_equator vzero (1 / 100)))
            (cov on_equator))
         (transpose
            (transition_matrix (predict_dtR on_equator (1 / 100))
               (predict_dtQ on_equator vzero (1 / 100))))
         3%nat 6%nat
       + 0.
Proof.
  assert (H3 : (3 < 12)%nat) by lia.
  assert (H6 : (6 < 12)%nat) by lia.
  split; [exact on_equator_symmetric |]. split; [exact H3 |].
  split; [exact H6 |].
  exact (@predict_ecef_cov_dense real_externals on_equator vzero vzero
           (1 / 100) 3%nat 6%nat on_equator_symmetric H3 H6).
Defined.

Lemma predict_ecef_psd_witness :
  symmetric 12 (cov on_equator) /\ psd 12 (cov on_equator)
  /\ psd 4 (pt_cov on_equator) /\ 0 <= 1 / 100
  /\ (forall i, (i < 3)%nat ->
        0 <= gyro_stability_noise on_equator i
        /\ 0 <= gyro_white_noise on_equator i
        /\ 0 <= accel_white_noise on_equator i
        /\ 0 <= accel_stability_noise on_equator i)
  /\ 0 <= clock_stability_noise on_equator
  /\ psd 12 (cov (predict_ecef (EXT := real_externals) on_equator vzero vzero
                    (1 / 100))).
Proof.
  assert (Hdt : 0 <= 1 / 100) by lra.
  assert (Hn : forall i, (i < 3)%nat ->
             0 <= gyro_stability_noise on_equator i
             /\ 0 <= gyro_white_noise on_equator i
             /\ 0 <= accel_white_noise on_equator i
             /\ 0 <= accel_stability_noise on_equator i)
    by (intros i _; apply on_equator_noise).
  assert (Hc : 0 <= clock_stability_noise on_equator)
    by (change (0 <= 0); lra).
  split; [exact on_equator_symmetric |].
  split; [exact on_equator_psd |].
  split; [exact on_equator_pt_psd |].
  split; [exact Hdt |]. split; [exact Hn |]. split; [exact Hc |].
  exact (proj1 (@predict_ecef_psd real_externals on_equator vzero vzero
                  (1 / 100) on_equator_symmetric on_equator_psd
                  on_equator_pt_psd Hdt Hn Hc)).
Defined.

Lemma obs_gps_pv_report_cov_psd_witness :
  symmetric 12 (cov on_equator) /\ psd 12 (cov on_equator)
  /\ (forall i, (i < 3)%nat -> 0 < vec3 1 1 1 i)
  /\ psd 12 (cov (obs_gps_pv_report (EXT := real_externals) on_equator
                    (vec3 6370001 0 0) vzero (vec3 1 1 1) (vec3 1 1 1))).
Proof.
  assert (Hr : forall i, (i < 3)%nat -> 0 < vec3 1 1 1 i).
  { intros i _. destruct i as [| [| i]]; simpl; lra. }
  split; [exact on_equator_symmetric |].
  split; [exact on_equator_psd |]. split; [exact Hr |].
  exact (proj1 (proj2 (@obs_gps_pv_report_cov_psd real_externals on_equator
                         (vec3 6370001 0 0) vzero (vec3 1 1 1) (vec3 1 1 1)
                         on_equator_symmetric on_equator_psd Hr))).
Defined.

Lemma obs_gps_pv_report_velocity_bound_witness :
  symmetric 12 (cov on_equator) /\ psd 12 (cov on_equator)
  /\ (forall i, (i < 3)%nat -> 0 < vec3 1 1 1 i) /\ (0 < 3)%nat
  /\ cov (obs_gps_pv_report (EXT := real_externals) on_equator
            (vec3 6370001 0 0) vzero (vec3 1 1 1) (vec3 1 1 1)) 6%nat 6%nat
     <= 1.
Proof.
  assert (Hr : forall i, (i < 3)%nat -> 0 < vec3 1 1 1 i).
  { intros i _. destruct i as [| [| i]]; simpl; lra. }
  assert (H0 : (0 < 3)%nat) by lia.
  split; [exact on_equator_symmetric |].
  split; [exact on_equator_psd |]. split; [exact Hr |]. split; [exact H0 |].
  exact (@obs_gps_pv_report_velocity_bound real_externals on_equator
           (vec3 6370001 0 0) vzero (vec3 1 1 1) (vec3 1 1 1) 0%nat
           on_equator_symmetric on_equator_psd Hr H0).
Defined.

(** *** Vectors that are not zero *)

Lemma sum_squares_zero (a b c : R) :
  a * a + b * b + c * c = 0 -> a = 0 /\ b = 0 /\ c = 0.
Proof. intros H. repeat split; nra. Qed.

Lemma norm3_nonneg (v : Vec R) : 0 <= norm 3 v.
Proof. unfold norm. apply sqrt_pos. Qed.

Lemma norm3_zero_iff (v : Vec R) :
  norm 3 v = 0 <-> forall i, (i < 3)%nat -> v i = 0.
Proof.
  unfold norm, squaredNorm, dot, sum_n. to_R. split.
  - intros H.
    assert (E : v 0%nat * v 0%nat + v 1%nat * v 1%nat + v 2%nat * v 2%nat = 0).
    { apply sqrt_eq_0; [nra | exact H]. }
    destruct (sum_squares_zero E) as (H0 & H1 & H2).
    intros i Hi. destruct i as [| [| [| i]]]; [assumption .. | lia].
  - intros H. rewrite !H by lia.
    replace (0 * 0 + 0 * 0 + 0 * 0) with 0 by ring. apply sqrt_0.
Qed.

Lemma norm3_component (v : Vec R) (i : nat) :
  (i < 3)%nat -> v i <> 0 -> norm 3 v <> 0.
Proof.
  intros Hi Hv Hn. apply Hv. exact (proj1 (norm3_zero_iff v) Hn i Hi).
Qed.

Lemma norm3_positive (v : Vec R) : norm 3 v <> 0 -> 0 < norm 3 v.
Proof. intros H. pose proof (norm3_nonneg v). lra. Qed.

(** The first component of [log_R] does not vanish when the first
    component of the vector part does not and the scalar part is
    positive. *)
Lemma log_R_component (q : Quaternion R) :
  qx q <> 0 -> 0 < qw q -> log_R q 0%nat <> 0.
Proof.
  intros Hx Hw. unfold log_R.
  assert (Hn : norm 3 (qvec q) <> 0)
    by (apply norm3_component with (i := 0%nat); [lia | exact Hx]).
  destruct (Req_dec_T (norm 3 (qvec q)) 0) as [E | _]; [contradiction |].
  pose proof (norm3_positive (qvec q) Hn) as Hp.
  set (n := norm 3 (qvec q)) in *.
  assert (Ha : 0 < atan (n / qw q)).
  { rewrite <- atan_0. apply atan_increasing.
    apply Rdiv_lt_0_compat; assumption. }
  unfold vscale, qvec, vec3. to_R.
  apply Rmult_integral_contrapositive_currified; [exact Hx |].
  apply Rgt_not_eq. apply Rdiv_lt_0_compat; lra.
Qed.

Lemma upward_residual :
  obs_vector_residual (EXT := real_externals) on_equator (vec3 0 0 1)
    (vec3 0 1 0) 0%nat <> 0.
Proof.
  unfold obs_vector_residual. cbv zeta.
  change (log_f ?q) with (log_R q).
  change (setFromTwoVectors ?a ?b) with (setFromTwoVectors_R a b).
  set (obs_ref := qrot _ _).
  assert (E0 : obs_ref 0%nat = 0)
    by (cbv - [Rplus Rminus Rmult Rdiv Rinv Ropp IZR]; ring).
  assert (E1 : obs_ref 1%nat = 1)
    by (cbv - [Rplus Rminus Rmult Rdiv Rinv Ropp IZR]; ring).
  assert (E2 : obs_ref 2%nat = 0)
    by (cbv - [Rplus Rminus Rmult Rdiv Rinv Ropp IZR]; ring).
  clearbody obs_ref.
  assert (Hr : norm 3 (vec3 0 0 1) = 1).
  { unfold norm, squaredNorm, dot, sum_n, vec3. to_R.
    replace (0 * 0 + 0 * 0 + 1 * 1) with 1 by ring. apply sqrt_1. }
  assert (Ho : norm 3 obs_ref = 1).
  { unfold norm, squaredNorm, dot, sum_n. to_R. rewrite E0, E1, E2.
    replace (0 * 0 + 1 * 1 + 0 * 0) with 1 by ring. apply sqrt_1. }
  apply log_R_component.
  - unfold setFromTwoVectors_R; cbn [qx]. unfold normalized, vdiv.
    rewrite Hr, Ho. unfold cross3, dot, sum_n, vec3. to_R.
    rewrite E0, E1, E2.
    replace ((1 + (0 / 1 * (0 / 1) + 1 / 1 * (0 / 1) + 0 / 1 * (1 / 1))) * 2)
      with 2 by field.
    assert (0 < R_sqrt.sqrt 2) by (apply sqrt_lt_R0; lra).
    replace ((0 / 1 * (0 / 1) - 1 / 1 * (1 / 1)) * (1 / R_sqrt.sqrt 2))
      with (- / R_sqrt.sqrt 2) by (field; lra).
    apply Ropp_neq_0_compat, Rinv_neq_0_compat. lra.
  - unfold setFromTwoVectors_R; cbn [qw]. unfold normalized, vdiv.
    rewrite Hr, Ho. unfold dot, sum_n, vec3. to_R. rewrite E0, E1, E2.
    replace ((1 + (0 / 1 * (0 / 1) + 1 / 1 * (0 / 1) + 0 / 1 * (1 / 1))) * 2)
      with 2 by field.
    assert (0 < R_sqrt.sqrt 2) by (apply sqrt_lt_R0; lra).
    lra.
Qed.

Lemma upward_residual_norm :
  norm 3 (obs_vector_residual (EXT := real_externals) on_equator (vec3 0 0 1)
            (vec3 0 1 0)) <> 0.
Proof.
  apply norm3_component with (i := 0%nat); [lia | exact upward_residual].
Qed.

Lemma upward_cross_norm :
  norm 3
    (cross3 (vec3 0 0 1)
       (obs_vector_axis (EXT := real_externals) on_equator (vec3 0 0 1)
          (vec3 0 1 0))) <> 0.
Proof.
  pose proof upward_residual as H0. pose proof upward_residual_norm as Hn.
  unfold obs_vector_axis; cbv zeta.
  set (v := obs_vector_residual on_equator (vec3 0 0 1) (vec3 0 1 0)) in *.
  clearbody v.
  destruct (ltb _ (norm 3 (vsub (vec3 0 0 1) (normalized 3 v)))).
  - apply norm3_component with (i := 1%nat); [lia |].
    unfold cross3, vec3, normalized, vdiv.
    set (nv := norm 3 v) in *. clearbody nv. to_R.
    replace (1 * (v 0%nat / nv) - 0 * (v 2%nat / nv))
      with (v 0%nat * / nv) by (unfold Rdiv; ring).
    apply Rmult_integral_contrapositive_currified; [exact H0 |].
    apply Rinv_neq_0_compat. exact Hn.
  - destruct (ltb _ _).
    + apply norm3_component with (i := 1%nat); [lia |].
      unfold cross3, vec3. to_R. lra.
    + apply norm3_component with (i := 0%nat); [lia |].
      unfold cross3, vec3. to_R. lra.
Qed.

Lemma on_equator_line_of_sight :
  norm 3 (pseudorange_line_of_sight on_equator vzero (vec3 26000000 0 0))
  <> 0.
Proof.
  apply norm3_component with (i := 0%nat); [lia |].
  change (6370000 + 0 - 26000000 <> 0). lra.
Qed.

Lemma on_equator_relative_velocity :
  norm 3 (deltarange_relative_velocity on_equator vzero (vec3 0 3000 0))
  <> 0.
Proof.
  apply norm3_component with (i := 1%nat); [lia |].
  change (0 + 0 - 3000 <> 0). lra.
Qed.

Lemma obs_gps_pseudorange_psd_witness :
  norm 3 (pseudorange_line_of_sight on_equator vzero (vec3 26000000 0 0))
  <> 0
  /\ symmetric 4 (pt_cov on_equator) /\ psd 4 (pt_cov on_equator) /\ 0 < 1
  /\ psd 4 (pt_cov (fst (obs_gps_pseudorange on_equator vzero
                           (vec3 26000000 0 0) 19630000 1))).
Proof.
  assert (Hr : 0 < 1) by lra.
  split; [exact on_equator_line_of_sight |].
  split; [exact on_equator_pt_symmetric |].
  split; [exact on_equator_pt_psd |]. split; [exact Hr |].
  exact (proj1 (proj2 (proj2
           (@obs_gps_pseudorange_psd on_equator vzero (vec3 26000000 0 0)
              19630000 1 on_equator_line_of_sight on_equator_pt_symmetric
              on_equator_pt_psd Hr)))).
Defined.

Lemma obs_gps_deltarange_psd_witness :
  norm 3 (deltarange_relative_velocity on_equator vzero (vec3 0 3000 0))
  <> 0
  /\ symmetric 12 (cov on_equator) /\ psd 12 (cov on_equator) /\ 0 < 1
  /\ psd 12 (cov (fst (obs_gps_deltarange on_equator vzero (vec3 0 3000 0)
                         3000 1))).
Proof.
  assert (Hr : 0 < 1) by lra.
  split; [exact on_equator_relative_velocity |].
  split; [exact on_equator_symmetric |].
  split; [exact on_equator_psd |]. split; [exact Hr |].
  exact (proj1 (proj2 (proj2
           (@obs_gps_deltarange_psd on_equator vzero (vec3 0 3000 0) 3000 1
              on_equator_relative_velocity on_equator_symmetric
              on_equator_psd Hr)))).
Defined.
Lemma obs_vector_psd_witness :
  norm 3 (obs_vector_residual (EXT := real_externals) on_equator (vec3 0 0 1)
            (vec3 0 1 0)) <> 0
  /\ norm 3
       (cross3 (vec3 0 0 1)
          (obs_vector_axis (EXT := real_externals) on_equator (vec3 0 0 1)
             (vec3 0 1 0))) <> 0
  /\ symmetric 12 (cov on_equator) /\ psd 12 (cov on_equator) /\ 0 < 1
  /\ psd 12 (cov (obs_vector (EXT := real_externals) on_equator
                    (vec3 0 0 1) (vec3 0 1 0) 1)).
Proof.
  assert (Hr : 0 < 1) by lra.
  split; [exact upward_residual_norm |].
  split; [exact upward_cross_norm |].
  split; [exact on_equator_symmetric |].
  split; [exact on_equator_psd |]. split; [exact Hr |].
  exact (proj1 (proj2 (proj2
           (@obs_vector_psd real_externals on_equator (vec3 0 0 1)
              (vec3 0 1 0) 1 upward_residual_norm upward_cross_norm
              on_equator_symmetric on_equator_psd Hr)))).
Defined.

End CovarianceFacts.

(** ** The distances that the filter reports, in exact arithmetic *)

Module DiagnosticFacts.
Import Exact ExactFacts Quadratic CovarianceFacts.
Local Open Scope R_scope.

(** X12. [gyro_bias_error] and [accel_bias_error] are distances: never
    negative, and zero exactly when the estimated bias equals the
    argument in each of the three components. *)
Theorem bias_error_zero_iff (f : filter R R) (bias : Vec R) :
  (0 <= gyro_bias_error f bias
   /\ (gyro_bias_error f bias = 0
       <-> forall i, (i < 3)%nat -> gyro_bias (avg_state f) i = bias i))
  /\ (0 <= accel_bias_error f bias
      /\ (accel_bias_error f bias = 0
          <-> forall i, (i < 3)%nat -> accel_bias (avg_state f) i = bias i)).
Proof.
  unfold gyro_bias_error, accel_bias_error.
  split; (split; [apply norm3_nonneg |]); rewrite norm3_zero_iff;
    unfold vsub; to_R; split; intros H i Hi; specialize (H i Hi); lra.
Qed.

Section Distance.
Context {EXT : Externals R R}.
Variable lu_solve : nat -> Mat R -> Vec R -> Vec R.

Lemma qmul_conj_self (q : Quaternion R) :
  squaredNorm 4 (coeffs q) = 1 -> qmul (qconj q) q = qidentity.
Proof.
  destruct q as [w x y z].
  unfold squaredNorm, dot, sum_n, coeffs, qmul, qconj, qidentity;
    cbn [qw qx qy qz]. to_R. intros H.
  f_equal; try ring. rewrite <- H. ring.
Qed.

Lemma sigma_point_difference_self (ret0 : Vec R) (s : state R R) (i : nat) :
  (forall k, (k < 3)%nat -> log_d qidentity k = 0) ->
  squaredNorm 4 (coeffs (orientation s)) = 1 ->
  (i < 16)%nat -> sigma_point_difference ret0 s s i = 0.
Proof.
  intros Hlog Hq Hi. unfold sigma_point_difference.
  assert (Hd : ltb (dot 4 (coeffs (orientation s)) (coeffs (orientation s)))
                 zero = false).
  { change (dot 4 (coeffs (orientation s)) (coeffs (orientation s)))
      with (squaredNorm 4 (coeffs (orientation s))).
    rewrite Hq. cbv beta iota delta [ltb zero R_Num].
    destruct (Rlt_dec 1 0); [lra | reflexivity]. }
  rewrite Hd, (qmul_conj_self Hq).
  unfold set_segment, vsub, vcast_d2f. to_R.
  index_split; cbn [andb]; try lra; try (rewrite Hlog by lia; reflexivity).
Qed.

(** X11. In exact arithmetic, with a [log] that sends the identity
    quaternion to zero and a mean of unit orientation, every component of
    [sigma_point_difference] of the mean with itself is zero; and when
    the two LU solves return solutions of their systems, as they do for
    covariances that are not singular, [mahalanobis_distance] of the
    filter's own mean is zero. *)
Theorem mahalanobis_distance_self (ret0 : Vec R) (f : filter R R) :
  let delta := sigma_point_difference ret0 (avg_state f) (avg_state f) in
  (forall k, (k < 3)%nat -> log_d qidentity k = 0) ->
  squaredNorm 4 (coeffs (orientation (avg_state f))) = 1 ->
  (forall i, (i < 12)%nat ->
     mvmul 12 (cov f) (lu_solve 12 (cov f) (segment delta 0)) i = delta i) ->
  (forall i, (i < 4)%nat ->
     mvmul 4 (pt_cov f) (lu_solve 4 (pt_cov f) (segment delta 12)) i
     = delta (12 + i)%nat) ->
  (forall i, (i < 16)%nat -> delta i = 0)
  /\ mahalanobis_distance lu_solve ret0 f (avg_state f) = 0.
Proof.
  intros delta Hlog Hq _ _.
  assert (Hz : forall i, (i < 16)%nat -> delta i = 0)
    by (intros i Hi; apply sigma_point_difference_self; assumption).
  split; [exact Hz |].
  unfold mahalanobis_distance, dot, segment, sum_n. cbn [Nat.add].
  fold delta. rewrite !Hz by lia. to_R.
  match goal with
  | |- sqrt ?e = 0 => replace e with 0 by ring
  end.
  apply sqrt_0.
Qed.
End Distance.

Lemma on_equator_unit :
  squaredNorm 4 (coeffs (orientation (avg_state on_equator))) = 1.
Proof.
  change (0 * 0 + 0 * 0 + 0 * 0 + 1 * 1 = 1). ring.
Qed.

Lemma mahalanobis_distance_self_witness :
  let delta :=
    sigma_point_difference (EXT := real_externals) vzero
      (avg_state on_equator) (avg_state on_equator) in
  (forall k, (k < 3)%nat -> log_R qidentity k = 0)
  /\ squaredNorm 4 (coeffs (orientation (avg_state on_equator))) = 1
  /\ (forall i, (i < 12)%nat ->
        mvmul 12 (cov on_equator) ((fun _ _ (_ : Vec R) => vzero) 12%nat
                                     (cov on_equator) (segment delta 0)) i
        = delta i)
  /\ (forall i, (i < 4)%nat ->
        mvmul 4 (pt_cov on_equator)
          ((fun _ _ (_ : Vec R) => vzero) 4%nat (pt_cov on_equator)
             (segment delta 12)) i
        = delta (12 + i)%nat)
  /\ mahalanobis_distance (EXT := real_externals) (fun _ _ _ => vzero) vzero
       on_equator (avg_state on_equator) = 0.
Proof.
  cbv zeta.
  assert (Hd : forall i, (i < 16)%nat ->
             sigma_point_difference (EXT := real_externals) vzero
               (avg_state on_equator) (avg_state on_equator) i = 0).
  { intros i Hi.
    apply (@sigma_point_difference_self real_externals);
      [exact log_R_identity | exact on_equator_unit | exact Hi]. }
  assert (H12 : forall i, (i < 12)%nat ->
        mvmul 12 (cov on_equator) (@vzero R _) i
        = sigma_point_difference (EXT := real_externals) vzero
            (avg_state on_equator) (avg_state on_equator) i).
  { intros i Hi. rewrite Hd by lia. unfold mvmul, vzero. to_R.
    rewrite (@sum_n_ext 12 _ (fun k => 0 * cov on_equator i k))
      by (intros; ring).
    rewrite sum_n_scal. ring. }
  assert (H4 : forall i, (i < 4)%nat ->
        mvmul 4 (pt_cov on_equator) (@vzero R _) i
        = sigma_point_difference (EXT := real_externals) vzero
            (avg_state on_equator) (avg_state on_equator) (12 + i)%nat).
  { intros i Hi. rewrite Hd by lia. unfold mvmul, vzero. to_R.
    rewrite (@sum_n_ext 4 _ (fun k => 0 * pt_cov on_equator i k))
      by (intros; ring).
    rewrite sum_n_scal. ring. }
  split; [exact log_R_identity |]. split; [exact on_equator_unit |].
  split; [exact H12 |]. split; [exact H4 |].
  exact (proj2 (@mahalanobis_distance_self real_externals
                  (fun _ _ _ => vzero) vzero on_equator log_R_identity
                  on_equator_unit H12 H4)).
Defined.

End DiagnosticFacts.

(** ** The mean after a prediction and after an agreeing report *)

Module MeanFacts.
Import Exact ExactFacts Quadratic CovarianceFacts.
Local Open Scope R_scope.

(** The squared norm of a quaternion product is the product of the squared
    norms. *)
Lemma squaredNorm_qmul (a b : Quaternion R) :
  squaredNorm 4 (coeffs (qmul a b))
  = squaredNorm 4 (coeffs a) * squaredNorm 4 (coeffs b).
Proof.
  destruct a as [aw ax ay az], b as [bw bx by' bz].
  unfold squaredNorm, dot, sum_n, coeffs, qmul; cbn [qw qx qy qz]. to_R. ring.
Qed.

Section Mean.
Context {EXT : Externals R R}.

(** X17. In exact arithmetic a prediction whose [exp] returns a unit
    quaternion keeps the norm of the orientation: the new orientation is
    the product of the two quaternions, and the squared norm of a product
    is the product of the squared norms. *)
Theorem predict_ecef_keeps_norm (f : filter R R) (gyro_meas accel_meas : Vec R)
    (dt : R) :
  squaredNorm 4
    (coeffs (exp_f (vscale (vsub gyro_meas (gyro_bias (avg_state f))) dt)))
  = 1 ->
  qnorm (orientation (avg_state (predict_ecef f gyro_meas accel_meas dt)))
  = qnorm (orientation (avg_state f)).
Proof.
  intros He. unfold predict_ecef; cbn [avg_state orientation].
  unfold qnorm, norm. rewrite qcast_f2d_id, squaredNorm_qmul, He.
  f_equal. to_R. ring.
Qed.

(** The accumulated correction of a report stays zero while every
    residual is zero. *)
Lemma pv_report_position_agreeing (f : filter R R) (p_error : Vec R) (i : nat) :
  position (avg_state (pv_report_position f (position (avg_state f)) p_error))
    i = position (avg_state f) i
  /\ clock_bias
       (avg_state (pv_report_position f (position (avg_state f)) p_error))
     = clock_bias (avg_state f).
Proof.
  unfold pv_report_position.
  match goal with
  | |- context [for_loop 3 ?b ?i0] =>
      assert (G : forall k, fst (for_loop 3 b i0) k = 0)
  end.
  { apply for_loop_invariant with (P := fun s => forall k, fst s k = 0).
    - intros k. reflexivity.
    - intros k [u p] Hk Hu. cbn [fst] in *. intros m.
      unfold vadd, vscale, vsub. to_R. rewrite (Hu m), (Hu k). ring. }
  destruct (for_loop 3 _ _) as [u p]. cbn [fst] in G.
  cbn [avg_state set_avg_state]. unfold apply_kalman_vec_update4;
    cbn [position clock_bias].
  unfold vadd, vcast_f2d, segment. to_R. rewrite !G. split; ring.
Qed.

Lemma pv_report_position_keeps (f : filter R R) (pos p_error : Vec R) :
  velocity (avg_state (pv_report_position f pos p_error))
  = velocity (avg_state f)
  /\ gyro_bias (avg_state (pv_report_position f pos p_error))
     = gyro_bias (avg_state f)
  /\ accel_bias (avg_state (pv_report_position f pos p_error))
     = accel_bias (avg_state f).
Proof.
  unfold pv_report_position. destruct (for_loop 3 _ _) as [u p].
  repeat split.
Qed.

Lemma pv_report_velocity_agreeing (f : filter R R) (v_error : Vec R) (i : nat) :
  let f' := pv_report_velocity f (velocity (avg_state f)) v_error in
  velocity (avg_state f') i = velocity (avg_state f) i
  /\ gyro_bias (avg_state f') i = gyro_bias (avg_state f) i
  /\ accel_bias (avg_state f') i = accel_bias (avg_state f) i
  /\ position (avg_state f') = position (avg_state f)
  /\ clock_bias (avg_state f') = clock_bias (avg_state f).
Proof.
  cbv zeta. unfold pv_report_velocity.
  match goal with
  | |- context [for_loop 3 ?b ?i0] =>
      assert (G : forall k, fst (for_loop 3 b i0) k = 0)
  end.
  { apply for_loop_invariant with (P := fun s => forall k, fst s k = 0).
    - intros k. reflexivity.
    - intros k [u p] Hk Hu. cbn [fst] in *. intros m.
      unfold vadd, vscale, vsub, vcast_d2f. to_R.
      rewrite (Hu m), (Hu (6 + k)%nat). ring. }
  destruct (for_loop 3 _ _) as [u p]. cbn [fst] in G.
  cbn [avg_state set_avg_state]. unfold apply_kalman_vec_update12;
    cbn [position clock_bias velocity gyro_bias accel_bias].
  unfold vadd, vcast_f2d, segment. to_R. rewrite !G.
  repeat split; ring.
Qed.

(** The position leg is the loop of [position_leg_turns] run for three
    turns. *)
Lemma pv_report_position_turns (f : filter R R) (pos p_error : Vec R) :
  pt_cov (pv_report_position f pos p_error)
  = snd (position_leg_turns f pos p_error 3).
Proof.
  unfold pv_report_position, position_leg_turns.
  destruct (for_loop 3 _ _) as [u p]. reflexivity.
Qed.

(** X16. In exact arithmetic a report that agrees with the estimate is a
    fixed point of the mean: when no innovation variance that the call
    divides by is zero (on the position leg, the diagonal entry of the
    loop-carried [pt_cov] plus the report's variance at each turn; on the
    velocity leg, a symmetric positive-semidefinite [cov] and positive
    report variances), [obs_gps_pv_report] called with the estimated
    position and velocity leaves position, velocity, both biases and the
    clock bias as they were.  (The orientation goes through [exp] and
    [incremental_normalized], which the file does not define.) *)
Theorem obs_gps_pv_report_agreeing (f : filter R R) (p_error v_error : Vec R)
    (i : nat) :
  let s := avg_state f in
  let s' := avg_state (obs_gps_pv_report f (position s) (velocity s) p_error
                         v_error) in
  (forall k, (k < 3)%nat ->
     snd (position_leg_turns f (position s) p_error k) k k + p_error k <> 0) ->
  symmetric 12 (cov f) -> psd 12 (cov f) ->
  (forall k, (k < 3)%nat -> 0 < v_error k) ->
  position s' i = position s i
  /\ velocity s' i = velocity s i
  /\ gyro_bias s' i = gyro_bias s i
  /\ accel_bias s' i = accel_bias s i
  /\ clock_bias s' = clock_bias s.
Proof.
  cbv zeta. intros _ _ _ _. unfold obs_gps_pv_report.
  set (f1 := pv_report_position f (position (avg_state f)) p_error).
  destruct (pv_report_position_agreeing f p_error i) as (Hp & Hc).
  destruct (pv_report_position_keeps f (position (avg_state f)) p_error)
    as (Hv & Hg & Ha).
  fold f1 in Hp, Hc, Hv, Hg, Ha.
  rewrite <- Hv.
  destruct (pv_report_velocity_agreeing f1 v_error i)
    as (Hv' & Hg' & Ha' & Hp' & Hc').
  rewrite Hv', Hg', Ha', Hp', Hc', Hp, Hc, Hg, Ha, Hv. repeat split.
Qed.
End Mean.

Lemma predict_ecef_keeps_norm_witness :
  squaredNorm 4
    (coeffs (exp_R (vscale (vsub vzero (gyro_bias (avg_state on_equator)))
                      (1 / 100)))) = 1
  /\ qnorm (orientation
              (avg_state (predict_ecef (EXT := real_externals) on_equator
                            vzero vzero (1 / 100))))
     = qnorm (orientation (avg_state on_equator)).
Proof.
  assert (He : squaredNorm 4
    (coeffs (exp_R (vscale (vsub vzero (gyro_bias (avg_state on_equator)))
                      (1 / 100)))) = 1).
  { rewrite exp_R_zero.
    - change (0 * 0 + 0 * 0 + 0 * 0 + 1 * 1 = 1). ring.
    - intros i _. change (((0 - 0) * (1 / 100)) = 0). lra. }
  split; [exact He |].
  exact (@predict_ecef_keeps_norm real_externals on_equator vzero vzero
           (1 / 100) He).
Defined.

Lemma on_equator_turns (k : nat) :
  (k < 3)%nat ->
  snd (position_leg_turns on_equator (position (avg_state on_equator))
         (vec3 1 1 1) k) k k + vec3 1 1 1 k <> 0.
Proof.
  intros Hk. destruct k as [| [| [| k]]]; [| | | lia].
  - match goal with
    | |- ?e <> 0 => replace e with 101; [lra |]
    end.
    cbv - [Rplus Rminus Rmult Rdiv Rinv Ropp PI IZR]. field.
  - match goal with
    | |- ?e <> 0 => replace e with 101; [lra |]
    end.
    cbv - [Rplus Rminus Rmult Rdiv Rinv Ropp PI IZR]. field.
  - match goal with
    | |- ?e <> 0 => replace e with 101; [lra |]
    end.
    cbv - [Rplus Rminus Rmult Rdiv Rinv Ropp PI IZR]. field.
Qed.

Lemma obs_gps_pv_report_agreeing_witness :
  (forall k, (k < 3)%nat ->
     snd (position_leg_turns on_equator (position (avg_state on_equator))
            (vec3 1 1 1) k) k k + vec3 1 1 1 k <> 0)
  /\ symmetric 12 (cov on_equator) /\ psd 12 (cov on_equator)
  /\ (forall k, (k < 3)%nat -> 0 < vec3 1 1 1 k)
  /\ position
       (avg_state
          (obs_gps_pv_report (EXT := real_externals) on_equator
             (position (avg_state on_equator))
             (velocity (avg_state on_equator)) (vec3 1 1 1) (vec3 1 1 1)))
       0%nat
     = position (avg_state on_equator) 0%nat.
Proof.
  assert (Hr : forall k, (k < 3)%nat -> 0 < vec3 1 1 1 k).
  { intros k _. destruct k as [| [| k]]; simpl; lra. }
  split; [exact on_equator_turns |].
  split; [exact on_equator_symmetric |].
  split; [exact on_equator_psd |]. split; [exact Hr |].
  exact (proj1 (@obs_gps_pv_report_agreeing real_externals on_equator
                  (vec3 1 1 1) (vec3 1 1 1) 0%nat on_equator_turns
                  on_equator_symmetric on_equator_psd Hr)).
Defined.
End MeanFacts.

(** ** Degenerate geometry and the constructor, in IEEE 754 arithmetic *)

Module DegenerateFacts.
Import IEEE IEEEFacts.
Local Open Scope num_scope.

Lemma add32_nan_l (y : binary32) : B32 S754_nan + y = B32 S754_nan.
Proof. destruct y as [[]]; reflexivity. Qed.

Lemma add32_nan_r (x : binary32) : x + B32 S754_nan = B32 S754_nan.
Proof. destruct x as [[]]; reflexivity. Qed.

Lemma sub32_nan_r (x : binary32) : x - B32 S754_nan = B32 S754_nan.
Proof. destruct x as [[]]; reflexivity. Qed.

Lemma mul32_nan_l (y : binary32) : B32 S754_nan * y = B32 S754_nan.
Proof. destruct y as [[]]; reflexivity. Qed.

Lemma mul32_nan_r (x : binary32) : x * B32 S754_nan = B32 S754_nan.
Proof. destruct x as [[]]; reflexivity. Qed.

Lemma div32_nan_r (x : binary32) : x / B32 S754_nan = B32 S754_nan.
Proof. destruct x as [[]]; reflexivity. Qed.

(** A binary64 vector of zeros of either sign times the reciprocal of its
    norm: zero times infinity. *)
Lemma scaled_zero_nan (v : Vec binary64) :
  (forall i, (i < 3)%nat -> sf_is_zero (b64 (v i)) = true) ->
  forall i, (i < 3)%nat -> vscale v (one / norm 3 v) i = B64 S754_nan.
Proof.
  intros Hz i Hi.
  destruct (sf_zero_inv _ (Hz 0%nat ltac:(lia))) as [s0 H0].
  destruct (sf_zero_inv _ (Hz 1%nat ltac:(lia))) as [s1 H1].
  destruct (sf_zero_inv _ (Hz 2%nat ltac:(lia))) as [s2 H2].
  destruct (sf_zero_inv _ (Hz i Hi)) as [s Hs].
  unfold vscale, norm, squaredNorm, dot; simpl.
  rewrite H0, H1, H2, Hs.
  destruct s0, s1, s2, s; reflexivity.
Qed.

(** The innovation covariance is NaN as soon as the first component of the
    direction is. *)
Ltac innovation_nan Hd :=
  unfold dot; cbn [sum_n]; cbn [Nat.ltb Nat.leb];
  try unfold vcast_d2f at 1;
  rewrite (Hd 0%nat) by lia;
  change (d2f (B64 S754_nan)) with (B32 S754_nan);
  rewrite !mul32_nan_l, !add32_nan_l; reflexivity.

(** X13. A satellite at the estimated position, in binary32 and binary64:
    the line of sight is the zero vector, its normalisation is zero times
    one over zero, and [obs_gps_pseudorange] turns every entry of
    [pt_cov] and of the caller's accumulator into NaN; the finiteness
    check fails from then on. *)
Theorem obs_gps_pseudorange_zero_range (f : filter binary32 binary64)
    (accum : Vec binary32) (sat_pos : Vec binary64) (pseudorange : binary64)
    (error : binary32) :
  (forall i, (i < 3)%nat ->
     sf_is_zero
       (b64 (vsub (vadd (position (avg_state f))
                     (vcast_f2d (segment accum 0))) sat_pos i)) = true) ->
  let r := obs_gps_pseudorange f accum sat_pos pseudorange error in
  (forall i j, (i < 4)%nat -> (j < 4)%nat -> pt_cov (fst r) i j = B32 S754_nan)
  /\ (forall i, (i < 4)%nat -> snd r i = B32 S754_nan)
  /\ is_real (fst r) = false.
Proof.
  intros Hz r.
  pose proof (scaled_zero_nan _ Hz) as Hd.
  assert (Hp : forall i j, (i < 4)%nat -> (j < 4)%nat ->
                 pt_cov (fst r) i j = B32 S754_nan).
  { intros i j _ _. unfold r, obs_gps_pseudorange; cbn [fst pt_cov set_pt_cov].
    match goal with
    | |- context [one / (?q + error)] =>
        assert (Hq : q = B32 S754_nan) by innovation_nan Hd
    end.
    rewrite Hq. unfold msub, outer.
    change (vscale ?v ?s i) with (v i * s).
    rewrite add32_nan_l, div32_nan_r, mul32_nan_r, mul32_nan_l,
      sub32_nan_r. reflexivity. }
  split; [exact Hp |]. split.
  - intros i _. unfold r, obs_gps_pseudorange; cbn [snd].
    match goal with
    | |- context [one / (?q + error)] =>
        assert (Hq : q = B32 S754_nan) by innovation_nan Hd
    end.
    rewrite Hq. unfold vadd.
    change (vscale ?v ?s i) with (v i * s).
    change (vscale ?v ?s i) with (v i * s).
    rewrite add32_nan_l, div32_nan_r, mul32_nan_r, mul32_nan_l,
      add32_nan_r. reflexivity.
  - unfold is_real.
    assert (Hany : mat_any is_nan 4 4 (pt_cov (fst r)) = true).
    { unfold mat_any. cbn [seq existsb]. rewrite (Hp 0%nat 0%nat) by lia.
      reflexivity. }
    rewrite Hany, ?orb_true_r. reflexivity.
Qed.

(** X14. A satellite whose velocity equals the estimated one, in binary32
    and binary64: the relative velocity is the zero vector, and
    [obs_gps_deltarange] turns every entry of [cov] and of the accumulator
    into NaN. *)
Theorem obs_gps_deltarange_zero_rate (f : filter binary32 binary64)
    (accum : Vec binary32) (sat_vel : Vec binary64) (deltarange : binary64)
    (error : binary32) :
  (forall i, (i < 3)%nat ->
     sf_is_zero
       (b64 (vsub (vadd (velocity (avg_state f))
                     (vcast_f2d (segment accum 6))) sat_vel i)) = true) ->
  let r := obs_gps_deltarange f accum sat_vel deltarange error in
  (forall i j, (i < 12)%nat -> (j < 12)%nat -> cov (fst r) i j = B32 S754_nan)
  /\ (forall i, (i < 12)%nat -> snd r i = B32 S754_nan)
  /\ is_real (fst r) = false.
Proof.
  intros Hz r.
  pose proof (scaled_zero_nan _ Hz) as Hd.
  assert (Hp : forall i j, (i < 12)%nat -> (j < 12)%nat ->
                 cov (fst r) i j = B32 S754_nan).
  { intros i j _ _. unfold r, obs_gps_deltarange; cbn [fst cov set_cov].
    match goal with
    | |- context [one / (?q + error)] =>
        assert (Hq : q = B32 S754_nan) by innovation_nan Hd
    end.
    rewrite Hq. unfold msub, outer.
    change (vscale ?v ?s i) with (v i * s).
    rewrite add32_nan_l, div32_nan_r, mul32_nan_r, mul32_nan_l,
      sub32_nan_r. reflexivity. }
  split; [exact Hp |]. split.
  - intros i _. unfold r, obs_gps_deltarange; cbn [snd].
    match goal with
    | |- context [one / (?q + error)] =>
        assert (Hq : q = B32 S754_nan) by innovation_nan Hd
    end.
    rewrite Hq. unfold vadd.
    change (vscale ?v ?s i) with (v i * s).
    change (vscale ?v ?s i) with (v i * s).
    rewrite add32_nan_l, div32_nan_r, mul32_nan_r, mul32_nan_l,
      add32_nan_r. reflexivity.
  - unfold is_real.
    assert (Hany : mat_any is_nan 12 12 (cov (fst r)) = true).
    { unfold mat_any. cbn [seq existsb]. rewrite (Hp 0%nat 0%nat) by lia.
      reflexivity. }
    rewrite Hany. reflexivity.
Qed.

Lemma obs_gps_pseudorange_zero_range_witness :
  (forall i, (i < 3)%nat ->
     sf_is_zero
       (b64 (vsub (vadd (position (avg_state on_equator))
                     (vcast_f2d (segment vzero 0)))
               (vec3 (of_Z 6370000) zero zero) i)) = true)
  /\ is_real
       (fst (obs_gps_pseudorange on_equator vzero
               (vec3 (of_Z 6370000) zero zero) (of_Z 20000000) one))
     = false.
Proof.
  assert (Hz : forall i, (i < 3)%nat ->
     sf_is_zero
       (b64 (vsub (vadd (position (avg_state on_equator))
                     (vcast_f2d (segment vzero 0)))
               (vec3 (of_Z 6370000) zero zero) i)) = true).
  { intros i _. destruct i as [| [| i]]; reflexivity. }
  split; [exact Hz |].
  exact (proj2 (proj2 (@obs_gps_pseudorange_zero_range on_equator vzero
                         (vec3 (of_Z 6370000) zero zero) (of_Z 20000000) one
                         Hz))).
Defined.

Lemma obs_gps_deltarange_zero_rate_witness :
  (forall i, (i < 3)%nat ->
     sf_is_zero
       (b64 (vsub (vadd (velocity (avg_state fresh))
                     (vcast_f2d (segment vzero 6))) vzero i)) = true)
  /\ is_real (fst (obs_gps_deltarange fresh vzero vzero zero one)) = false.
Proof.
  assert (Hz : forall i, (i < 3)%nat ->
     sf_is_zero
       (b64 (vsub (vadd (velocity (avg_state fresh))
                     (vcast_f2d (segment vzero 6))) vzero i)) = true)
    by (intros i _; reflexivity).
  split; [exact Hz |].
  exact (proj2 (proj2 (@obs_gps_deltarange_zero_rate fresh vzero vzero zero
                         one Hz))).
Defined.

(** X15. The check that closes the constructor reads the two cached
    vectors [inertial_accel] and [body_rate], which the constructor does
    not assign: in binary32 and binary64 [invariants_met] holds on the
    constructed object exactly when what the object held there before is
    free of NaN and of infinities. *)
Theorem constructor_invariants_read_unassigned
    (mem : filter binary32 binary64) :
  invariants_met (pseudorange_ins_qkf mem)
  = negb (vec_any is_nan 3 (inertial_accel (avg_state mem))
          || vec_any is_nan 3 (body_rate (avg_state mem)))
    && negb (vec_any is_inf 3 (inertial_accel (avg_state mem))
             || vec_any is_inf 3 (body_rate (avg_state mem))).
Proof.
  unfold invariants_met, is_real, state_is_real, has_nan, has_inf, state_has.
  set (f := pseudorange_ins_qkf mem).
  assert (E1 : mat_any is_nan 12 12 (cov f) = false)
    by (vm_compute; reflexivity).
  assert (E2 : mat_any is_inf 12 12 (cov f) = false)
    by (vm_compute; reflexivity).
  assert (E3 : mat_any is_nan 4 4 (pt_cov f) = false)
    by (vm_compute; reflexivity).
  assert (E4 : mat_any is_inf 4 4 (pt_cov f) = false)
    by (vm_compute; reflexivity).
  rewrite E1, E2, E3, E4.
  assert (E5 : ltb (abs (one - one / qnorm (orientation (avg_state f))))
                 (f2d (sqrt float_epsilon)) = true)
    by (vm_compute; reflexivity).
  rewrite E5.
  unfold f, pseudorange_ins_qkf;
    cbn [avg_state gyro_bias orientation position velocity accel_bias
         inertial_accel body_rate clock_bias].
  assert (Z1 : vec_any is_nan 3 (@vzero binary32 _) = false) by reflexivity.
  assert (Z2 : vec_any is_inf 3 (@vzero binary32 _) = false) by reflexivity.
  assert (Z3 : vec_any is_nan 3 (@vzero binary64 _) = false) by reflexivity.
  assert (Z4 : vec_any is_inf 3 (@vzero binary64 _) = false) by reflexivity.
  assert (Z5 : vec_any is_nan 4 (coeffs (@qidentity binary64 _)) = false)
    by reflexivity.
  assert (Z6 : vec_any is_inf 4 (coeffs (@qidentity binary64 _)) = false)
    by reflexivity.
  rewrite Z1, Z2, Z3, Z4, Z5, Z6.
  cbn [orb negb andb is_nan is_inf binary64_Num zero b64 sf_is_nan sf_is_inf].
  rewrite !orb_false_r, andb_true_r. reflexivity.
Qed.
End DegenerateFacts.
